(** * Tracking-and-forecasting engine: tracker.py and predictor.py

    A shallow embedding of [src/tracking/tracker.py] (KalmanFilter, Track,
    ObjectTracker) and [src/tracking/predictor.py] (TrajectoryPredictor),
    with the properties the specification states about them.

    Numbers.  The corners of a bounding box are binary floating-point
    numbers of the format of the detector's output ([BoxFormat]):
    [numpy.float32] from YOLO, binary64 otherwise.  [_calculate_iou]
    computes in that format, with its rounding, overflow, underflow and
    NaN ([spec_float] and the operations of the standard library's
    [SpecFloat]); the result is stored in a float64 array and compared
    with the binary64 threshold 0.3.  Everything else that the source
    computes in binary64 (Kalman state, centres, confidences, timestamps
    and the whole predictor) uses Rocq's primitive [float], which is IEEE
    754 binary64 as Python's [float] and numpy's [float64] are.  The
    counters ([age], [hits], [hit_streak], [time_since_update], track ids)
    are unbounded Python integers that only ever count upwards from 0 or
    1: [nat].

    Library routines.  [numpy.linalg.inv], [scipy.optimize.
    linear_sum_assignment], [scipy.stats.linregress] and [time.time] are
    parameters of the sections that use them; the inverse and the
    regression return [None] where they raise.  [numpy.arange] and the
    broadcasting addition of arrays follow numpy's documentation.  A call
    that raises returns [None]. *)

From Stdlib Require Import ZArith Floats List Bool Lia Sorted.
From stdpp Require Import base option list gmap.

Set Warnings "-inexact-float".

(** ** The number format of the boxes

    The coordinates of the boxes given to one tracker are numbers of one
    binary floating-point format, with [box_prec] bits of precision and
    exponents below [box_emax]: [numpy.float32] for the boxes that the
    YOLO detector reads from its result array, binary64 for boxes of
    Python floats.  A box of Python integers ([cv2.boundingRect],
    [create_mock_detection]) is taken as the binary64 box of the same
    numbers: the two arithmetics agree on it as long as the areas stay
    below 2^53. *)
Class BoxFormat : Type := mkBoxFormat { box_prec : Z; box_emax : Z }.

#[global] Instance float64 : BoxFormat := {| box_prec := 53; box_emax := 1024 |}.

Definition float32 : BoxFormat := {| box_prec := 24; box_emax := 128 |}.

(** ** Python's two-argument [max] and [min]

    [max(a, b)] keeps [a] unless [b > a]; [min(a, b)] keeps [a] unless
    [b < a]; a comparison with NaN is false. *)

Definition py_max (a b : spec_float) : spec_float := if SFltb a b then b else a.
Definition py_min (a b : spec_float) : spec_float := if SFltb b a then b else a.

(** ** Bounding boxes and [ObjectTracker._calculate_iou] *)

(** A bounding box is the list [[x1, y1, x2, y2]] the source unpacks. *)
Record BBox : Type := mkBBox {
  bx1 : spec_float; by1 : spec_float; bx2 : spec_float; by2 : spec_float
}.

Section IoU.

Context `{fmt : BoxFormat}.

(** [-], [*], [+] and [/] on two numbers of the format, rounded to
    nearest even. *)
Definition box_sub : spec_float -> spec_float -> spec_float := SFsub box_prec box_emax.
Definition box_mul : spec_float -> spec_float -> spec_float := SFmul box_prec box_emax.
Definition box_add : spec_float -> spec_float -> spec_float := SFadd box_prec box_emax.
Definition box_div : spec_float -> spec_float -> spec_float := SFdiv box_prec box_emax.

(** The result is a number of the format of the boxes, or the float
    [0.0]. *)
Definition _calculate_iou (bbox1 bbox2 : BBox) : spec_float :=
  let '(mkBBox x1_1 y1_1 x2_1 y2_1) := bbox1 in
  let '(mkBBox x1_2 y1_2 x2_2 y2_2) := bbox2 in
  let x1_i := py_max x1_1 x1_2 in
  let y1_i := py_max y1_1 y1_2 in
  let x2_i := py_min x2_1 x2_2 in
  let y2_i := py_min y2_1 y2_2 in
  if SFleb x2_i x1_i || SFleb y2_i y1_i then S754_zero false
  else
    let intersection := box_mul (box_sub x2_i x1_i) (box_sub y2_i y1_i) in
    let area1 := box_mul (box_sub x2_1 x1_1) (box_sub y2_1 y1_1) in
    let area2 := box_mul (box_sub x2_2 x1_2) (box_sub y2_2 y1_2) in
    let union := box_sub (box_add area1 area2) intersection in
    if SFltb (S754_zero false) union then box_div intersection union
    else S754_zero false.

(** The area of a box as [_calculate_iou] computes it. *)
Definition box_area (b : BBox) : spec_float :=
  box_mul (box_sub (bx2 b) (bx1 b)) (box_sub (by2 b) (by1 b)).

End IoU.

(** [iou_matrix[t, d] = ...]: the number as the float64 array
    [numpy.zeros((n, m))] stores it; a number of a narrower format is
    widened without rounding. *)
Definition to_float64 (x : spec_float) : float :=
  SF2Prim match x with
          | S754_finite s m e => binary_normalize 53 1024 (cond_Zopp s (Zpos m)) e s
          | _ => x
          end.

(** Two boxes do not overlap when one lies entirely to one side of the
    other (touching edges included). *)
Definition non_overlapping (a b : BBox) : Prop :=
  SFleb (bx2 a) (bx1 b) = true \/ SFleb (bx2 b) (bx1 a) = true \/
  SFleb (by2 a) (by1 b) = true \/ SFleb (by2 b) (by1 a) = true.

Definition positive_area (b : BBox) : Prop :=
  SFltb (bx1 b) (bx2 b) = true /\ SFltb (by1 b) (by2 b) = true.

(** ** Notions used to state the properties of the overlap measure *)

Definition is_zero (f : spec_float) : bool :=
  match f with S754_zero _ => true | _ => false end.

Definition SF_is_nan (x : spec_float) : bool :=
  match x with S754_nan => true | _ => false end.

Definition SF_is_finite (x : spec_float) : bool :=
  match x with S754_zero _ | S754_finite _ _ _ => true | _ => false end.

(** The same float, or two zeros: 0.0 and -0.0 are [==]. *)
Definition same_number (x y : spec_float) : Prop :=
  x = y \/ (is_zero x = true /\ is_zero y = true).

Definition box_has_nan (b : BBox) : bool :=
  SF_is_nan (bx1 b) || SF_is_nan (by1 b) || SF_is_nan (bx2 b) || SF_is_nan (by2 b).

(** The comparison of two floats that are not NaN is the lexicographic
    comparison of their ranks. *)
Definition rank (x : spec_float) : Z * Z * Z :=
  match x with
  | S754_nan | S754_zero _ => (0, 0, 0)
  | S754_infinity s => (if s then -2 else 2, 0, 0)
  | S754_finite s m e => if s then (-1, - e, Zneg m) else (1, e, Zpos m)
  end%Z.

Definition rank_lt (a b : Z * Z * Z) : Prop :=
  (a.1.1 < b.1.1 \/ (a.1.1 = b.1.1 /\ (a.1.2 < b.1.2 \/ (a.1.2 = b.1.2 /\ a.2 < b.2))))%Z.

(** ** numpy arrays of binary64 numbers

    A one-dimensional array is a list, a matrix a list of rows.  [dot] adds
    the products from left to right. *)

Definition vec := list float.
Definition matrix := list vec.

Definition dot (u v : vec) : float :=
  fold_left (fun acc p => (acc + fst p * snd p)%float) (combine u v) 0%float.

Definition mat_vec (A : matrix) (v : vec) : vec := map (fun row => dot row v) A.

Definition transpose (A : matrix) : matrix :=
  match A with
  | [] => []
  | r :: _ => map (fun j => map (fun row => nth j row 0%float) A) (seq 0 (length r))
  end.

Definition mat_mul (A B : matrix) : matrix :=
  map (fun row => map (fun col => dot row col) (transpose B)) A.

Definition vec_add (u v : vec) : vec := zip_with PrimFloat.add u v.
Definition vec_sub (u v : vec) : vec := zip_with PrimFloat.sub u v.
Definition mat_add (A B : matrix) : matrix := zip_with vec_add A B.
Definition mat_sub (A B : matrix) : matrix := zip_with vec_sub A B.
Definition mat_scale (A : matrix) (c : float) : matrix :=
  map (map (fun x => (x * c)%float)) A.

Definition eye (n : nat) : matrix :=
  map (fun i => map (fun j => if Nat.eqb i j then 1%float else 0%float) (seq 0 n)) (seq 0 n).

(** ** The records exchanged with the detector *)

Record Detection : Type := mkDetection {
  det_bbox : BBox;
  det_confidence : float;
  det_class_id : Z;
  det_center : float * float
}.

Record HistoryEntry : Type := mkHistoryEntry {
  h_position : float * float;
  h_timestamp : float;
  h_bbox : BBox
}.

(** ** class KalmanFilter *)

Record KalmanFilter : Type := mkKalmanFilter {
  state : vec;
  covariance : matrix;
  kF : matrix;
  kH : matrix;
  kQ : matrix;
  kR : matrix
}.

Definition KalmanFilter_init (initial_state : vec) : KalmanFilter :=
  {| state := initial_state;
     covariance := mat_scale (eye 4) 1000;
     kF := [[1; 0; 1; 0]; [0; 1; 0; 1]; [0; 0; 1; 0]; [0; 0; 0; 1]]%float;
     kH := [[1; 0; 0; 0]; [0; 1; 0; 0]]%float;
     kQ := mat_scale (eye 4) 0.1;
     kR := mat_scale (eye 2) 1 |}.

(** [predict] returns the new filter and [state[:2]]. *)
Definition KalmanFilter_predict (self : KalmanFilter) : KalmanFilter * vec :=
  let state' := mat_vec (kF self) (state self) in
  let covariance' :=
    mat_add (mat_mul (mat_mul (kF self) (covariance self)) (transpose (kF self))) (kQ self) in
  ({| state := state'; covariance := covariance';
      kF := kF self; kH := kH self; kQ := kQ self; kR := kR self |},
   firstn 2 state').

(** ** tracker.py: the filter update, the tracks and the tracker *)

Section Tracker.

(** The format of the boxes of the detections. *)
Context `{fmt : BoxFormat}.

(** [numpy.linalg.inv]: [None] is [LinAlgError] (singular matrix). *)
Context (linalg_inv : matrix -> option matrix).

(** [scipy.optimize.linear_sum_assignment] on a float64 cost matrix: the
    pair [(row_ind, col_ind)]. *)
Context (linear_sum_assignment : list (list float) -> list nat * list nat).

(** [time.time()]: the value read by the [n]-th call. *)
Context (clock : nat -> float).

Definition KalmanFilter_update (self : KalmanFilter) (measurement : vec)
  : option KalmanFilter :=
  let y := vec_sub measurement (mat_vec (kH self) (state self)) in
  let S := mat_add (mat_mul (mat_mul (kH self) (covariance self)) (transpose (kH self)))
                   (kR self) in
  Sinv ← linalg_inv S;
  let K := mat_mul (mat_mul (covariance self) (transpose (kH self))) Sinv in
  Some {| state := vec_add (state self) (mat_vec K y);
          covariance := mat_mul (mat_sub (eye 4) (mat_mul K (kH self))) (covariance self);
          kF := kF self; kH := kH self; kQ := kQ self; kR := kR self |}.

(** *** Calls that read the clock and may raise

    A computation takes the number of clock reads made so far and either
    raises ([None]) or returns its value with the new count. *)
Definition M (A : Type) : Type := nat -> option (A * nat).

Definition ret {A} (a : A) : M A := fun n => Some (a, n).
Definition bind {A B} (m : M A) (k : A -> M B) : M B :=
  fun n => match m n with Some (a, n') => k a n' | None => None end.
Definition raise {A} : M A := fun _ => None.
Definition lift {A} (o : option A) : M A :=
  match o with Some a => ret a | None => raise end.
Definition time_time : M float := fun n => Some (clock n, S n).

Notation "'let*' x := m 'in' k" := (bind m (fun x => k))
  (at level 10, x name, m at level 100, k at level 200).

(** *** class Track *)

Record Track : Type := mkTrack {
  id : nat;
  kalman : KalmanFilter;
  age : nat;
  hits : nat;
  hit_streak : nat;
  time_since_update : nat;
  history : list HistoryEntry;
  bbox : BBox;
  confidence : float;
  last_update : float
}.

Definition Track_init (detection : Detection) (track_id : nat) : M Track :=
  let* now := time_time in
  ret {| id := track_id;
         kalman := KalmanFilter_init
                     [fst (det_center detection); snd (det_center detection); 0; 0]%float;
         age := 0;
         hits := 1;
         hit_streak := 1;
         time_since_update := 0;
         history := [];
         bbox := det_bbox detection;
         confidence := det_confidence detection;
         last_update := now |}.

Definition Track_predict (self : Track) : Track * vec :=
  let '(kalman', predicted_pos) := KalmanFilter_predict (kalman self) in
  ({| id := id self;
      kalman := kalman';
      age := age self + 1;
      hits := hits self;
      hit_streak := hit_streak self;
      time_since_update := time_since_update self + 1;
      history := history self;
      bbox := bbox self;
      confidence := confidence self;
      last_update := last_update self |},
   predicted_pos).

Definition Track_update (self : Track) (detection : Detection) : M Track :=
  let* kalman' :=
    lift (KalmanFilter_update (kalman self)
            [fst (det_center detection); snd (det_center detection)]) in
  let* last_update' := time_time in
  let* timestamp := time_time in
  let history1 :=
    history self ++ [ {| h_position := det_center detection;
                         h_timestamp := timestamp;
                         h_bbox := det_bbox detection |} ] in
  let history2 :=
    if Nat.ltb 30 (length history1) then tail history1 else history1 in
  ret {| id := id self;
         kalman := kalman';
         age := age self;
         hits := hits self + 1;
         hit_streak := hit_streak self + 1;
         time_since_update := 0;
         history := history2;
         bbox := det_bbox detection;
         confidence := det_confidence detection;
         last_update := last_update' |}.

(** The dictionary returned by [get_state]. *)
Record TrackState : Type := mkTrackState {
  s_id : nat;
  s_bbox : BBox;
  s_center : float * float;
  s_velocity : float * float;
  s_confidence : float;
  s_age : nat;
  s_hits : nat;
  s_history : list HistoryEntry;
  s_last_update : float
}.

Definition get_state (self : Track) : TrackState :=
  let st := state (kalman self) in
  {| s_id := id self;
     s_bbox := bbox self;
     s_center := (nth 0 st 0%float, nth 1 st 0%float);
     s_velocity := (nth 2 st 0%float, nth 3 st 0%float);
     s_confidence := confidence self;
     s_age := age self;
     s_hits := hits self;
     s_history := history self;
     s_last_update := last_update self |}.

(** *** class ObjectTracker *)

Record ObjectTracker : Type := mkObjectTracker {
  tracks : list Track;
  next_id : nat;
  max_age : nat;
  min_hits : nat;
  iou_threshold : float
}.

Definition ObjectTracker_init : ObjectTracker :=
  {| tracks := []; next_id := 1; max_age := 30; min_hits := 3; iou_threshold := 0.3%float |}.

(** [x not in a] on an index array. *)
Definition not_in (x : nat) (a : list nat) : bool := negb (existsb (Nat.eqb x) a).

(** [iou_matrix[t, d]]; [None] is [IndexError]. *)
Definition matrix_get {A} (m : list (list A)) (t d : nat) : option A :=
  row ← m !! t; row !! d.

(** The loop that keeps the assigned pairs above the threshold. *)
Fixpoint keep_matches (threshold : float) (iou_matrix : list (list float))
         (pairs : list (nat * nat)) : option (list (nat * nat)) :=
  match pairs with
  | [] => Some []
  | (t, d) :: rest =>
      iou ← matrix_get iou_matrix t d;
      kept ← keep_matches threshold iou_matrix rest;
      Some (if (threshold <? iou)%float then (t, d) :: kept else kept)
  end.

Definition _associate_detections_to_tracks (self : ObjectTracker)
           (detections : list Detection) (predicted_tracks : list (Track * vec))
  : option (list (nat * nat) * list nat * list nat) :=
  if Nat.eqb (length predicted_tracks) 0 then
    Some ([], seq 0 (length detections), [])
  else if Nat.eqb (length detections) 0 then
    Some ([], [], seq 0 (length predicted_tracks))
  else
    let iou_matrix :=
      (fun '(track, pred_pos) =>
         (fun detection =>
            to_float64 (_calculate_iou (bbox track) (det_bbox detection)))
           <$> detections)
        <$> predicted_tracks in
    if Nat.ltb 0 (Nat.min (length predicted_tracks) (length detections)) then
      let matched_indices :=
        linear_sum_assignment (map (map PrimFloat.opp) iou_matrix) in
      matched_tracks ←
        keep_matches (iou_threshold self) iou_matrix
                     (combine (fst matched_indices) (snd matched_indices));
      let unmatched_detections :=
        filter (fun d => not_in d (snd matched_indices) = true) (seq 0 (length detections)) in
      let unmatched_tracks :=
        filter (fun t => not_in t (fst matched_indices) = true)
               (seq 0 (length predicted_tracks)) in
      Some (matched_tracks, unmatched_detections, unmatched_tracks)
    else
      Some ([], seq 0 (length detections), seq 0 (length predicted_tracks)).

(** [for track_idx, det_idx in matched_tracks:
       self.tracks[track_idx].update(detections[det_idx])] *)
Fixpoint update_matched (trks : list Track) (detections : list Detection)
         (matched_tracks : list (nat * nat)) : M (list Track) :=
  match matched_tracks with
  | [] => ret trks
  | (track_idx, det_idx) :: rest =>
      let* track := lift (trks !! track_idx) in
      let* detection := lift (detections !! det_idx) in
      let* track' := Track_update track detection in
      update_matched (<[track_idx := track']> trks) detections rest
  end.

(** [for det_idx in unmatched_detections: ...]: returns the tracks and
    the new [next_id]. *)
Fixpoint create_tracks (trks : list Track) (nid : nat) (detections : list Detection)
         (unmatched_detections : list nat) : M (list Track * nat) :=
  match unmatched_detections with
  | [] => ret (trks, nid)
  | det_idx :: rest =>
      let* detection := lift (detections !! det_idx) in
      let* new_track := Track_init detection nid in
      create_tracks (trks ++ [new_track]) (nid + 1) detections rest
  end.

(** The dictionary of confirmed tracks, filled in list order. *)
Definition confirmed (mh : nat) (trks : list Track) : gmap nat TrackState :=
  foldl (fun confirmed_tracks track =>
           if Nat.leb mh (hits track)
           then <[id track := get_state track]> confirmed_tracks
           else confirmed_tracks)
        ∅ trks.

Definition update (self : ObjectTracker) (detections : list Detection)
  : M (gmap nat TrackState * ObjectTracker) :=
  let predicted_tracks := Track_predict <$> tracks self in
  let tracks0 := fst <$> predicted_tracks in
  let* association :=
    lift (_associate_detections_to_tracks self detections predicted_tracks) in
  let '(matched_tracks, unmatched_detections, unmatched_tracks) := association in
  let* tracks1 := update_matched tracks0 detections matched_tracks in
  let* created :=
    create_tracks tracks1 (next_id self) detections unmatched_detections in
  let '(tracks2, next_id') := created in
  let tracks3 :=
    filter (fun track => Nat.ltb (time_since_update track) (max_age self) = true) tracks2 in
  ret (confirmed (min_hits self) tracks3,
       {| tracks := tracks3; next_id := next_id';
          max_age := max_age self; min_hits := min_hits self;
          iou_threshold := iou_threshold self |}).

Definition get_track_count (self : ObjectTracker) : nat :=
  length (filter (fun track => Nat.leb (min_hits self) (hits track) = true) (tracks self)).

End Tracker.


Arguments ret {A} a _ /.
Arguments raise {A} _ /.

(** ** Executions of the tracker *)

Section Executions.

Context `{fmt : BoxFormat}.
Context (linalg_inv : matrix -> option matrix).
Context (linear_sum_assignment : list (list float) -> list nat * list nat).
Context (clock : nat -> float).

(** One invocation of [ObjectTracker.update] that returns. *)
Definition invocation (s : ObjectTracker) (detections : list Detection)
           (out : gmap nat TrackState) (s' : ObjectTracker) : Prop :=
  exists n n', update linalg_inv linear_sum_assignment clock s detections n = Some ((out, s'), n').

(** [later s s']: [s'] is the tracker [s] after any number of invocations. *)
Inductive later : ObjectTracker -> ObjectTracker -> Prop :=
| later_refl s : later s s
| later_step s s1 s' detections out :
    invocation s detections out s1 -> later s1 s' -> later s s'.

(** The trackers that [ObjectTracker()] followed by invocations of
    [update] can produce. *)
Definition reachable (s : ObjectTracker) : Prop := later ObjectTracker_init s.

(** The ids of the active set. *)
Definition ids (s : ObjectTracker) : list nat := id <$> tracks s.

(** The driver loop: one invocation per frame; the tracker and the clock
    count after the last frame. *)
Fixpoint run (s : ObjectTracker) (n : nat) (frames : list (list Detection))
  : option (ObjectTracker * nat) :=
  match frames with
  | [] => Some (s, n)
  | detections :: rest =>
      match update linalg_inv linear_sum_assignment clock s detections n with
      | Some ((_, s1), n1) => run s1 n1 rest
      | None => None
      end
  end.

End Executions.

(** The contract of the assignment solver that [update] relies on: the
    indices it returns are rows and columns of the cost matrix. *)
Definition solver_in_range (linear_sum_assignment : list (list float) -> list nat * list nat)
  : Prop :=
  forall cost,
    Forall (fun t => (t < length cost)%nat) (linear_sum_assignment cost).1 /\
    Forall (fun d => forall row, row ∈ cost -> (d < length row)%nat)
           (linear_sum_assignment cost).2.

(** What holds of every track of a reachable tracker. *)
Definition track_ok (t : Track) : Prop :=
  hit_streak t = hits t /\ (1 <= hits t)%nat /\ (length (history t) <= 30)%nat.

(** How [Track.predict] and [Track.update] may change a track. *)
Definition evolves (t t' : Track) : Prop :=
  id t' = id t /\ (hit_streak t <= hit_streak t')%nat /\ (hits t <= hits t')%nat /\
  (track_ok t -> track_ok t').

(** A track as [Track.__init__] leaves it. *)
Definition fresh_track (t : Track) : Prop :=
  hits t = 1%nat /\ hit_streak t = 1%nat /\ time_since_update t = 0%nat /\ history t = [].

Record invariant (s : ObjectTracker) : Prop := mkInvariant {
  inv_nodup : NoDup (ids s);
  inv_below : Forall (fun t => (1 <= id t < next_id s)%nat) (tracks s);
  inv_ok : Forall track_ok (tracks s);
  inv_young : Forall (fun t => (time_since_update t < 30)%nat) (tracks s);
  inv_next : (1 <= next_id s)%nat;
  inv_max_age : max_age s = 30%nat;
  inv_min_hits : min_hits s = 3%nat;
  inv_threshold : iou_threshold s = 0.3%float
}.

(** ** Reference instances of the library routines

    They are used to run the model on concrete inputs. *)

(** The inverse of a 2 x 2 matrix by the adjugate; a zero determinant (and
    any other shape) is [LinAlgError]. *)
Definition inv_2x2 (m : matrix) : option matrix :=
  match m with
  | [[a; b]; [c; d]] =>
      let det := (a * d - b * c)%float in
      if (det =? 0)%float then None
      else Some [[d / det; - b / det]; [- c / det; a / det]]%float
  | _ => None
  end.

(** An exhaustive minimum-cost assignment: every row gets its own column
    when there are at least as many columns as rows, and conversely. *)
Fixpoint injections (k : nat) (avail : list nat) : list (list nat) :=
  match k with
  | O => [[]]
  | S k' =>
      flat_map (fun c => map (cons c) (injections k' (List.remove Nat.eq_dec c avail))) avail
  end.

Definition assignment_cost (cost : list (list float)) (cols : list nat) : float :=
  fold_left PrimFloat.add
    (map (fun '(r, c) => nth c (nth r cost []) 0%float) (combine (seq 0 (length cols)) cols))
    0%float.

Definition cheapest (cost : list (list float)) (candidates : list (list nat)) : list nat :=
  match candidates with
  | [] => []
  | c0 :: rest =>
      fold_left (fun best c =>
                   if (assignment_cost cost c <? assignment_cost cost best)%float
                   then c else best)
                rest c0
  end.

Definition cost_transpose (cost : list (list float)) : list (list float) :=
  match cost with
  | [] => []
  | r :: _ => map (fun j => map (fun row => nth j row 0%float) cost) (seq 0 (length r))
  end.

Fixpoint insert_pair (p : nat * nat) (l : list (nat * nat)) : list (nat * nat) :=
  match l with
  | [] => [p]
  | q :: l' => if Nat.leb (fst p) (fst q) then p :: l else q :: insert_pair p l'
  end.

Definition exhaustive_assignment (cost : list (list float)) : list nat * list nat :=
  let n := length cost in
  let m := match cost with [] => O | r :: _ => length r end in
  if Nat.leb n m then
    (seq 0 n, cheapest cost (injections n (seq 0 m)))
  else
    let rows := cheapest (cost_transpose cost) (injections m (seq 0 n)) in
    let pairs := fold_right insert_pair [] (combine rows (seq 0 m)) in
    (map fst pairs, map snd pairs).

(** A clock that advances by 2^-5 s per reading. *)
Definition ticking_clock (n : nat) : float :=
  (1700000000 + PrimFloat.of_uint63 (Uint63.of_Z (Z.of_nat n)) * 0.03125)%float.

(** A Python [int] as a coordinate of a box: the binary64 number nearest
    to it (the number itself below 2^53). *)
Definition of_int (z : Z) : spec_float := binary_normalize 53 1024 z 0 false.

Definition int_box (x1 y1 x2 y2 : Z) : BBox :=
  mkBBox (of_int x1) (of_int y1) (of_int x2) (of_int y2).

(** [create_mock_detection] of test_system.py, with its defaults
    [w=50, h=50, confidence=0.8]. *)
Definition create_mock_detection (x y : Z) : Detection :=
  let w := 50%Z in
  let h := 50%Z in
  {| det_bbox := int_box x y (x + w) (y + h);
     det_confidence := 0.8%float;
     det_class_id := 0%Z;
     det_center := ((PrimFloat.of_uint63 (Uint63.of_Z x) + 50 / 2)%float,
                    (PrimFloat.of_uint63 (Uint63.of_Z y) + 50 / 2)%float) |}.

(** The two detections of test_system.py, and the frames of the scenarios
    run below. *)
Definition two_objects : list Detection :=
  [create_mock_detection 100 100; create_mock_detection 200 150].

Definition far_objects : list Detection :=
  [create_mock_detection 500 500; create_mock_detection 700 300].

(** One object seen once, then [k] frames without detections. *)
Definition seen_once_then_lost (k : nat) : list (list Detection) :=
  [create_mock_detection 100 100] :: repeat [] k.

(** The tracker and clock count after the given frames, from a new
    [ObjectTracker()], with the reference routines. *)
Definition after_frames (frames : list (list Detection)) : ObjectTracker * nat :=
  match run inv_2x2 exhaustive_assignment ticking_clock ObjectTracker_init 0 frames with
  | Some r => r
  | None => (ObjectTracker_init, 0%nat)
  end.

(** The dictionary returned for [detections] after [frames]. *)
Definition output_after (frames : list (list Detection)) (detections : list Detection)
  : gmap nat TrackState :=
  match update inv_2x2 exhaustive_assignment ticking_clock
               (after_frames frames).1 detections (after_frames frames).2 with
  | Some ((out, _), _) => out
  | None => ∅
  end.


(** ** predictor.py: binary64 helpers *)

Local Open Scope float_scope.

(** Python's [min(a, b)] on floats. *)
Definition fmin (a b : float) : float := if b <? a then b else a.

(** [x**2] on a binary64 number. *)
Definition sq (x : float) : float := x * x.

(** [numpy.linalg.norm] of a vector of two components. *)
Definition norm2 (v : float * float) : float := sqrt (fst v * fst v + snd v * snd v).

Definition float_of_nat (i : nat) : float := PrimFloat.of_uint63 (Uint63.of_Z (Z.of_nat i)).

(** The ceiling of a binary64 number as an integer; [None] for NaN and the
    infinities, and outside the range of a 64-bit index, where
    [numpy.arange] raises. *)
Definition ceil_to_intp (x : float) : option Z :=
  let in_range (z : Z) :=
    if ((- 2 ^ 63 <=? z) && (z <=? 2 ^ 63 - 1))%Z then Some z else None in
  match Prim2SF x with
  | S754_zero _ => Some 0%Z
  | S754_finite false m e =>
      in_range (if (0 <=? e)%Z then Zpos m * 2 ^ e else - ((- Zpos m) / 2 ^ (- e)))%Z
  | S754_finite true m e =>
      in_range (if (0 <=? e)%Z then - (Zpos m * 2 ^ e) else - (Zpos m / 2 ^ (- e)))%Z
  | S754_infinity _ | S754_nan => None
  end.

(** [numpy.arange(start, stop, step)] on binary64 arguments: the length is
    [ceil((stop - start) / step)]; the first two elements are [start] and
    [start + step], the others [start + i * delta] with
    [delta = (start + step) - start]. *)
Definition np_arange (start stop step : float) : option (list float) :=
  len ← ceil_to_intp ((stop - start) / step);
  let next := start + step in
  let delta := next - start in
  Some ((fun i => match i with
                  | O => start
                  | S O => next
                  | _ => start + float_of_nat i * delta
                  end) <$> seq 0 (Z.to_nat len)).

(** An array of shape [(n, 2)]. *)
Definition points := list (float * float).

Definition scale (w : float) (a : points) : points :=
  (fun p => (w * fst p, w * snd p)) <$> a.

Definition padd (p q : float * float) : float * float := (fst p + fst q, snd p + snd q).

(** [a + b] on two arrays of rows, with numpy's broadcasting: equal
    lengths add row by row, a single row is added to every row of the other
    array, anything else is [ValueError] ([None]). *)
Definition broadcast_add (a b : points) : option points :=
  match a, b with
  | [], [] => Some []
  | [], _ | _, [] => None
  | [p], _ => Some (padd p <$> b)
  | _, [q] => Some ((fun p => padd p q) <$> a)
  | _, _ => if Nat.eqb (length a) (length b) then Some (zip_with padd a b) else None
  end.

(** ** The result of a forecast *)

Inductive Method : Type := linear | kalman_method | combined.

Record Forecast : Type := mkForecast {
  p_method : Method;
  p_trajectory : points;
  p_velocity : float * float;
  p_speed : float;
  p_impact_point : float * float;
  p_time_to_impact : float;
  p_confidence : float
}.

(** [{'status': 'insufficient_data'}] or [{'status': 'success', ...}]. *)
Inductive Prediction : Type :=
| insufficient_data
| success (f : Forecast).

(** ** class TrajectoryPredictor *)

Record TrajectoryPredictor : Type := mkTrajectoryPredictor {
  prediction_time : float;
  min_history_points : nat;
  frame_bounds : float * float
}.

Definition TrajectoryPredictor_init : TrajectoryPredictor :=
  {| prediction_time := 5.0; min_history_points := 5; frame_bounds := (1280, 720) |}.

(** [intersections.sort(key=lambda x: x[2])]: stable, ascending in [t]. *)
Fixpoint insert_by_t (c : float * float * float) (l : list (float * float * float))
  : list (float * float * float) :=
  match l with
  | [] => [c]
  | c' :: l' => if snd c <? snd c' then c :: l else c' :: insert_by_t c l'
  end.

Definition sort_by_t (l : list (float * float * float)) : list (float * float * float) :=
  fold_left (fun sorted c => insert_by_t c sorted) l [].

(** [for intersection in intersections: if intersection[2] > 0: return ...] *)
Fixpoint first_positive (l : list (float * float * float)) : option (float * float) :=
  match l with
  | [] => None
  | (x, y, t) :: l' => if 0 <? t then Some (x, y) else first_positive l'
  end.

Definition _calculate_impact_point (self : TrajectoryPredictor)
           (position velocity : float * float) : float * float :=
  let '(x, y) := position in
  let '(vx, vy) := velocity in
  if (abs vx <? 1e-6) && (abs vy <? 1e-6) then position
  else
    let intersections := [] in
    let intersections :=
      if vx <? 0 then
        let t := - x / vx in
        let y_intersect := y + vy * t in
        if (0 <=? y_intersect) && (y_intersect <=? snd (frame_bounds self))
        then intersections ++ [(0, y_intersect, t)] else intersections
      else intersections in
    let intersections :=
      if 0 <? vx then
        let t := (fst (frame_bounds self) - x) / vx in
        let y_intersect := y + vy * t in
        if (0 <=? y_intersect) && (y_intersect <=? snd (frame_bounds self))
        then intersections ++ [(fst (frame_bounds self), y_intersect, t)] else intersections
      else intersections in
    let intersections :=
      if vy <? 0 then
        let t := - y / vy in
        let x_intersect := x + vx * t in
        if (0 <=? x_intersect) && (x_intersect <=? fst (frame_bounds self))
        then intersections ++ [(x_intersect, 0, t)] else intersections
      else intersections in
    let intersections :=
      if 0 <? vy then
        let t := (snd (frame_bounds self) - y) / vy in
        let x_intersect := x + vx * t in
        if (0 <=? x_intersect) && (x_intersect <=? fst (frame_bounds self))
        then intersections ++ [(x_intersect, snd (frame_bounds self), t)] else intersections
      else intersections in
    match first_positive (sort_by_t intersections) with
    | Some p => p
    | None =>
        let t := 2.0 in
        (x + vx * t, y + vy * t)
    end.

Definition _calculate_time_to_impact (position velocity impact_point : float * float)
  : float :=
  let dx := fst impact_point - fst position in
  let dy := snd impact_point - snd position in
  let fallback :=
    let distance := sqrt (sq dx + sq dy) in
    let speed := sqrt (sq (fst velocity) + sq (snd velocity)) in
    if 1e-6 <? speed then distance / speed else infinity in
  if abs (snd velocity) <? abs (fst velocity) then
    if 1e-6 <? abs (fst velocity) then dx / fst velocity else fallback
  else
    if 1e-6 <? abs (snd velocity) then dy / snd velocity else fallback.

Section Predictor.

(** [scipy.stats.linregress(x, y)]: slope, intercept and correlation
    coefficient (the p-value and the standard error are not used); [None]
    is the [ValueError] it raises, for instance when all the [x] are
    identical. *)
Context (linregress : list float -> list float -> option (float * float * float)).

(** The functions return [None] where the source raises. *)
Definition _linear_prediction (self : TrajectoryPredictor)
           (positions : points) (timestamps : list float) : option Prediction :=
  if Nat.ltb (length positions) 3 then Some insufficient_data
  else
    let t0 := hd 0 timestamps in
    let dt := (fun t => t - t0) <$> timestamps in
    '(slope_x, intercept_x, r_x) ← linregress dt (fst <$> positions);
    '(slope_y, intercept_y, r_y) ← linregress dt (snd <$> positions);
    let current_time := List.last timestamps 0 - t0 in
    future_times ← np_arange current_time (current_time + prediction_time self) 0.1;
    let trajectory :=
      (fun t => (slope_x * t + intercept_x, slope_y * t + intercept_y)) <$> future_times in
    let velocity := (slope_x, slope_y) in
    let speed := sqrt (sq slope_x + sq slope_y) in
    let last_position := List.last positions (0, 0) in
    let impact_point := _calculate_impact_point self last_position velocity in
    let time_to_impact := _calculate_time_to_impact last_position velocity impact_point in
    Some (success {| p_method := linear;
                     p_trajectory := trajectory;
                     p_velocity := velocity;
                     p_speed := speed;
                     p_impact_point := impact_point;
                     p_time_to_impact := time_to_impact;
                     p_confidence := fmin (abs r_x) (abs r_y) |}).

Definition _kalman_prediction (self : TrajectoryPredictor) (track : TrackState)
  : option Prediction :=
  let velocity := s_velocity track in
  let position := s_center track in
  times ← np_arange 0 (prediction_time self) 0.1;
  let trajectory :=
    (fun t => (fst position + fst velocity * t, snd position + snd velocity * t)) <$> times in
  let speed := norm2 velocity in
  let impact_point := _calculate_impact_point self position velocity in
  let time_to_impact := _calculate_time_to_impact position velocity impact_point in
  Some (success {| p_method := kalman_method;
                   p_trajectory := trajectory;
                   p_velocity := velocity;
                   p_speed := speed;
                   p_impact_point := impact_point;
                   p_time_to_impact := time_to_impact;
                   p_confidence := 0.8 |}).

Definition _combine_predictions (linear_pred kalman_pred : Prediction)
  : option Prediction :=
  match linear_pred, kalman_pred with
  | insufficient_data, _ => Some kalman_pred
  | success _, insufficient_data => Some linear_pred
  | success l, success k =>
      let w_linear := p_confidence l in
      let w_kalman := p_confidence k in
      let total_weight := w_linear + w_kalman in
      if total_weight =? 0 then Some kalman_pred
      else
        let w_linear := w_linear / total_weight in
        let w_kalman := w_kalman / total_weight in
        combined_trajectory ←
          broadcast_add (scale w_linear (p_trajectory l)) (scale w_kalman (p_trajectory k));
        let combined_velocity :=
          padd (w_linear * fst (p_velocity l), w_linear * snd (p_velocity l))
               (w_kalman * fst (p_velocity k), w_kalman * snd (p_velocity k)) in
        let combined_speed := norm2 combined_velocity in
        let '(impact_point, time_to_impact) :=
          if w_kalman <? w_linear
          then (p_impact_point l, p_time_to_impact l)
          else (p_impact_point k, p_time_to_impact k) in
        Some (success {| p_method := combined;
                         p_trajectory := combined_trajectory;
                         p_velocity := combined_velocity;
                         p_speed := combined_speed;
                         p_impact_point := impact_point;
                         p_time_to_impact := time_to_impact;
                         p_confidence := w_linear * p_confidence l
                                         + w_kalman * p_confidence k |})
  end.

Definition predict_trajectory (self : TrajectoryPredictor) (track : TrackState)
  : option Prediction :=
  if Nat.ltb (length (s_history track)) (min_history_points self)
  then Some insufficient_data
  else
    let positions := h_position <$> s_history track in
    let timestamps := h_timestamp <$> s_history track in
    linear_pred ← _linear_prediction self positions timestamps;
    kalman_pred ← _kalman_prediction self track;
    _combine_predictions linear_pred kalman_pred.

End Predictor.

Local Close Scope float_scope.


(** ** Reference regression and snapshots for running the predictor *)

Local Open Scope float_scope.

Definition mean (l : list float) : float :=
  fold_left PrimFloat.add l 0 / float_of_nat (length l).

(** [numpy.amax] and [numpy.amin] of a non-empty array: a NaN element
    makes the result NaN. *)
Definition np_amax (l : list float) : float :=
  fold_left (fun m a => if is_nan m then m else if is_nan a then a
                        else if m <? a then a else m) (tl l) (hd nan l).

Definition np_amin (l : list float) : float :=
  fold_left (fun m a => if is_nan m then m else if is_nan a then a
                        else if a <? m then a else m) (tl l) (hd nan l).

(** Ordinary least squares in binary64, used where the model is run.  As
    scipy's routine, it raises on empty inputs and when all the [x] are
    identical. *)
Definition ols_linregress (x y : list float) : option (float * float * float) :=
  if Nat.eqb (length x) 0 || Nat.eqb (length y) 0 then None
  else if (np_amax x =? np_amin x) && Nat.ltb 1 (length x) then None
  else
    let xmean := mean x in
    let ymean := mean y in
    let ssxm := mean ((fun a => (a - xmean) * (a - xmean)) <$> x) in
    let ssym := mean ((fun b => (b - ymean) * (b - ymean)) <$> y) in
    let ssxym := mean (zip_with (fun a b => (a - xmean) * (b - ymean)) x y) in
    let r :=
      if (ssxm =? 0) || (ssym =? 0) then 0
      else
        let r := ssxym / sqrt (ssxm * ssym) in
        if 1 <? r then 1 else if r <? -1 then -1 else r in
    let slope := ssxym / ssxm in
    Some (slope, ymean - slope * xmean, r).

(** The [mock_track] of test_system.py: three history entries. *)
Definition mock_track : TrackState :=
  {| s_id := 1;
     s_bbox := int_box 125 100 175 150;
     s_center := (150, 125);
     s_velocity := (5, -2);
     s_confidence := 0.8;
     s_age := 3;
     s_hits := 4;
     s_history :=
       [ mkHistoryEntry (140, 130) (1700000000 - 0.5) (int_box 115 105 165 155);
         mkHistoryEntry (145, 128) (1700000000 - 0.3) (int_box 120 103 170 153);
         mkHistoryEntry (150, 125) 1700000000 (int_box 125 100 175 150) ];
     s_last_update := 1700000000 |}.

(** A snapshot of an object that left (100, 100) at time 0 with velocity
    (10, 5), observed at the given times. *)
Definition sampled_track (timestamps : list float) : TrackState :=
  {| s_id := 1;
     s_bbox := int_box 108 91 158 141;
     s_center := (133, 116.5);
     s_velocity := (10, 5);
     s_confidence := 0.8;
     s_age := 5;
     s_hits := 6;
     s_history :=
       (fun t => mkHistoryEntry (100 + 10 * t, 100 + 5 * t) t (int_box 108 91 158 141))
         <$> timestamps;
     s_last_update := List.last timestamps 0 |}.

Local Close Scope float_scope.


(** ** Auxiliary notions about binary64 rounding *)

(** A positive mantissa [m] at exponent [e] whose value is at least the
    smallest positive number of the format. *)
Definition above_emin (prec emax m e : Z) : Prop :=
  (0 < m /\ SpecFloat.emin prec emax < Zdigits2 m + e)%Z.

(** ** Notions used in the further properties *)

(** The counters of a track: [hits] counts the creation and the updates,
    the history holds one entry per update, at most the last 30, and a
    track is never missed for longer than it exists. *)
Definition track_bookkeeping (t : Track) : Prop :=
  (1 <= hits t /\ length (history t) = Nat.min (hits t - 1) 30 /\
   time_since_update t <= age t)%nat.

(** An inverse that never raises: the matrix itself where [inv_2x2] raises. *)
Definition inv_or_same (m : matrix) : option matrix := Some (default m (inv_2x2 m)).

(** The assignment of row [i] to column [i], as far as every row reaches. *)
Definition diagonal_assignment (cost : list (list float)) : list nat * list nat :=
  let k := fold_right (fun row k => Nat.min (length row) k) (length cost) cost in
  (seq 0 k, seq 0 k).

Local Open Scope float_scope.

(** [crossing self position velocity p t]: the straight path from
    [position] with [velocity] meets the line of a frame edge at [p] at
    time [t], moving towards that edge, within the extent of the edge; the
    four cases are the four candidates that [_calculate_impact_point]
    collects. *)
Definition crossing (self : TrajectoryPredictor) (position velocity p : float * float)
           (t : float) : Prop :=
  let '(x, y) := position in
  let '(vx, vy) := velocity in
  let w := fst (frame_bounds self) in
  let h := snd (frame_bounds self) in
  ((vx <? 0) = true /\ t = - x / vx /\ p = (0, y + vy * t) /\
   (0 <=? snd p) && (snd p <=? h) = true) \/
  ((0 <? vx) = true /\ t = (w - x) / vx /\ p = (w, y + vy * t) /\
   (0 <=? snd p) && (snd p <=? h) = true) \/
  ((vy <? 0) = true /\ t = - y / vy /\ p = (x + vx * t, 0) /\
   (0 <=? fst p) && (fst p <=? w) = true) \/
  ((0 <? vy) = true /\ t = (h - y) / vy /\ p = (x + vx * t, h) /\
   (0 <=? fst p) && (fst p <=? w) = true).

(** [if cond: intersections.append(c)] on an empty list. *)
Definition candidate (cond : bool) (c : float * float * float)
  : list (float * float * float) :=
  if cond then [c] else [].

Local Close Scope float_scope.

(** ** main.py: one frame through the tracker and the predictor *)

Section Pipeline.

Context `{fmt : BoxFormat}.
Context (linalg_inv : matrix -> option matrix).
Context (linear_sum_assignment : list (list float) -> list nat * list nat).
Context (clock : nat -> float).
Context (linregress : list float -> list float -> option (float * float * float)).

(** [for obj_id, track in tracked_objects.items():
       predictions[obj_id] = self.predictor.predict_trajectory(track)];
    [None] where a forecast raises. *)
Definition predict_all (predictor : TrajectoryPredictor)
           (tracked_objects : gmap nat TrackState) : option (gmap nat Prediction) :=
  map_fold (fun obj_id track acc =>
              predictions ← acc;
              prediction ← predict_trajectory linregress predictor track;
              Some (<[obj_id := prediction]> predictions))
           (Some ∅) tracked_objects.

(** [process_frame], from the detections that [self.detector.detect(frame)]
    returned: the tracked objects, their predictions and the tracker after
    the frame. *)
Definition process_frame (tracker : ObjectTracker) (predictor : TrajectoryPredictor)
           (detections : list Detection)
  : M (gmap nat TrackState * gmap nat Prediction * ObjectTracker) :=
  bind (update linalg_inv linear_sum_assignment clock tracker detections)
       (fun '(tracked_objects, tracker') =>
          bind (lift (predict_all predictor tracked_objects))
               (fun predictions => ret (tracked_objects, predictions, tracker'))).

End Pipeline.

(** ** terminal_ui.py: the statistics and the lock status *)

Record TerminalUI : Type := mkTerminalUI {
  ui_tracked_objects : gmap nat TrackState;
  ui_predictions : gmap nat Prediction;
  success_count : nat;
  total_predictions : nat
}.

Definition TerminalUI_init : TerminalUI :=
  {| ui_tracked_objects := ∅; ui_predictions := ∅;
     success_count := 0; total_predictions := 0 |}.

(** The loop of [update_data] on one prediction: the new
    [(success_count, total_predictions)]. *)
Definition count_prediction (pred : Prediction) (counts : nat * nat) : nat * nat :=
  match pred with
  | success f =>
      ((if (0.7 <? p_confidence f)%float then S (fst counts) else fst counts),
       S (snd counts))
  | insufficient_data => counts
  end.

Definition update_data (self : TerminalUI) (tracked_objects : gmap nat TrackState)
           (predictions : gmap nat Prediction) : TerminalUI :=
  let counts :=
    map_fold (fun _ pred counts => count_prediction pred counts)
             (success_count self, total_predictions self) predictions in
  {| ui_tracked_objects := tracked_objects;
     ui_predictions := predictions;
     success_count := fst counts;
     total_predictions := snd counts |}.

(** The terminal after any number of calls of [update_data]. *)
Inductive displayed : TerminalUI -> Prop :=
| displayed_init : displayed TerminalUI_init
| displayed_update self tracked_objects predictions :
    displayed self -> displayed (update_data self tracked_objects predictions).

Definition is_success (pred : Prediction) : bool :=
  match pred with success _ => true | insufficient_data => false end.

(** The status column of [_display_locking_terminal]. *)
Inductive LockStatus : Type := LOCKED | TRACKING | ACQUIRING.

Definition lock_status (track : TrackState) : LockStatus :=
  if (0.8 <? s_confidence track)%float && Nat.ltb 5 (s_hits track) then LOCKED
  else if (0.6 <? s_confidence track)%float then TRACKING
  else ACQUIRING.

(** A detection reported with confidence 0.9, for running the locking
    terminal. *)
Definition confident_detection : Detection :=
  {| det_bbox := int_box 100 100 150 150;
     det_confidence := 0.9%float;
     det_class_id := 0%Z;
     det_center := (125, 125)%float |}.

(** ** Shapes of the arrays of the Kalman filter *)

(** A matrix of [r] rows of [c] entries. *)
Definition has_shape (r c : nat) (A : matrix) : Prop :=
  length A = r /\ Forall (fun row => length row = c) A.

(** The shapes that [KalmanFilter.__init__] sets up. *)
Definition well_shaped (k : KalmanFilter) : Prop :=
  length (state k) = 4%nat /\ has_shape 4 4 (covariance k) /\
  has_shape 4 4 (kF k) /\ has_shape 2 4 (kH k) /\
  has_shape 4 4 (kQ k) /\ has_shape 2 2 (kR k).


(** ** Properties of [_calculate_iou] *)

(** *** Comparisons of floats *)

Lemma SFcompare_antisym x y :
  SFcompare y x = option_map CompOpp (SFcompare x y).
Proof.
  destruct x as [sx|sx| |sx mx ex], y as [sy|sy| |sy my ey];
    try destruct sx; try destruct sy; simpl; try reflexivity.
  - rewrite (Z.compare_antisym ey ex). destruct (ey ?= ex)%Z; simpl; try reflexivity.
    rewrite (Pos.compare_cont_antisym mx my Eq). simpl.
    rewrite ?CompOpp_involutive. reflexivity.
  - rewrite (Z.compare_antisym ey ex). destruct (ey ?= ex)%Z; simpl; try reflexivity.
    rewrite (Pos.compare_cont_antisym mx my Eq). simpl.
    rewrite ?CompOpp_involutive. reflexivity.
Qed.

Lemma SFcompare_None x y :
  SFcompare x y = None <-> SF_is_nan x = true \/ SF_is_nan y = true.
Proof.
  destruct x as [[]|[]| |[] mx ex], y as [[]|[]| |[] my ey]; simpl;
    split; intros H; try discriminate H; auto; destruct H; discriminate.
Qed.

Lemma SFcompare_rank x y :
  SF_is_nan x = false -> SF_is_nan y = false ->
  (SFcompare x y = Some Lt <-> rank_lt (rank x) (rank y)) /\
  (SFcompare x y = Some Gt <-> rank_lt (rank y) (rank x)).
Proof.
  intros Hx Hy. unfold rank_lt.
  destruct x as [[]|[]| |[] mx ex], y as [[]|[]| |[] my ey];
    try discriminate Hx; try discriminate Hy; cbn [SFcompare rank fst snd];
    try change (Pos.compare_cont Eq mx my) with (Pos.compare mx my);
    try (destruct (Z.compare_spec ex ey) as [E|E|E];
         [destruct (Pos.compare_spec mx my) as [E'|E'|E']|..]; cbn [CompOpp]);
    (split; (split; [intros H; try discriminate H; lia | intros H; try reflexivity; exfalso; lia])).
Qed.

Lemma SFltb_rank x y :
  SF_is_nan x = false -> SF_is_nan y = false ->
  (SFltb x y = true <-> rank_lt (rank x) (rank y)).
Proof.
  intros Hx Hy. destruct (SFcompare_rank x y Hx Hy) as [H _]. rewrite <- H.
  unfold SFltb. destruct (SFcompare x y) as [[]|]; split; congruence.
Qed.

Lemma SFleb_rank x y :
  SF_is_nan x = false -> SF_is_nan y = false ->
  (SFleb x y = true <-> ~ rank_lt (rank y) (rank x)).
Proof.
  intros Hx Hy. destruct (SFcompare_rank x y Hx Hy) as [_ H]. rewrite <- H.
  unfold SFleb. destruct (SFcompare x y) as [[]|] eqn:E; split; try congruence.
  intros _. apply SFcompare_None in E. destruct E; congruence.
Qed.

Lemma py_max_rank a b :
  SF_is_nan a = false -> SF_is_nan b = false ->
  SF_is_nan (py_max a b) = false /\
  ~ rank_lt (rank (py_max a b)) (rank a) /\ ~ rank_lt (rank (py_max a b)) (rank b).
Proof.
  intros Ha Hb. unfold py_max. destruct (SFltb a b) eqn:E.
  - apply SFltb_rank in E; [|assumption..]. unfold rank_lt in *.
    split; [exact Hb|]. lia.
  - apply not_true_iff_false in E. rewrite SFltb_rank in E by assumption.
    unfold rank_lt in *. split; [exact Ha|]. lia.
Qed.

Lemma py_min_rank a b :
  SF_is_nan a = false -> SF_is_nan b = false ->
  SF_is_nan (py_min a b) = false /\
  ~ rank_lt (rank a) (rank (py_min a b)) /\ ~ rank_lt (rank b) (rank (py_min a b)).
Proof.
  intros Ha Hb. unfold py_min. destruct (SFltb b a) eqn:E.
  - apply SFltb_rank in E; [|assumption..]. unfold rank_lt in *.
    split; [exact Hb|]. lia.
  - apply not_true_iff_false in E. rewrite SFltb_rank in E by assumption.
    unfold rank_lt in *. split; [exact Ha|]. lia.
Qed.

(** [a <= b] makes [min(a, _) <= max(_, b)], and so on. *)
Lemma py_min_le_py_max a a' b b' :
  SF_is_nan a = false -> SF_is_nan a' = false ->
  SF_is_nan b = false -> SF_is_nan b' = false ->
  SFleb a b = true \/ SFleb a b' = true \/ SFleb a' b = true \/ SFleb a' b' = true ->
  SFleb (py_min a a') (py_max b b') = true.
Proof.
  intros Ha Ha' Hb Hb' H.
  destruct (py_min_rank a a' Ha Ha') as (Hn & H1 & H2).
  destruct (py_max_rank b b' Hb Hb') as (Hx & H3 & H4).
  rewrite !SFleb_rank in H by assumption. apply SFleb_rank; [assumption..|].
  unfold rank_lt in *. lia.
Qed.

(** *** NaN propagates to the result 0.0 *)

Section IoU_facts.

Context `{fmt : BoxFormat}.

Lemma box_sub_nan x y :
  SF_is_nan x = true \/ SF_is_nan y = true -> box_sub x y = S754_nan.
Proof.
  intros [H|H]; [destruct x | destruct y]; try discriminate H;
    [reflexivity | destruct x; reflexivity].
Qed.

Lemma box_mul_nan x y :
  x = S754_nan \/ y = S754_nan -> box_mul x y = S754_nan.
Proof. intros [->| ->]; [reflexivity | destruct x; reflexivity]. Qed.

Lemma box_add_nan x y :
  x = S754_nan \/ y = S754_nan -> box_add x y = S754_nan.
Proof. intros [->| ->]; [reflexivity | destruct x; reflexivity]. Qed.

Lemma box_area_nan b : box_has_nan b = true -> box_area b = S754_nan.
Proof.
  unfold box_has_nan, box_area. rewrite !orb_true_iff. intros H.
  apply box_mul_nan. destruct H as [[[H|H]|H]|H];
    [left|right|left|right]; apply box_sub_nan; auto.
Qed.

Lemma _calculate_iou_areas a b :
  _calculate_iou a b =
  let x1_i := py_max (bx1 a) (bx1 b) in
  let y1_i := py_max (by1 a) (by1 b) in
  let x2_i := py_min (bx2 a) (bx2 b) in
  let y2_i := py_min (by2 a) (by2 b) in
  if SFleb x2_i x1_i || SFleb y2_i y1_i then S754_zero false
  else
    let intersection := box_mul (box_sub x2_i x1_i) (box_sub y2_i y1_i) in
    let union := box_sub (box_add (box_area a) (box_area b)) intersection in
    if SFltb (S754_zero false) union then box_div intersection union
    else S754_zero false.
Proof. destruct a, b. reflexivity. Qed.

Lemma iou_nan a b :
  box_has_nan a = true \/ box_has_nan b = true -> _calculate_iou a b = S754_zero false.
Proof.
  intros H. rewrite _calculate_iou_areas. cbv zeta.
  destruct (_ || _); [reflexivity|].
  assert (E : box_add (box_area a) (box_area b) = S754_nan).
  { apply box_add_nan. destruct H as [H|H]; [left|right]; apply box_area_nan, H. }
  rewrite E. reflexivity.
Qed.

Lemma box_has_nan_false b :
  box_has_nan b = false ->
  SF_is_nan (bx1 b) = false /\ SF_is_nan (by1 b) = false /\
  SF_is_nan (bx2 b) = false /\ SF_is_nan (by2 b) = false.
Proof. unfold box_has_nan. rewrite !orb_false_iff. tauto. Qed.

Lemma SFleb_not_nan x y : SFleb x y = true -> SF_is_nan x = false /\ SF_is_nan y = false.
Proof. destruct x as [[]|[]| |[] ? ?], y as [[]|[]| |[] ? ?]; simpl; auto; discriminate. Qed.

Lemma iou_non_overlapping a b :
  non_overlapping a b -> _calculate_iou a b = S754_zero false.
Proof.
  intros Hno.
  destruct (box_has_nan a) eqn:Ea; [apply iou_nan; auto|].
  destruct (box_has_nan b) eqn:Eb; [apply iou_nan; auto|].
  apply box_has_nan_false in Ea as (Ha1 & Ha2 & Ha3 & Ha4).
  apply box_has_nan_false in Eb as (Hb1 & Hb2 & Hb3 & Hb4).
  rewrite _calculate_iou_areas. cbv zeta.
  assert (G : SFleb (py_min (bx2 a) (bx2 b)) (py_max (bx1 a) (bx1 b)) = true \/
              SFleb (py_min (by2 a) (by2 b)) (py_max (by1 a) (by1 b)) = true).
  { destruct Hno as [H|[H|[H|H]]]; [left|left|right|right];
      apply py_min_le_py_max; auto. }
  destruct G as [-> | ->]; [reflexivity | rewrite orb_true_r; reflexivity].
Qed.

(** *** Symmetry *)

Lemma same_number_refl x : same_number x x.
Proof. left. reflexivity. Qed.

Lemma same_number_zeros x y :
  same_number x y -> x <> y -> exists sx sy, x = S754_zero sx /\ y = S754_zero sy.
Proof.
  intros [E|[Hx Hy]] Hne; [contradiction|].
  destruct x, y; try discriminate. eauto.
Qed.

Lemma SFcompare_Eq x y : SFcompare x y = Some Eq -> same_number x y.
Proof.
  destruct x as [[]|[]| |[] mx ex], y as [[]|[]| |[] my ey]; simpl; intros H;
    try discriminate H; try (left; reflexivity); try (right; split; reflexivity).
  - destruct (Z.compare_spec ex ey) as [->|?|?]; try discriminate H.
    injection H as H. apply (f_equal CompOpp) in H. rewrite CompOpp_involutive in H.
    apply Pos.compare_eq in H. subst. left. reflexivity.
  - destruct (Z.compare_spec ex ey) as [->|?|?]; try discriminate H.
    injection H as H. apply Pos.compare_eq in H. subst. left. reflexivity.
Qed.

Ltac zero_cases H H' y y' :=
  destruct y as [[]| | |], y' as [[]| | |]; try discriminate H; try discriminate H';
  clear H H'.

Ltac same_cases Hx Hy x x' y y' :=
  let Hx' := fresh in
  let Hy' := fresh in
  destruct Hx as [<-|[Hx Hx']]; [|zero_cases Hx Hx' x x'];
  (destruct Hy as [<-|[Hy Hy']]; [|zero_cases Hy Hy' y y']).

Lemma SFcompare_same x x' y y' :
  same_number x x' -> same_number y y' -> SFcompare x y = SFcompare x' y'.
Proof.
  intros Hx Hy. same_cases Hx Hy x x' y y'; try reflexivity;
    first [destruct x as [[]|[]| |[] ? ?]; reflexivity
          |destruct y as [[]|[]| |[] ? ?]; reflexivity].
Qed.

Ltac same_solve :=
  first [left; reflexivity | right; split; reflexivity].

Lemma box_sub_same x x' y y' :
  same_number x x' -> same_number y y' -> same_number (box_sub x y) (box_sub x' y').
Proof.
  intros Hx Hy. same_cases Hx Hy x x' y y'; try same_solve;
    first [destruct x as [[]|[]| |[] ? ?]; same_solve
          |destruct y as [[]|[]| |[] ? ?]; same_solve].
Qed.

Lemma box_mul_same x x' y y' :
  same_number x x' -> same_number y y' -> same_number (box_mul x y) (box_mul x' y').
Proof.
  intros Hx Hy. same_cases Hx Hy x x' y y'; try same_solve;
    first [destruct x as [[]|[]| |[] ? ?]; same_solve
          |destruct y as [[]|[]| |[] ? ?]; same_solve].
Qed.

Lemma box_add_comm x y : box_add x y = box_add y x.
Proof.
  destruct x as [[]|[]| |sx mx ex], y as [[]|[]| |sy my ey]; try reflexivity.
  unfold box_add, SFadd. rewrite (Z.min_comm ex ey), Z.add_comm. reflexivity.
Qed.

Lemma SFltb_zero_pos u :
  SFltb (S754_zero false) u = true ->
  u = S754_infinity false \/ exists m e, u = S754_finite false m e.
Proof. destruct u as [[]|[]| |[] m e]; try discriminate; eauto. Qed.

Lemma box_div_same x x' u :
  same_number x x' -> SFltb (S754_zero false) u = true ->
  same_number (box_div x u) (box_div x' u).
Proof.
  intros [<-|[Hx Hx']] Hu; [left; reflexivity|].
  destruct x as [[]| | |], x' as [[]| | |]; try discriminate;
    apply SFltb_zero_pos in Hu as [->|(m & e & ->)]; same_solve.
Qed.

Lemma py_max_comm a b :
  SF_is_nan a = false -> SF_is_nan b = false -> same_number (py_max a b) (py_max b a).
Proof.
  intros Ha Hb. unfold py_max, SFltb. rewrite (SFcompare_antisym a b).
  destruct (SFcompare a b) as [[]|] eqn:E; simpl; try (left; reflexivity).
  - apply SFcompare_Eq, E.
  - apply SFcompare_None in E. destruct E; congruence.
Qed.

Lemma py_min_comm a b :
  SF_is_nan a = false -> SF_is_nan b = false -> same_number (py_min a b) (py_min b a).
Proof.
  intros Ha Hb. unfold py_min, SFltb. rewrite (SFcompare_antisym a b).
  destruct (SFcompare a b) as [[]|] eqn:E; simpl; try (left; reflexivity).
  - apply SFcompare_Eq, E.
  - apply SFcompare_None in E. destruct E; congruence.
Qed.

Lemma iou_symmetric a b : same_number (_calculate_iou a b) (_calculate_iou b a).
Proof.
  destruct (box_has_nan a) eqn:Ea; [rewrite !iou_nan by auto; left; reflexivity|].
  destruct (box_has_nan b) eqn:Eb; [rewrite !iou_nan by auto; left; reflexivity|].
  apply box_has_nan_false in Ea as (Ha1 & Ha2 & Ha3 & Ha4).
  apply box_has_nan_false in Eb as (Hb1 & Hb2 & Hb3 & Hb4).
  rewrite !_calculate_iou_areas. cbv zeta.
  pose proof (py_max_comm (bx1 a) (bx1 b) Ha1 Hb1) as Hx1.
  pose proof (py_max_comm (by1 a) (by1 b) Ha2 Hb2) as Hy1.
  pose proof (py_min_comm (bx2 a) (bx2 b) Ha3 Hb3) as Hx2.
  pose proof (py_min_comm (by2 a) (by2 b) Ha4 Hb4) as Hy2.
  revert Hx1 Hy1 Hx2 Hy2.
  generalize (py_max (bx1 a) (bx1 b)) (py_max (bx1 b) (bx1 a))
             (py_max (by1 a) (by1 b)) (py_max (by1 b) (by1 a))
             (py_min (bx2 a) (bx2 b)) (py_min (bx2 b) (bx2 a))
             (py_min (by2 a) (by2 b)) (py_min (by2 b) (by2 a)).
  intros x1 x1' y1 y1' x2 x2' y2 y2' Hx1 Hy1 Hx2 Hy2.
  unfold SFleb at 1 2. rewrite (SFcompare_same x2 x2' x1 x1' Hx2 Hx1).
  rewrite (SFcompare_same y2 y2' y1 y1' Hy2 Hy1).
  fold (SFleb x2' x1'). fold (SFleb y2' y1').
  destruct (SFleb x2' x1' || SFleb y2' y1'); [left; reflexivity|].
  rewrite (box_add_comm (box_area b) (box_area a)).
  pose proof (box_mul_same _ _ _ _ (box_sub_same _ _ _ _ Hx2 Hx1)
                (box_sub_same _ _ _ _ Hy2 Hy1)) as Hi.
  revert Hi.
  generalize (box_mul (box_sub x2 x1) (box_sub y2 y1))
             (box_mul (box_sub x2' x1') (box_sub y2' y1')).
  intros i i' Hi.
  pose proof (box_sub_same _ _ _ _
                (same_number_refl (box_add (box_area a) (box_area b))) Hi) as Hu.
  revert Hu.
  generalize (box_sub (box_add (box_area a) (box_area b)) i)
             (box_sub (box_add (box_area a) (box_area b)) i').
  intros u u' Hu.
  unfold SFltb at 1. rewrite (SFcompare_same _ _ u u' (same_number_refl _) Hu).
  fold (SFltb (S754_zero false) u').
  destruct (SFltb (S754_zero false) u') eqn:Epos; [|left; reflexivity].
  assert (u = u') as ->.
  { destruct Hu as [E|[_ Hz]]; [exact E|].
    apply SFltb_zero_pos in Epos as [->|(m & e & ->)]; discriminate Hz. }
  apply box_div_same; assumption.
Qed.

End IoU_facts.

(** *** A box and itself *)

Section Exact_double.

Variables prec emax : Z.

Lemma binary_round_aux_canonical s m e :
  bounded prec emax m e = true ->
  binary_round_aux prec emax s (Zpos m) e loc_Exact = S754_finite s m e.
Proof.
  unfold bounded, canonical_mantissa. rewrite andb_true_iff, Z.eqb_eq. intros [Hc Hb].
  unfold binary_round_aux, shr_fexp. cbn [Zdigits2 shr_record_of_loc].
  rewrite Hc, Z.sub_diag. cbn [shr shr_m loc_of_shr_record round_nearest_even Zdigits2].
  rewrite Hc, Z.sub_diag. cbn [shr shr_m shr_record_of_loc]. rewrite Hb. reflexivity.
Qed.

Lemma binary_round_canonical s m e :
  bounded prec emax m e = true -> binary_round prec emax s m e = S754_finite s m e.
Proof.
  intros H. unfold binary_round.
  assert (Hc : fexp prec emax (Zpos (digits2_pos m) + e) = e).
  { unfold bounded, canonical_mantissa in H. apply andb_true_iff in H as [H _].
    apply Z.eqb_eq, H. }
  rewrite Hc. unfold shl_align. rewrite Z.sub_diag.
  apply binary_round_aux_canonical, H.
Qed.

(** Twice a number of the format, when it does not overflow, and the
    difference that gives the number back. *)
Lemma SFadd_self_SFsub m e :
  bounded prec emax m e = true ->
  let A := S754_finite false m e in
  SFadd prec emax A A = S754_infinity false \/
  (exists m' e', SFadd prec emax A A = S754_finite false m' e') /\
  SFsub prec emax (SFadd prec emax A A) A = A.
Proof.
  intros Hb A.
  assert (Hc : fexp prec emax (Zpos (digits2_pos m) + e) = e).
  { unfold bounded, canonical_mantissa in Hb. apply andb_true_iff in Hb as [H _].
    apply Z.eqb_eq, H. }
  assert (He : (e <= emax - prec)%Z).
  { unfold bounded in Hb. apply andb_true_iff in Hb as [_ H]. apply Z.leb_le, H. }
  assert (Hadd : SFadd prec emax A A = binary_round prec emax false (m~0) e).
  { unfold A, SFadd. rewrite Z.min_id. unfold shl_align. rewrite Z.sub_diag.
    cbn [fst cond_Zopp]. change (Zpos m + Zpos m)%Z with (Zpos (m + m)).
    rewrite Pos.add_diag. reflexivity. }
  rewrite Hadd. unfold binary_round.
  cbn [digits2_pos]. rewrite Pos2Z.inj_succ.
  unfold fexp in Hc.
  destruct (Z_le_gt_dec (Z.succ (Zpos (digits2_pos m)) + e - prec) e) as [Hsub|Hnorm].
  - (* a subnormal number: the sum is [2 m] at the same exponent *)
    assert (Hf : fexp prec emax (Z.succ (Zpos (digits2_pos m)) + e) = e)
      by (unfold fexp; lia).
    rewrite Hf. unfold shl_align. rewrite Z.sub_diag.
    assert (Hb2 : bounded prec emax m~0 e = true).
    { unfold bounded, canonical_mantissa. apply andb_true_iff. split.
      - apply Z.eqb_eq. cbn [digits2_pos]. rewrite Pos2Z.inj_succ. exact Hf.
      - apply Z.leb_le, He. }
    rewrite (binary_round_aux_canonical false _ _ Hb2).
    right. split; [eauto|].
    unfold A, SFsub. rewrite Z.min_id. unfold shl_align. rewrite Z.sub_diag.
    cbn [fst cond_Zopp].
    replace (Zpos m~0 - Zpos m)%Z with (Zpos m) by lia.
    cbn [binary_normalize]. apply binary_round_canonical, Hb.
  - (* a normal number: the sum is [m] at the next exponent *)
    assert (Hf : fexp prec emax (Z.succ (Zpos (digits2_pos m)) + e) = (e + 1)%Z)
      by (unfold fexp; lia).
    assert (Hf' : fexp prec emax (Zpos (digits2_pos m) + (e + 1)) = (e + 1)%Z)
      by (unfold fexp; lia).
    rewrite Hf. unfold shl_align.
    replace (e + 1 - e)%Z with 1%Z by lia.
    unfold binary_round_aux, shr_fexp. cbn [Zdigits2 digits2_pos shr_record_of_loc].
    rewrite Pos2Z.inj_succ, Hf.
    replace (e + 1 - e)%Z with 1%Z by lia.
    cbn [shr SpecFloat.iter_pos shr_1 orb shr_m loc_of_shr_record round_nearest_even
         Zdigits2].
    rewrite Hf', Z.sub_diag. cbn [shr shr_m shr_record_of_loc].
    destruct (Z.leb_spec (e + 1) (emax - prec)) as [Hle|Hgt]; [right|left; reflexivity].
    split; [eauto|].
    unfold A, SFsub. replace (Z.min (e + 1) e) with e by lia.
    unfold shl_align. rewrite Z.sub_diag.
    replace (e - (e + 1))%Z with (-1)%Z by lia.
    cbn [fst cond_Zopp Pos.iter].
    replace (Zpos m~0 - Zpos m)%Z with (Zpos m) by lia.
    cbn [binary_normalize]. apply binary_round_canonical, Hb.
Qed.

End Exact_double.

Section Quotient_one.

Variables prec emax : Z.
Hypothesis prec_pos : (0 < prec)%Z.
Hypothesis emax_3 : (3 <= emax)%Z.

(** A finite number divided by itself: the quotient of the mantissas is
    2^prec, exactly. *)
Lemma SFdiv_self s m e :
  SFdiv prec emax (S754_finite s m e) (S754_finite s m e) =
  binary_round_aux prec emax false (2 ^ prec) (- prec) loc_Exact.
Proof.
  unfold SFdiv, SFdiv_core_binary.
  replace (Zdigits2 (Zpos m) + e - (Zdigits2 (Zpos m) + e))%Z with 0%Z by lia.
  replace (Z.min (fexp prec emax 0) (e - e)) with (- prec)%Z
    by (unfold fexp, SpecFloat.emin; lia).
  replace (e - e - - prec)%Z with prec by lia.
  destruct prec as [|p|p] eqn:Ep; try lia. rewrite <- Ep.
  assert (Hq : Z.div_eucl (Z.shiftl (Zpos m) prec) (Zpos m) = (2 ^ prec, 0)%Z).
  { rewrite Z.shiftl_mul_pow2 by lia.
    pose proof (Z_div_mod_full (Zpos m * 2 ^ prec) (Zpos m)) as H.
    unfold Z.div, Z.modulo.
    rewrite (surjective_pairing (Z.div_eucl (Zpos m * 2 ^ prec) (Zpos m))).
    change (fst (Z.div_eucl (Zpos m * 2 ^ prec) (Zpos m)))
      with (Zpos m * 2 ^ prec / Zpos m)%Z.
    change (snd (Z.div_eucl (Zpos m * 2 ^ prec) (Zpos m)))
      with ((Zpos m * 2 ^ prec) mod Zpos m)%Z.
    rewrite Z.mul_comm, Z.div_mul, Z.mod_mul by lia. reflexivity. }
  rewrite Hq. rewrite xorb_nilpotent.
  unfold new_location, new_location_even, new_location_odd.
  destruct (Z.even (Zpos m)); reflexivity.
Qed.

End Quotient_one.

Lemma SFdiv_self_one `{fmt : BoxFormat} s m e :
  fmt = float64 \/ fmt = float32 ->
  box_div (S754_finite s m e) (S754_finite s m e) = SFone box_prec box_emax.
Proof.
  intros [-> | ->]; unfold box_div; cbn [box_prec box_emax float64 float32];
    rewrite SFdiv_self by lia; vm_compute; reflexivity.
Qed.

Section IoU_self.

Context `{fmt : BoxFormat}.

Lemma py_max_self a : py_max a a = a.
Proof. unfold py_max. now destruct (SFltb a a). Qed.

Lemma py_min_self a : py_min a a = a.
Proof. unfold py_min. now destruct (SFltb a a). Qed.

Lemma SFltb_not_SFleb x y : SFltb x y = true -> SFleb y x = false.
Proof.
  unfold SFltb, SFleb. rewrite (SFcompare_antisym x y).
  destruct (SFcompare x y) as [[]|]; simpl; congruence.
Qed.

(** [_calculate_iou b b] in terms of the area of [b]. *)
Lemma iou_self_area b :
  _calculate_iou b b =
  if SFleb (bx2 b) (bx1 b) || SFleb (by2 b) (by1 b) then S754_zero false
  else
    let A := box_area b in
    let union := box_sub (box_add A A) A in
    if SFltb (S754_zero false) union then box_div A union else S754_zero false.
Proof. rewrite _calculate_iou_areas, !py_max_self, !py_min_self. reflexivity. Qed.

Lemma iou_self b :
  fmt = float64 \/ fmt = float32 ->
  positive_area b ->
  SpecFloat.valid_binary box_prec box_emax (box_area b) = true ->
  SFltb (S754_zero false) (box_area b) = true ->
  SF_is_finite (box_add (box_area b) (box_area b)) = true ->
  _calculate_iou b b = SFone box_prec box_emax.
Proof.
  intros Hfmt [Hx Hy] Hvalid Hpos Hfin. rewrite iou_self_area.
  rewrite (SFltb_not_SFleb _ _ Hx), (SFltb_not_SFleb _ _ Hy). cbn [orb]. cbv zeta.
  revert Hvalid Hpos Hfin. generalize (box_area b). intros A Hvalid Hpos Hfin.
  apply SFltb_zero_pos in Hpos as [->|(m & e & ->)]; [discriminate Hfin|].
  destruct (SFadd_self_SFsub box_prec box_emax m e Hvalid) as [Hinf|[_ Hsub]].
  - unfold box_add in Hfin. rewrite Hinf in Hfin. discriminate Hfin.
  - unfold box_sub, box_add. rewrite Hsub. cbn [SFltb SFcompare].
    apply SFdiv_self_one, Hfmt.
Qed.

Lemma iou_self_zero b :
  is_zero (box_area b) = true \/
  (SFltb (S754_zero false) (box_area b) = true /\
   SF_is_finite (box_add (box_area b) (box_area b)) = false) ->
  _calculate_iou b b = S754_zero false.
Proof.
  intros H. rewrite iou_self_area. destruct (_ || _); [reflexivity|]. cbv zeta.
  revert H. generalize (box_area b). intros A [Hz|[Hpos Hinf]].
  - destruct A as [[]| | |]; try discriminate Hz; reflexivity.
  - apply SFltb_zero_pos in Hpos as [->|(m & e & ->)]; [reflexivity|].
    destruct (box_add (S754_finite false m e) (S754_finite false m e)) as [|[]| |];
      try discriminate Hinf; reflexivity.
Qed.

End IoU_self.


(** ** Properties of the tracker *)

Section Tracker_facts.

Context `{fmt : BoxFormat}.
Context (linalg_inv : matrix -> option matrix).
Context (linear_sum_assignment : list (list float) -> list nat * list nat).
Context (clock : nat -> float).

(** *** Inversion of monadic steps *)

Lemma bind_Some {A B} (m : M A) (k : A -> M B) n b n' :
  bind m k n = Some (b, n') <-> exists a n1, m n = Some (a, n1) /\ k a n1 = Some (b, n').
Proof.
  unfold bind. destruct (m n) as [[a n1]|]; split.
  - intros H. exists a, n1. auto.
  - intros (a' & n1' & [= <- <-] & H). exact H.
  - discriminate.
  - intros (? & ? & [=] & _).
Qed.

Lemma lift_Some {A} (o : option A) n a n' :
  lift o n = Some (a, n') <-> o = Some a /\ n' = n.
Proof.
  unfold lift, ret, raise. destruct o; split; intros H.
  - injection H as -> ->. auto.
  - destruct H as [[= ->] ->]. reflexivity.
  - discriminate.
  - destruct H. discriminate.
Qed.

Lemma time_time_Some n x n' : time_time clock n = Some (x, n') <-> x = clock n /\ n' = S n.
Proof. unfold time_time. split; [intros [= <- <-] | intros [-> ->]]; auto. Qed.

Ltac inv_M H :=
  repeat match type of H with
    | bind _ _ _ = Some _ =>
        let a := fresh "a" in let n := fresh "n" in let H1 := fresh "H" in
        apply bind_Some in H as (a & n & H1 & H);
        first [apply lift_Some in H1 as [H1 ->] | apply time_time_Some in H1 as [-> ->] | idtac]
    | ret _ _ = Some _ => simpl in H; injection H as H
    end.

(** *** The three operations of a track *)

Lemma Track_init_Some detection track_id n t n' :
  Track_init clock detection track_id n = Some (t, n') ->
  id t = track_id /\ hits t = 1%nat /\ hit_streak t = 1%nat /\
  time_since_update t = 0%nat /\ history t = [] /\ age t = 0%nat.
Proof.
  unfold Track_init. intros H. inv_M H. subst t. simpl. auto 10.
Qed.

Lemma Track_update_Some t detection n t' n' :
  Track_update linalg_inv clock t detection n = Some (t', n') ->
  id t' = id t /\ hits t' = (hits t + 1)%nat /\ hit_streak t' = (hit_streak t + 1)%nat /\
  time_since_update t' = 0%nat /\ age t' = age t /\
  (length (history t) <= 30 -> length (history t') <= 30)%nat.
Proof.
  unfold Track_update. intros H. inv_M H. subst t'. simpl.
  repeat split. intros Hlen.
  match goal with
  | |- context [Nat.ltb 30 ?x] => destruct (Nat.ltb_spec 30 x) as [Hlt|Hge]
  end; [|exact Hge].
  destruct (history t); simpl in *; rewrite ?length_app in *; simpl in *; lia.
Qed.

Lemma Track_predict_fst t :
  id (Track_predict t).1 = id t /\ hits (Track_predict t).1 = hits t /\
  hit_streak (Track_predict t).1 = hit_streak t /\
  time_since_update (Track_predict t).1 = (time_since_update t + 1)%nat /\
  age (Track_predict t).1 = (age t + 1)%nat /\
  history (Track_predict t).1 = history t /\ bbox (Track_predict t).1 = bbox t.
Proof.
  unfold Track_predict. destruct (KalmanFilter_predict (kalman t)). simpl. auto 10.
Qed.

(** *** The loops of [update] *)

#[local] Instance evolves_refl : Reflexive evolves.
Proof. intros t. unfold evolves. auto. Qed.

#[local] Instance evolves_trans : Transitive evolves.
Proof.
  intros t1 t2 t3 (E1 & S1 & H1 & O1) (E2 & S2 & H2 & O2).
  unfold evolves. split; [congruence | split; [lia | split; [lia | auto]]].
Qed.

Lemma Track_update_evolves t detection n t' n' :
  Track_update linalg_inv clock t detection n = Some (t', n') -> evolves t t'.
Proof.
  intros H. apply Track_update_Some in H as (Hid & Hh & Hs & _ & _ & Hlen).
  unfold evolves, track_ok. split; [exact Hid | split; [lia | split; [lia |]]].
  intros (? & ? & ?). split; [lia | split; [lia | auto]].
Qed.

Lemma Track_predict_evolves t : evolves t (Track_predict t).1.
Proof.
  destruct (Track_predict_fst t) as (Hid & Hh & Hs & _ & _ & Hhist & _).
  unfold evolves, track_ok. rewrite Hid, Hh, Hs, Hhist. auto.
Qed.

Lemma Forall2_evolves_refl l : Forall2 evolves l l.
Proof. apply Forall_Forall2_diag, Forall_forall. intros; reflexivity. Qed.

Lemma Forall2_evolves_trans l1 l2 l3 :
  Forall2 evolves l1 l2 -> Forall2 evolves l2 l3 -> Forall2 evolves l1 l3.
Proof. apply Forall2_trans. intros x y z. apply evolves_trans. Qed.

Lemma update_matched_evolves detections matched_tracks :
  forall trks n trks' n',
    update_matched linalg_inv clock trks detections matched_tracks n = Some (trks', n') ->
    Forall2 evolves trks trks'.
Proof.
  induction matched_tracks as [|[track_idx det_idx] rest IH]; simpl; intros trks n trks' n' H.
  - injection H as <- _. apply Forall2_evolves_refl.
  - inv_M H. apply IH in H.
    eapply Forall2_evolves_trans; [|exact H].
    rewrite <- (list_insert_id trks track_idx a) at 1 by assumption.
    apply Forall2_insert; [apply Forall2_evolves_refl|].
    eapply Track_update_evolves; eassumption.
Qed.

Lemma create_tracks_Some detections unmatched_detections :
  forall trks nid n trks' nid' n',
    create_tracks clock trks nid detections unmatched_detections n
      = Some ((trks', nid'), n') ->
    exists news,
      trks' = trks ++ news /\ id <$> news = seq nid (length unmatched_detections) /\
      nid' = (nid + length unmatched_detections)%nat /\ Forall fresh_track news.
Proof.
  induction unmatched_detections as [|det_idx rest IH]; simpl; intros trks nid n trks' nid' n' H.
  - injection H as <- <- _. exists []. rewrite app_nil_r. auto.
  - inv_M H. apply IH in H as (news & -> & Hids & -> & Hfresh).
    apply Track_init_Some in H1 as (Hid & Hh & Hs & Ht & Hhist & _).
    replace (nid + 1)%nat with (S nid) in * by lia.
    exists (a0 :: news). split; [now rewrite <- app_assoc|].
    split; [rewrite fmap_cons, Hid, Hids; reflexivity|].
    split; [lia|].
    constructor; [unfold fresh_track; auto | exact Hfresh].
Qed.

(** What one returning invocation of [update] does to the tracker. *)
Lemma update_Some s detections n out s' n' :
  update linalg_inv linear_sum_assignment clock s detections n = Some ((out, s'), n') ->
  exists matched_tracks unmatched_detections unmatched_tracks tracks1 news,
    _associate_detections_to_tracks linear_sum_assignment s detections
      (Track_predict <$> tracks s)
      = Some (matched_tracks, unmatched_detections, unmatched_tracks) /\
    Forall2 evolves (tracks s) tracks1 /\
    Forall fresh_track news /\
    id <$> news = seq (next_id s) (length unmatched_detections) /\
    tracks s' = filter (fun t => Nat.ltb (time_since_update t) (max_age s) = true)
                       (tracks1 ++ news) /\
    next_id s' = (next_id s + length unmatched_detections)%nat /\
    max_age s' = max_age s /\ min_hits s' = min_hits s /\
    iou_threshold s' = iou_threshold s /\
    out = confirmed (min_hits s) (tracks s').
Proof.
  unfold update. intros H.
  apply bind_Some in H as ([[matched_tracks unmatched_detections] unmatched_tracks]
                           & n0 & Hassoc & H).
  apply lift_Some in Hassoc as [Hassoc ->].
  apply bind_Some in H as (tracks1 & n1 & H1 & H).
  apply bind_Some in H as ([tracks2 next_id'] & n2 & H2 & H).
  simpl in H. injection H as <- <- _.
  apply update_matched_evolves in H1.
  apply create_tracks_Some in H2 as (news & -> & Hids & -> & Hfresh).
  exists matched_tracks, unmatched_detections, unmatched_tracks, tracks1, news.
  simpl. repeat split; auto.
  eapply Forall2_evolves_trans; [|exact H1].
  rewrite <- list_fmap_compose. apply Forall2_fmap_r.
  apply Forall_Forall2_diag, Forall_forall. intros t _. apply Track_predict_evolves.
Qed.

(** *** The invariant of reachable trackers *)

Lemma Forall2_elem_of_r {A B} (R : A -> B -> Prop) l k y :
  Forall2 R l k -> y ∈ k -> exists x, x ∈ l /\ R x y.
Proof.
  induction 1 as [|x y' l k HR _ IH]; intros Hy.
  - apply elem_of_nil in Hy as [].
  - apply elem_of_cons in Hy as [->|Hy].
    + exists x. split; [left | exact HR].
    + destruct (IH Hy) as (x' & Hx' & HR'). exists x'. split; [right; exact Hx' | exact HR'].
Qed.

Lemma Forall2_evolves_ids l k : Forall2 evolves l k -> id <$> k = id <$> l.
Proof.
  induction 1 as [|x y l k (Hid & _) _ IH]; [reflexivity|].
  rewrite !fmap_cons, Hid, IH. reflexivity.
Qed.

Lemma fresh_track_ok t : fresh_track t -> track_ok t.
Proof. intros (Hh & Hs & _ & Hhist). unfold track_ok. rewrite Hh, Hs, Hhist. simpl. lia. Qed.

(** The ids active after an invocation are old active ids and the next
    free ids, in creation order. *)
Lemma ids_after s detections out s' :
  invocation linalg_inv linear_sum_assignment clock s detections out s' ->
  exists k, next_id s' = (next_id s + k)%nat /\
            ids s' `sublist_of` ids s ++ seq (next_id s) k.
Proof.
  intros (n & n' & H).
  apply update_Some in H
    as (mt & ud & ut & tracks1 & news & _ & Hev & _ & Hids & Htr & Hnext & _).
  exists (length ud). split; [exact Hnext|].
  unfold ids. rewrite Htr.
  rewrite <- Hids, <- (Forall2_evolves_ids _ _ Hev), <- fmap_app.
  apply fmap_sublist, sublist_filter.
Qed.

Lemma invariant_init : invariant ObjectTracker_init.
Proof.
  constructor; simpl; try reflexivity; try constructor; lia.
Qed.

Lemma invariant_step s detections out s' :
  invariant s ->
  invocation linalg_inv linear_sum_assignment clock s detections out s' ->
  invariant s'.
Proof.
  intros I Hinv. destruct (ids_after _ _ _ _ Hinv) as (k & Hnext & Hsub).
  destruct Hinv as (n & n' & H).
  apply update_Some in H
    as (mt & ud & ut & tracks1 & news & _ & Hev & Hfresh & Hids & Htr & Hnext' & Hage & Hmin & Hthr & _).
  assert (Hk : k = length ud) by lia. subst k.
  assert (Hold : forall i, i ∈ ids s -> (1 <= i < next_id s)%nat).
  { intros i Hi. apply list_elem_of_fmap in Hi as (t & -> & Ht).
    exact (proj1 (Forall_forall _ _) (inv_below s I) t Ht). }
  assert (Helem : forall t, t ∈ tracks s' ->
            (time_since_update t < max_age s)%nat /\
            ((exists t0, t0 ∈ tracks s /\ evolves t0 t) \/ (t ∈ news /\ fresh_track t))).
  { intros t Ht. rewrite Htr in Ht. apply list_elem_of_filter in Ht as [Hlt Ht].
    split; [now apply Nat.ltb_lt|].
    apply elem_of_app in Ht as [Ht|Ht].
    - left. eapply Forall2_elem_of_r; eassumption.
    - right. split; [exact Ht|]. exact (proj1 (Forall_forall _ _) Hfresh t Ht). }
  constructor.
  - eapply sublist_NoDup; [|exact Hsub].
    apply NoDup_app. split; [apply (inv_nodup s I)|]. split; [|apply NoDup_seq].
    intros i Hi Hseq. apply Hold in Hi. apply elem_of_seq in Hseq. lia.
  - apply Forall_forall. intros t Ht. destruct (Helem t Ht) as [_ [(t0 & Ht0 & Hid & _)|[Hn _]]].
    + rewrite Hid.
      assert (Hin : id t0 ∈ ids s) by (apply list_elem_of_fmap; eauto).
      apply Hold in Hin. lia.
    + assert (Hi : id t ∈ seq (next_id s) (length ud)).
      { rewrite <- Hids. apply list_elem_of_fmap. eauto. }
      apply elem_of_seq in Hi. pose proof (inv_next s I). lia.
  - apply Forall_forall. intros t Ht.
    destruct (Helem t Ht) as [_ [(t0 & Ht0 & _ & _ & _ & Hok)|[_ Hf]]].
    + apply Hok. exact (proj1 (Forall_forall _ _) (inv_ok s I) t0 Ht0).
    + apply fresh_track_ok, Hf.
  - apply Forall_forall. intros t Ht. destruct (Helem t Ht) as [Hlt _].
    rewrite (inv_max_age s I) in Hlt. exact Hlt.
  - pose proof (inv_next s I). lia.
  - rewrite Hage. apply (inv_max_age s I).
  - rewrite Hmin. apply (inv_min_hits s I).
  - rewrite Hthr. apply (inv_threshold s I).
Qed.

Lemma invariant_later s s' :
  later linalg_inv linear_sum_assignment clock s s' -> invariant s -> invariant s'.
Proof.
  induction 1 as [|s s1 s' detections out Hstep _ IH]; [auto|].
  intros I. apply IH. eapply invariant_step; eassumption.
Qed.

Lemma invariant_reachable s :
  reachable linalg_inv linear_sum_assignment clock s -> invariant s.
Proof. intros H. eapply invariant_later; [exact H | apply invariant_init]. Qed.

Lemma later_trans s1 s2 s3 :
  later linalg_inv linear_sum_assignment clock s1 s2 ->
  later linalg_inv linear_sum_assignment clock s2 s3 ->
  later linalg_inv linear_sum_assignment clock s1 s3.
Proof.
  induction 1 as [|s s1 s' detections out Hstep _ IH]; [auto|].
  intros H. eapply later_step; [exact Hstep | auto].
Qed.

(** An id below [next_id] that is not active is never active again. *)
Lemma gone_step s detections out s' i :
  invariant s ->
  invocation linalg_inv linear_sum_assignment clock s detections out s' ->
  (i < next_id s)%nat -> i ∉ ids s -> (i < next_id s')%nat /\ i ∉ ids s'.
Proof.
  intros I Hstep Hlt Hnot. destruct (ids_after _ _ _ _ Hstep) as (k & Hnext & Hsub).
  split; [lia|]. intros Hin.
  eapply elem_of_sublist in Hin; [|exact Hsub].
  apply elem_of_app in Hin as [Hin|Hin]; [auto|].
  apply elem_of_seq in Hin. lia.
Qed.

Lemma gone_later s s' i :
  later linalg_inv linear_sum_assignment clock s s' ->
  invariant s -> (i < next_id s)%nat -> i ∉ ids s -> i ∉ ids s'.
Proof.
  induction 1 as [|s s1 s' detections out Hstep _ IH]; [auto|].
  intros I Hlt Hnot.
  destruct (gone_step _ _ _ _ i I Hstep Hlt Hnot) as [Hlt' Hnot'].
  apply IH; [eapply invariant_step; eassumption | exact Hlt' | exact Hnot'].
Qed.

(** Where the tracks of the new active set come from. *)
Lemma track_after s detections out s' t' :
  invariant s ->
  invocation linalg_inv linear_sum_assignment clock s detections out s' ->
  t' ∈ tracks s' ->
  (exists t, t ∈ tracks s /\ evolves t t') \/
  (fresh_track t' /\ (next_id s <= id t')%nat).
Proof.
  intros I (n & n' & H) Ht.
  apply update_Some in H
    as (mt & ud & ut & tracks1 & news & _ & Hev & Hfresh & Hids & Htr & _).
  rewrite Htr in Ht. apply list_elem_of_filter in Ht as [_ Ht].
  apply elem_of_app in Ht as [Ht|Ht].
  - left. eapply Forall2_elem_of_r; eassumption.
  - right. split; [exact (proj1 (Forall_forall _ _) Hfresh t' Ht)|].
    assert (Hi : id t' ∈ seq (next_id s) (length ud)).
    { rewrite <- Hids. apply list_elem_of_fmap. eauto. }
    apply elem_of_seq in Hi. lia.
Qed.

Lemma NoDup_fmap_eq {A B} (f : A -> B) l x y :
  NoDup (f <$> l) -> x ∈ l -> y ∈ l -> f x = f y -> x = y.
Proof.
  induction l as [|a l IH]; intros Hnd Hx Hy Hf.
  - apply elem_of_nil in Hx as [].
  - rewrite fmap_cons in Hnd. apply NoDup_cons in Hnd as [Ha Hnd].
    apply elem_of_cons in Hx as [->|Hx]; apply elem_of_cons in Hy as [->|Hy]; auto.
    + exfalso. apply Ha. rewrite Hf. apply list_elem_of_fmap. eauto.
    + exfalso. apply Ha. rewrite <- Hf. apply list_elem_of_fmap. eauto.
Qed.

(** *** The returned dictionary *)

Lemma confirmed_lookup mh trks i st :
  NoDup (id <$> trks) ->
  confirmed mh trks !! i = Some st <->
  exists t, t ∈ trks /\ id t = i /\ (mh <= hits t)%nat /\ st = get_state t.
Proof.
  revert i st. induction trks as [|x l IH] using rev_ind; intros i st Hnd.
  - unfold confirmed. simpl. rewrite lookup_empty. split; [discriminate|].
    intros (t & Ht & _). apply elem_of_nil in Ht as [].
  - rewrite fmap_app in Hnd. apply NoDup_app in Hnd as (Hl & Hx & _).
    assert (Hfresh : forall t, t ∈ l -> id t <> id x).
    { intros t Ht E. apply (Hx (id t)); [apply list_elem_of_fmap; eauto|].
      rewrite E. simpl. left. }
    unfold confirmed. rewrite foldl_snoc. fold (confirmed mh l).
    destruct (Nat.leb_spec mh (hits x)) as [Hle|Hlt].
    + destruct (decide (id x = i)) as [<-|Hne].
      * rewrite lookup_insert_eq. split.
        -- intros [= <-]. exists x. split; [apply elem_of_app; right; left | auto].
        -- intros (t & Ht & Hid & _ & ->). apply elem_of_app in Ht as [Ht|Ht].
           ++ exfalso. eapply Hfresh; eassumption.
           ++ apply list_elem_of_singleton in Ht as ->. reflexivity.
      * rewrite lookup_insert_ne by exact Hne. rewrite (IH i st Hl). split.
        -- intros (t & Ht & Hrest). exists t. split; [apply elem_of_app; left; exact Ht | exact Hrest].
        -- intros (t & Ht & Hid & Hrest). apply elem_of_app in Ht as [Ht|Ht].
           ++ exists t. auto.
           ++ apply list_elem_of_singleton in Ht as ->. contradiction.
    + rewrite (IH i st Hl). split.
      * intros (t & Ht & Hrest). exists t. split; [apply elem_of_app; left; exact Ht | exact Hrest].
      * intros (t & Ht & Hid & Hhits & Hst). apply elem_of_app in Ht as [Ht|Ht].
        -- exists t. auto.
        -- apply list_elem_of_singleton in Ht as ->. lia.
Qed.

Lemma invocation_out s detections out s' :
  invocation linalg_inv linear_sum_assignment clock s detections out s' ->
  out = confirmed (min_hits s) (tracks s').
Proof.
  intros (n & n' & H). apply update_Some in H as (? & ? & ? & ? & ? & H).
  apply H.
Qed.

Lemma run_later frames :
  forall s n s' n',
    run linalg_inv linear_sum_assignment clock s n frames = Some (s', n') ->
    later linalg_inv linear_sum_assignment clock s s'.
Proof.
  induction frames as [|detections rest IH]; simpl; intros s n s' n' H.
  - injection H as <- _. constructor.
  - destruct (update _ _ _ s detections n) as [[[out s1] n1]|] eqn:E; [|discriminate].
    eapply later_step; [exists n, n1; exact E | eapply IH; exact H].
Qed.

(** *** The claims about the tracker *)

(** C2.  Every invocation of [ObjectTracker.update] on a reachable tracker
    returns exactly the tracks of the new active set with [hits >= 3],
    keyed by their id and carrying their [get_state] snapshot, whatever
    their [time_since_update]; a track with [hits < 3] is not in the
    returned dictionary. *)
Theorem update_returns_confirmed_tracks s detections out s' :
  reachable linalg_inv linear_sum_assignment clock s ->
  invocation linalg_inv linear_sum_assignment clock s detections out s' ->
  (forall i st,
      out !! i = Some st <->
      exists t, t ∈ tracks s' /\ id t = i /\ (3 <= hits t)%nat /\ st = get_state t) /\
  (forall t, t ∈ tracks s' -> (3 <= hits t)%nat -> out !! id t = Some (get_state t)) /\
  (forall t, t ∈ tracks s' -> (hits t < 3)%nat -> out !! id t = None).
Proof.
  intros Hreach Hstep.
  pose proof (invariant_reachable _ Hreach) as I.
  pose proof (invariant_step _ _ _ _ I Hstep) as I'.
  pose proof (invocation_out _ _ _ _ Hstep) as ->.
  rewrite (inv_min_hits s I).
  assert (Hiff : forall i st,
      confirmed 3 (tracks s') !! i = Some st <->
      exists t, t ∈ tracks s' /\ id t = i /\ (3 <= hits t)%nat /\ st = get_state t).
  { intros i st. apply confirmed_lookup, (inv_nodup s' I'). }
  split; [exact Hiff|]. split.
  - intros t Ht Hhits. apply Hiff. exists t. auto.
  - intros t Ht Hhits.
    destruct (confirmed 3 (tracks s') !! id t) as [st|] eqn:E; [|reflexivity].
    apply Hiff in E as (t' & Ht' & Hid & Hhits' & _).
    assert (t' = t).
    { eapply NoDup_fmap_eq; [apply (inv_nodup s' I')|exact Ht'|exact Ht|exact Hid]. }
    subst t'. lia.
Qed.

(** C3.  After an invocation of [update] on a reachable tracker no track
    with [time_since_update >= 30] is left in the active set; an id that
    this invocation removed from the active set is not in the returned
    dictionary, and no later invocation has it in the active set or
    returns it; the tracks that this invocation created have ids at least
    [next_id], strictly above every id of the former active set. *)
Theorem removal_is_monotonic s detections out s' :
  reachable linalg_inv linear_sum_assignment clock s ->
  invocation linalg_inv linear_sum_assignment clock s detections out s' ->
  (forall t, t ∈ tracks s' -> (time_since_update t < 30)%nat) /\
  (forall i, i ∈ ids s -> i ∉ ids s' ->
     out !! i = None /\
     (forall s2 detections2 out2 s3,
         later linalg_inv linear_sum_assignment clock s' s2 ->
         invocation linalg_inv linear_sum_assignment clock s2 detections2 out2 s3 ->
         (i ∉ ids s3) /\ out2 !! i = None)) /\
  (forall t, t ∈ tracks s' -> id t ∉ ids s ->
     (next_id s <= id t)%nat /\ (forall u, u ∈ tracks s -> (id u < id t)%nat)).
Proof.
  intros Hreach Hstep.
  pose proof (invariant_reachable _ Hreach) as I.
  pose proof (invariant_step _ _ _ _ I Hstep) as I'.
  assert (Hkeys : forall r o r' ds i,
             invariant r ->
             invocation linalg_inv linear_sum_assignment clock r ds o r' ->
             i ∉ ids r' -> o !! i = None).
  { intros r o r' ds i Ir Hr Hnot.
    pose proof (invariant_step _ _ _ _ Ir Hr) as Ir'.
    pose proof (invocation_out _ _ _ _ Hr) as ->.
    destruct (confirmed (min_hits r) (tracks r') !! i) as [st|] eqn:E; [|reflexivity].
    apply (confirmed_lookup _ _ _ _ (inv_nodup r' Ir')) in E as (t & Ht & <- & _).
    exfalso. apply Hnot. apply list_elem_of_fmap. eauto. }
  split; [|split].
  - intros t Ht. exact (proj1 (Forall_forall _ _) (inv_young s' I') t Ht).
  - intros i Hin Hout. split; [exact (Hkeys _ _ _ _ _ I Hstep Hout)|].
    intros s2 detections2 out2 s3 Hlater Hstep2.
    assert (Hlt : (i < next_id s)%nat).
    { apply list_elem_of_fmap in Hin as (t & -> & Ht).
      apply (proj1 (Forall_forall _ _) (inv_below s I) t Ht). }
    assert (Hlt' : (i < next_id s')%nat).
    { destruct (ids_after _ _ _ _ Hstep) as (k & -> & _). lia. }
    assert (Hgone : i ∉ ids s3).
    { eapply gone_later; [|exact I'|exact Hlt'|exact Hout].
      eapply later_trans; [exact Hlater|].
      eapply later_step; [exact Hstep2|constructor]. }
    split; [exact Hgone|].
    refine (Hkeys _ _ _ _ _ _ Hstep2 Hgone).
    eapply invariant_later; eassumption.
  - intros t Ht Hnew.
    destruct (track_after _ _ _ _ _ I Hstep Ht) as [(t0 & Ht0 & Hid & _)|[_ Hge]].
    + exfalso. apply Hnew. rewrite Hid. apply list_elem_of_fmap. eauto.
    + split; [exact Hge|]. intros u Hu.
      pose proof (proj1 (Forall_forall _ _) (inv_below s I) u Hu) as Hu'.
      simpl in Hu'. lia.
Qed.

(** C4.  [hit_streak] is 1 after [Track.__init__], one more after every
    [Track.update], unchanged by [Track.predict]; an invocation of
    [ObjectTracker.update] never lowers it for a track that stays active;
    and for every track of a reachable tracker [hit_streak = hits]. *)
Theorem hit_streak_equals_hits :
  (forall detection track_id n t n',
      Track_init clock detection track_id n = Some (t, n') ->
      hit_streak t = 1%nat /\ hits t = 1%nat) /\
  (forall t detection n t' n',
      Track_update linalg_inv clock t detection n = Some (t', n') ->
      hit_streak t' = (hit_streak t + 1)%nat) /\
  (forall t, hit_streak (Track_predict t).1 = hit_streak t) /\
  (forall s detections out s' t t',
      reachable linalg_inv linear_sum_assignment clock s ->
      invocation linalg_inv linear_sum_assignment clock s detections out s' ->
      t ∈ tracks s -> t' ∈ tracks s' -> id t' = id t ->
      (hit_streak t <= hit_streak t')%nat) /\
  (forall s t,
      reachable linalg_inv linear_sum_assignment clock s ->
      t ∈ tracks s -> hit_streak t = hits t).
Proof.
  split; [|split; [|split; [|split]]].
  - intros detection track_id n t n' H.
    apply Track_init_Some in H as (_ & Hh & Hs & _). auto.
  - intros t detection n t' n' H.
    apply Track_update_Some in H as (_ & _ & Hs & _). exact Hs.
  - intros t. apply (Track_predict_fst t).
  - intros s detections out s' t t' Hreach Hstep Ht Ht' Hid.
    pose proof (invariant_reachable _ Hreach) as I.
    destruct (track_after _ _ _ _ _ I Hstep Ht') as [(t0 & Ht0 & Hid0 & Hs & _)|[_ Hge]].
    + assert (t0 = t).
      { eapply NoDup_fmap_eq; [apply (inv_nodup s I)|exact Ht0|exact Ht|congruence]. }
      subst t0. exact Hs.
    + pose proof (proj1 (Forall_forall _ _) (inv_below s I) t Ht) as Hb.
      simpl in Hb. lia.
  - intros s t Hreach Ht.
    pose proof (invariant_reachable _ Hreach) as I.
    apply (proj1 (Forall_forall _ _) (inv_ok s I) t Ht).
Qed.

(** *** Association *)

Lemma keep_matches_kept threshold iou_matrix pairs :
  forall kept,
    keep_matches threshold iou_matrix pairs = Some kept ->
    forall t d, (t, d) ∈ kept ->
      (t, d) ∈ pairs /\
      exists iou, matrix_get iou_matrix t d = Some iou /\ (threshold <? iou)%float = true.
Proof.
  induction pairs as [|[t0 d0] rest IH]; simpl; intros kept H t d Hin.
  - injection H as <-. apply elem_of_nil in Hin as [].
  - destruct (matrix_get iou_matrix t0 d0) as [iou|] eqn:Eget; [|discriminate].
    simpl in H.
    destruct (keep_matches threshold iou_matrix rest) as [kept'|]; [|discriminate].
    simpl in H. injection H as <-.
    destruct (threshold <? iou)%float eqn:Elt.
    + apply elem_of_cons in Hin as [[= -> ->]|Hin].
      * split; [left|]. exists iou. split; [exact Eget | exact Elt].
      * destruct (IH _ eq_refl t d Hin) as [Hp Hi]. split; [right; exact Hp | exact Hi].
    + destruct (IH _ eq_refl t d Hin) as [Hp Hi]. split; [right; exact Hp | exact Hi].
Qed.

(** X9.  Every pair that the association keeps is a pair of an existing
    track and an existing detection whose IoU, computed in the format of
    the boxes and stored in the float64 matrix, exceeds the threshold in
    the binary64 comparison. *)
Lemma matched_pairs_above_threshold s detections predicted_tracks mt ud ut :
  _associate_detections_to_tracks linear_sum_assignment s detections predicted_tracks
    = Some (mt, ud, ut) ->
  forall t d, (t, d) ∈ mt ->
    exists track pred_pos detection,
      predicted_tracks !! t = Some (track, pred_pos) /\
      detections !! d = Some detection /\
      (iou_threshold s
         <? to_float64 (_calculate_iou (bbox track) (det_bbox detection)))%float = true.
Proof.
  unfold _associate_detections_to_tracks. intros H t d Hin.
  destruct (Nat.eqb (length predicted_tracks) 0);
    [injection H as <- _ _; apply elem_of_nil in Hin as []|].
  destruct (Nat.eqb (length detections) 0);
    [injection H as <- _ _; apply elem_of_nil in Hin as []|].
  cbv zeta in H.
  destruct (Nat.ltb 0 _);
    [|injection H as <- _ _; apply elem_of_nil in Hin as []].
  match type of H with
  | context [keep_matches ?th ?m ?p] => destruct (keep_matches th m p) as [kept|] eqn:E
  end; [|discriminate].
  simpl in H. injection H as <- _ _.
  destruct (keep_matches_kept _ _ _ _ E t d Hin) as [_ (iou & Hget & Hlt)].
  unfold matrix_get in Hget. rewrite list_lookup_fmap in Hget.
  destruct (predicted_tracks !! t) as [[track pred_pos]|]; [|discriminate].
  simpl in Hget. rewrite list_lookup_fmap in Hget.
  destruct (detections !! d) as [detection|]; [|discriminate].
  simpl in Hget. injection Hget as <-.
  exists track, pred_pos, detection. auto.
Qed.

(** *** [update] returns *)

Lemma keep_matches_total threshold iou_matrix pairs :
  Forall (fun p => (p.1 < length iou_matrix)%nat /\
                   forall row, row ∈ iou_matrix -> (p.2 < length row)%nat) pairs ->
  exists kept, keep_matches threshold iou_matrix pairs = Some kept.
Proof.
  induction 1 as [|[t d] rest [Ht Hd] _ [kept IH]]; simpl.
  - eauto.
  - unfold matrix_get.
    destruct (lookup_lt_is_Some_2 iou_matrix t Ht) as [row Hrow]. rewrite Hrow. simpl.
    assert (Hin : row ∈ iou_matrix) by (eapply list_elem_of_lookup_2; exact Hrow).
    destruct (lookup_lt_is_Some_2 row d (Hd row Hin)) as [iou Hiou]. rewrite Hiou. simpl.
    rewrite IH. simpl. eauto.
Qed.

Lemma update_matched_total detections matched_tracks :
  (forall m, is_Some (linalg_inv m)) ->
  forall trks n,
    Forall (fun p => (p.1 < length trks)%nat /\ (p.2 < length detections)%nat)
           matched_tracks ->
    exists trks' n', update_matched linalg_inv clock trks detections matched_tracks n
                     = Some (trks', n').
Proof.
  intros Hinv. induction matched_tracks as [|[t d] rest IH]; intros trks n Hall; simpl.
  - eauto.
  - apply Forall_cons in Hall as [[Ht Hd] Hall]. simpl in Ht, Hd.
    destruct (lookup_lt_is_Some_2 trks t Ht) as [track Htrack].
    destruct (lookup_lt_is_Some_2 detections d Hd) as [detection Hdet].
    unfold bind at 1. rewrite Htrack. simpl.
    unfold bind at 1. rewrite Hdet. simpl.
    unfold bind at 1. unfold Track_update.
    unfold bind at 1. unfold KalmanFilter_update.
    destruct (Hinv (mat_add (mat_mul (mat_mul (kH (kalman track)) (covariance (kalman track)))
                                     (transpose (kH (kalman track)))) (kR (kalman track))))
      as [Sinv ->].
    simpl. apply IH. rewrite length_insert. exact Hall.
Qed.

Lemma create_tracks_total detections unmatched_detections :
  Forall (fun d => (d < length detections)%nat) unmatched_detections ->
  forall trks nid n,
    exists r n', create_tracks clock trks nid detections unmatched_detections n = Some (r, n').
Proof.
  induction 1 as [|d rest Hd _ IH]; intros trks nid n; simpl.
  - eauto.
  - destruct (lookup_lt_is_Some_2 detections d Hd) as [detection Hdet].
    unfold bind at 1. rewrite Hdet. simpl. apply IH.
Qed.

Lemma associate_total s detections predicted_tracks :
  solver_in_range linear_sum_assignment ->
  exists mt ud ut,
    _associate_detections_to_tracks linear_sum_assignment s detections predicted_tracks
      = Some (mt, ud, ut) /\
    Forall (fun p => (p.1 < length predicted_tracks)%nat /\ (p.2 < length detections)%nat) mt /\
    Forall (fun d => (d < length detections)%nat) ud.
Proof.
  intros Hlsa. unfold _associate_detections_to_tracks.
  assert (Hseq : forall k, Forall (fun d => (d < k)%nat) (seq 0 k)).
  { intros k. apply Forall_forall. intros d Hd. apply elem_of_seq in Hd. lia. }
  destruct (Nat.eqb_spec (length predicted_tracks) 0) as [|Hne];
    [eexists _, _, _; split; eauto|].
  destruct (Nat.eqb (length detections) 0);
    [eexists _, _, _; split; [reflexivity|split; constructor]|].
  cbv zeta.
  destruct (Nat.ltb 0 _); [|eexists _, _, _; split; eauto].
  set (iou_matrix :=
         (fun '(track, pred_pos) =>
            (fun detection => to_float64 (_calculate_iou (bbox track) (det_bbox detection)))
              <$> detections)
           <$> predicted_tracks).
  set (cost := map (map PrimFloat.opp) iou_matrix).
  destruct (Hlsa cost) as [Hrows Hcols].
  assert (Hlen : length cost = length predicted_tracks).
  { unfold cost, iou_matrix. rewrite length_map, length_fmap. reflexivity. }
  assert (Hrow : forall row, row ∈ iou_matrix -> length row = length detections).
  { intros row Hin. unfold iou_matrix in Hin.
    apply list_elem_of_fmap in Hin as ([track pos] & -> & _). apply length_fmap. }
  assert (Hcost : forall d, (forall row, row ∈ cost -> (d < length row)%nat) ->
                            (d < length detections)%nat).
  { intros d Hd. clear Hrows Hcols Hlen Hrow.
    destruct predicted_tracks as [|[track pos] rest]; [contradiction|].
    unfold cost, iou_matrix in Hd. simpl in Hd.
    specialize (Hd _ (list_elem_of_here _ _)). rewrite length_map, length_fmap in Hd. exact Hd. }
  assert (Hpairs :
    Forall (fun p => (p.1 < length predicted_tracks)%nat /\ (p.2 < length detections)%nat)
           (combine (linear_sum_assignment cost).1 (linear_sum_assignment cost).2)).
  { rewrite Hlen in Hrows. revert Hrows Hcols.
    generalize (linear_sum_assignment cost).1 (linear_sum_assignment cost).2.
    intros rows. induction rows as [|t rows IH]; intros cols Hr Hc; simpl; [constructor|].
    destruct cols as [|d cols]; [constructor|].
    apply Forall_cons in Hr as [Ht Hr]. apply Forall_cons in Hc as [Hd Hc].
    constructor; [split; [exact Ht | apply Hcost, Hd] | apply IH; assumption]. }
  destruct (keep_matches_total (iou_threshold s) iou_matrix
              (combine (linear_sum_assignment cost).1 (linear_sum_assignment cost).2))
    as [kept Hkept].
  { eapply Forall_impl; [exact Hpairs|]. intros [t d] [Ht Hd]. simpl in *. split.
    - unfold iou_matrix. rewrite length_fmap. exact Ht.
    - intros row Hin. rewrite (Hrow row Hin). exact Hd. }
  rewrite Hkept. simpl. eexists _, _, _. split; [reflexivity|]. split.
  - apply Forall_forall. intros [t d] Hin.
    destruct (keep_matches_kept _ _ _ _ Hkept t d Hin) as [Hp _].
    exact (proj1 (Forall_forall _ _) Hpairs (t, d) Hp).
  - apply Forall_forall. intros d Hd. apply list_elem_of_filter in Hd as [_ Hd].
    apply elem_of_seq in Hd. lia.
Qed.

(** X11.  With an inverse that never fails and a solver that answers within
    the matrix, every invocation of [update] returns, on every tracker and
    for every list of detections. *)
Lemma update_returns s detections n :
  (forall m, is_Some (linalg_inv m)) ->
  solver_in_range linear_sum_assignment ->
  exists out s' n',
    update linalg_inv linear_sum_assignment clock s detections n = Some ((out, s'), n').
Proof.
  intros Hinv Hlsa. unfold update.
  destruct (associate_total s detections (Track_predict <$> tracks s) Hlsa)
    as (mt & ud & ut & -> & Hmt & Hud).
  unfold bind at 1. simpl.
  destruct (update_matched_total detections mt Hinv
              (fst <$> (Track_predict <$> tracks s)) n) as (tracks1 & n1 & E1).
  { rewrite !length_fmap in *. exact Hmt. }
  unfold bind at 1. rewrite E1.
  destruct (create_tracks_total detections ud Hud tracks1 (next_id s) n1)
    as ([tracks2 nid] & n2 & E2).
  unfold bind at 1. rewrite E2. simpl. eauto.
Qed.

(** C1 (the second half fails).  One track, one detection, and an
    assigned pair whose IoU (computed in the format of the boxes, stored
    as float64) does not exceed the threshold: the pair is discarded, yet
    the detection is not listed as unmatched, the track is not listed as
    unmatched, and [update] creates no track for the detection; the active
    set is the old track, predicted and not updated. *)
Theorem discarded_pair_detection_is_dropped s t detection n :
  tracks s = [t] ->
  linear_sum_assignment
    [[(- to_float64 (_calculate_iou (bbox t) (det_bbox detection)))%float]]
    = ([0%nat], [0%nat]) ->
  (iou_threshold s
     <? to_float64 (_calculate_iou (bbox t) (det_bbox detection)))%float = false ->
  _associate_detections_to_tracks linear_sum_assignment s [detection]
    (Track_predict <$> tracks s) = Some ([], [], []) /\
  exists out s',
    update linalg_inv linear_sum_assignment clock s [detection] n = Some ((out, s'), n) /\
    tracks s' = filter (fun t' => Nat.ltb (time_since_update t') (max_age s) = true)
                       [(Track_predict t).1] /\
    next_id s' = next_id s.
Proof.
  intros Htracks Hlsa Hiou.
  assert (Hassoc :
    _associate_detections_to_tracks linear_sum_assignment s [detection]
      (Track_predict <$> tracks s) = Some ([], [], [])).
  { rewrite Htracks. unfold _associate_detections_to_tracks.
    cbn [fmap list_fmap length Nat.eqb Nat.min Nat.ltb Nat.leb map]. cbv zeta.
    pose proof (Track_predict_fst t) as (_ & _ & _ & _ & _ & _ & Hbbox).
    destruct (Track_predict t) as [t1 pos]. simpl in Hbbox. rewrite Hbbox.
    cbn [map]. rewrite Hlsa.
    cbn [fst snd combine keep_matches matrix_get lookup list_lookup mbind option_bind].
    rewrite Hiou. reflexivity. }
  split; [exact Hassoc|].
  unfold update. rewrite Hassoc. rewrite Htracks.
  cbn [fmap list_fmap]. unfold bind, lift, ret. simpl.
  eexists _, _. split; [reflexivity|]. simpl. auto.
Qed.

End Tracker_facts.

(** ** The tracker run on concrete frames *)

Lemma after_frames_reachable frames :
  run inv_2x2 exhaustive_assignment ticking_clock ObjectTracker_init 0 frames
    = Some (after_frames frames) ->
  reachable inv_2x2 exhaustive_assignment ticking_clock (after_frames frames).1.
Proof.
  intros H. destruct (after_frames frames) as [s n]. eapply run_later. exact H.
Defined.

Lemma update_returns_confirmed_tracks_witness :
  let s := (after_frames [two_objects; two_objects]).1 in
  let out := output_after [two_objects; two_objects] two_objects in
  let s' := (after_frames [two_objects; two_objects; two_objects]).1 in
  reachable inv_2x2 exhaustive_assignment ticking_clock s /\
  invocation inv_2x2 exhaustive_assignment ticking_clock s two_objects out s' /\
  ((forall i st,
       out !! i = Some st <->
       exists t, t ∈ tracks s' /\ id t = i /\ (3 <= hits t)%nat /\ st = get_state t) /\
   (forall t, t ∈ tracks s' -> (3 <= hits t)%nat -> out !! id t = Some (get_state t)) /\
   (forall t, t ∈ tracks s' -> (hits t < 3)%nat -> out !! id t = None)).
Proof.
  intros s out s'.
  assert (Hreach : reachable inv_2x2 exhaustive_assignment ticking_clock s).
  { apply after_frames_reachable. vm_compute. reflexivity. }
  assert (Hstep : invocation inv_2x2 exhaustive_assignment ticking_clock s two_objects out s').
  { exists (after_frames [two_objects; two_objects]).2,
           (after_frames [two_objects; two_objects; two_objects]).2.
    vm_compute. reflexivity. }
  split; [exact Hreach|]. split; [exact Hstep|].
  exact (update_returns_confirmed_tracks _ _ _ s two_objects out s' Hreach Hstep).
Defined.

Lemma removal_is_monotonic_witness :
  let frames := seen_once_then_lost 29 in
  let s := (after_frames frames).1 in
  let out := output_after frames far_objects in
  let s' := (after_frames (frames ++ [far_objects])).1 in
  reachable inv_2x2 exhaustive_assignment ticking_clock s /\
  invocation inv_2x2 exhaustive_assignment ticking_clock s far_objects out s' /\
  ids s = [1%nat] /\ ids s' = [2%nat] /\
  ((forall t, t ∈ tracks s' -> (time_since_update t < 30)%nat) /\
   (forall i, i ∈ ids s -> i ∉ ids s' ->
      out !! i = None /\
      (forall s2 detections2 out2 s3,
          later inv_2x2 exhaustive_assignment ticking_clock s' s2 ->
          invocation inv_2x2 exhaustive_assignment ticking_clock s2 detections2 out2 s3 ->
          (i ∉ ids s3) /\ out2 !! i = None)) /\
   (forall t, t ∈ tracks s' -> id t ∉ ids s ->
      (next_id s <= id t)%nat /\ (forall u, u ∈ tracks s -> (id u < id t)%nat))).
Proof.
  intros frames s out s'.
  assert (Hreach : reachable inv_2x2 exhaustive_assignment ticking_clock s).
  { apply after_frames_reachable. vm_compute. reflexivity. }
  assert (Hstep : invocation inv_2x2 exhaustive_assignment ticking_clock s far_objects out s').
  { exists (after_frames frames).2, (after_frames (frames ++ [far_objects])).2.
    vm_compute. reflexivity. }
  split; [exact Hreach|]. split; [exact Hstep|].
  split; [vm_compute; reflexivity|]. split; [vm_compute; reflexivity|].
  exact (removal_is_monotonic _ _ _ s far_objects out s' Hreach Hstep).
Defined.

Lemma hit_streak_equals_hits_witness :
  let s := (after_frames [two_objects; two_objects; two_objects]).1 in
  reachable inv_2x2 exhaustive_assignment ticking_clock s /\
  hit_streak <$> tracks s = [3%nat; 3%nat] /\
  (forall t, t ∈ tracks s -> hit_streak t = hits t).
Proof.
  intros s.
  assert (Hreach : reachable inv_2x2 exhaustive_assignment ticking_clock s).
  { apply after_frames_reachable. vm_compute. reflexivity. }
  split; [exact Hreach|]. split; [vm_compute; reflexivity|].
  intros t Ht.
  exact (proj2 (proj2 (proj2 (proj2
           (hit_streak_equals_hits inv_2x2 exhaustive_assignment ticking_clock))))
           s t Hreach Ht).
Defined.

Lemma discarded_pair_detection_is_dropped_witness :
  let s := (after_frames [[create_mock_detection 100 100]]).1 in
  let n := (after_frames [[create_mock_detection 100 100]]).2 in
  let detection := create_mock_detection 500 500 in
  exists t,
    tracks s = [t] /\
    exhaustive_assignment
      [[(- to_float64 (_calculate_iou (bbox t) (det_bbox detection)))%float]]
      = ([0%nat], [0%nat]) /\
    (iou_threshold s
       <? to_float64 (_calculate_iou (bbox t) (det_bbox detection)))%float = false /\
    (_associate_detections_to_tracks exhaustive_assignment s [detection]
       (Track_predict <$> tracks s) = Some ([], [], []) /\
     exists out s',
       update inv_2x2 exhaustive_assignment ticking_clock s [detection] n
         = Some ((out, s'), n) /\
       tracks s' = filter (fun t' => Nat.ltb (time_since_update t') (max_age s) = true)
                          [(Track_predict t).1] /\
       next_id s' = next_id s).
Proof.
  intros s n detection.
  eexists. split; [vm_compute; reflexivity|].
  assert (Hlsa : forall t, tracks s = [t] ->
            exhaustive_assignment
              [[(- to_float64 (_calculate_iou (bbox t) (det_bbox detection)))%float]]
              = ([0%nat], [0%nat])).
  { intros t Ht. vm_compute in Ht. injection Ht as <-. vm_compute. reflexivity. }
  assert (Hiou : forall t, tracks s = [t] ->
            (iou_threshold s
               <? to_float64 (_calculate_iou (bbox t) (det_bbox detection)))%float = false).
  { intros t Ht. vm_compute in Ht. injection Ht as <-. vm_compute. reflexivity. }
  split; [apply Hlsa; vm_compute; reflexivity|].
  split; [apply Hiou; vm_compute; reflexivity|].
  apply (discarded_pair_detection_is_dropped inv_2x2 exhaustive_assignment ticking_clock).
  - vm_compute. reflexivity.
  - apply Hlsa. vm_compute. reflexivity.
  - apply Hiou. vm_compute. reflexivity.
Defined.

(** ** The claim about the overlap measure *)

(** C9 as stated fails: the binary64 box [[0, 0, 1e200, 1e200]] has
    [x2 > x1] and [y2 > y1], but its area overflows to infinity, the union
    [inf + inf - inf] is NaN, [union > 0] is false and the IoU of the box
    with itself is 0.0, not 1. *)
Lemma iou_of_huge_box_with_itself_is_zero :
  let b := mkBBox (Prim2SF 0) (Prim2SF 0) (Prim2SF 1e200) (Prim2SF 1e200) in
  Forall (fun x => SpecFloat.valid_binary 53 1024 x = true) [bx1 b; by1 b; bx2 b; by2 b] /\
  positive_area b /\
  box_area b = S754_infinity false /\
  box_sub (box_add (box_area b) (box_area b)) (box_area b) = S754_nan /\
  _calculate_iou b b = S754_zero false /\
  to_float64 (_calculate_iou b b) = 0%float /\
  (to_float64 (_calculate_iou b b) =? 1)%float = false.
Proof. vm_compute. repeat constructor. Qed.

(** C9, amended.  For boxes of any binary format: the IoU of [a] and [b]
    and the IoU of [b] and [a] are the same float (up to the sign of a
    zero result); the IoU of two boxes that do not overlap is 0.0.  For a
    float32 or binary64 box of positive area whose area [A], as computed,
    is a positive number of the format and whose double [A + A] is finite,
    the IoU of the box with itself is 1; when [A] has underflowed to zero,
    or is positive and [A + A] is not finite, it is 0.0. *)
Theorem iou_symmetric_reflexive_disjoint (fmt : BoxFormat) :
  (forall a b, same_number (_calculate_iou a b) (_calculate_iou b a)) /\
  (forall a b, non_overlapping a b -> _calculate_iou a b = S754_zero false) /\
  (fmt = float64 \/ fmt = float32 ->
   forall b,
     positive_area b ->
     SpecFloat.valid_binary box_prec box_emax (box_area b) = true ->
     SFltb (S754_zero false) (box_area b) = true ->
     SF_is_finite (box_add (box_area b) (box_area b)) = true ->
     _calculate_iou b b = SFone box_prec box_emax) /\
  (forall b,
     is_zero (box_area b) = true \/
     (SFltb (S754_zero false) (box_area b) = true /\
      SF_is_finite (box_add (box_area b) (box_area b)) = false) ->
     _calculate_iou b b = S754_zero false).
Proof.
  split; [exact iou_symmetric|]. split; [exact iou_non_overlapping|].
  split; [intros Hfmt b; apply iou_self, Hfmt | exact iou_self_zero].
Qed.

Lemma iou_symmetric_reflexive_disjoint_witness :
  let a := int_box 100 100 150 150 in
  let b := int_box 120 110 170 160 in
  let c := int_box 500 500 550 550 in
  let tiny := mkBBox (Prim2SF 0) (Prim2SF 0) (Prim2SF 1e-200) (Prim2SF 1e-200) in
  to_float64 (_calculate_iou a b) = (1200 / 3800)%float /\
  same_number (_calculate_iou a b) (_calculate_iou b a) /\
  non_overlapping a c /\ _calculate_iou a c = S754_zero false /\
  (positive_area a /\
   SpecFloat.valid_binary 53 1024 (box_area a) = true /\
   SFltb (S754_zero false) (box_area a) = true /\
   SF_is_finite (box_add (box_area a) (box_area a)) = true) /\
  _calculate_iou a a = SFone 53 1024 /\
  to_float64 (_calculate_iou a a) = 1%float /\
  positive_area tiny /\ is_zero (box_area tiny) = true /\
  _calculate_iou tiny tiny = S754_zero false.
Proof.
  intros a b c tiny.
  destruct (iou_symmetric_reflexive_disjoint float64) as (Hsym & Hdis & Hself & Hzero).
  assert (Hno : non_overlapping a c) by (left; vm_compute; reflexivity).
  assert (Hpos : positive_area a) by (split; vm_compute; reflexivity).
  assert (Hvalid : SpecFloat.valid_binary 53 1024 (box_area a) = true)
    by (vm_compute; reflexivity).
  assert (Hlt : SFltb (S754_zero false) (box_area a) = true) by (vm_compute; reflexivity).
  assert (Hfin : SF_is_finite (box_add (box_area a) (box_area a)) = true)
    by (vm_compute; reflexivity).
  assert (Htiny : is_zero (box_area tiny) = true) by (vm_compute; reflexivity).
  split; [vm_compute; reflexivity|].
  split; [exact (Hsym a b)|].
  split; [exact Hno|]. split; [exact (Hdis a c Hno)|].
  split; [auto|].
  split; [exact (Hself (or_introl eq_refl) a Hpos Hvalid Hlt Hfin)|].
  split; [vm_compute; reflexivity|].
  split; [split; vm_compute; reflexivity|]. split; [exact Htiny|].
  exact (Hzero tiny (or_introl Htiny)).
Defined.

(** A pair of boxes that the threshold keeps when the detector reports
    float32 numbers and discards when the same numbers are binary64 or
    Python integers: the float32 quotient 3000/10000, widened, is above
    the binary64 0.3. *)
Example threshold_depends_on_the_format :
  let f32 z := binary_normalize 24 128 z 0 false in
  let iou32 :=
    to_float64 (@_calculate_iou float32
                  (mkBBox (f32 0%Z) (f32 0%Z) (f32 100%Z) (f32 100%Z))
                  (mkBBox (f32 0%Z) (f32 0%Z) (f32 100%Z) (f32 30%Z))) in
  let iou64 := to_float64 (_calculate_iou (int_box 0 0 100 100) (int_box 0 0 100 30)) in
  iou32 = 0.30000001192092896%float /\ (0.3 <? iou32)%float = true /\
  iou64 = 0.3%float /\ (0.3 <? iou64)%float = false.
Proof. vm_compute. repeat split. Qed.

(** ** Properties of the predictor *)

Local Open Scope float_scope.

(** *** Comparisons of binary64 numbers *)

Lemma ltb_asym x y : (x <? y) = true -> (y <? x) = false.
Proof.
  rewrite !ltb_spec. unfold SFltb. rewrite (SFcompare_antisym (Prim2SF x) (Prim2SF y)).
  destruct (SFcompare (Prim2SF x) (Prim2SF y)) as [[]|]; simpl; congruence.
Qed.

Lemma eqb_not_ltb x y : (x =? y) = true -> (y <? x) = false.
Proof.
  rewrite FloatAxioms.eqb_spec, ltb_spec. unfold SFeqb, SFltb.
  rewrite (SFcompare_antisym (Prim2SF x) (Prim2SF y)).
  destruct (SFcompare (Prim2SF x) (Prim2SF y)) as [[]|]; simpl; congruence.
Qed.

(** *** Rounding keeps a positive sum away from zero *)

Local Open Scope Z_scope.

Lemma digits2_pos_bounds p :
  2 ^ (Zpos (digits2_pos p) - 1) <= Zpos p < 2 ^ Zpos (digits2_pos p).
Proof.
  induction p as [p IH|p IH|]; cbn [digits2_pos].
  - rewrite Pos2Z.inj_succ.
    replace (Z.succ (Zpos (digits2_pos p)) - 1) with (Z.succ (Zpos (digits2_pos p) - 1)) by lia.
    rewrite !Z.pow_succ_r by lia. lia.
  - rewrite Pos2Z.inj_succ.
    replace (Z.succ (Zpos (digits2_pos p)) - 1) with (Z.succ (Zpos (digits2_pos p) - 1)) by lia.
    rewrite !Z.pow_succ_r by lia. lia.
  - simpl. lia.
Qed.

Lemma Zdigits2_lower m j : 0 <= j -> 2 ^ j <= m -> j < Zdigits2 m.
Proof.
  intros Hj Hm. destruct m as [|p|p]; try (pose proof (Z.pow_pos_nonneg 2 j); lia).
  simpl. pose proof (digits2_pos_bounds p) as [_ Hu].
  destruct (Z.lt_ge_cases j (Zpos (digits2_pos p))) as [|Hge]; [assumption|].
  pose proof (Z.pow_le_mono_r 2 _ _ ltac:(lia) Hge). lia.
Qed.

Lemma shr_1_m mrs : 0 <= shr_m mrs -> shr_m (shr_1 mrs) = shr_m mrs / 2.
Proof.
  destruct mrs as [m r s]. simpl. intros Hm.
  destruct m as [|[p|p|]|p]; cbn [shr_m]; try lia; try reflexivity.
  - apply Z.div_unique with 1; lia.
  - apply Z.div_unique with 0; lia.
Qed.

Lemma iter_pos_shr_m n : forall mrs,
  0 <= shr_m mrs ->
  0 <= shr_m (SpecFloat.iter_pos shr_1 n mrs) /\
  shr_m (SpecFloat.iter_pos shr_1 n mrs) = shr_m mrs / 2 ^ Zpos n.
Proof.
  assert (Hpow : forall k, 0 < 2 ^ Zpos k) by (intros; apply Z.pow_pos_nonneg; lia).
  induction n as [n IH|n IH|]; intros mrs Hm; cbn [SpecFloat.iter_pos].
  - assert (H1 : 0 <= shr_m (shr_1 mrs)).
    { rewrite shr_1_m by assumption. apply Z.div_pos; lia. }
    destruct (IH _ H1) as [H2 E2]. destruct (IH _ H2) as [H3 E3].
    split; [exact H3|]. rewrite E3, E2, shr_1_m by assumption.
    rewrite !Z.div_div by (pose proof (Hpow n); lia).
    f_equal. rewrite Pos2Z.inj_xI, Z.pow_add_r, Z.pow_mul_r by lia.
    rewrite <- Z.pow_add_r by lia. replace (Zpos n + Zpos n) with (2 * Zpos n) by lia.
    rewrite Z.pow_mul_r by lia. change (2 ^ 1) with 2. lia.
  - destruct (IH _ Hm) as [H2 E2]. destruct (IH _ H2) as [H3 E3].
    split; [exact H3|]. rewrite E3, E2.
    rewrite !Z.div_div by (pose proof (Hpow n); lia).
    f_equal. rewrite Pos2Z.inj_xO, <- Z.pow_add_r by lia. f_equal. lia.
  - rewrite shr_1_m by assumption. split; [apply Z.div_pos; lia | reflexivity].
Qed.

Section Rounding_keeps_positive.

Variables prec emax : Z.
Hypothesis prec_pos : 0 < prec.

Let emin := SpecFloat.emin prec emax.
Let above_emin := above_emin prec emax.

Lemma Zdigits2_pos_bounds m : 0 < m -> 2 ^ (Zdigits2 m - 1) <= m < 2 ^ Zdigits2 m.
Proof. destruct m as [|p|p]; try lia. intros _. apply digits2_pos_bounds. Qed.

Lemma Zdigits2_positive m : 0 < m -> 0 < Zdigits2 m.
Proof. destruct m; simpl; lia. Qed.

Lemma above_emin_mono m m' e : above_emin m e -> m <= m' -> above_emin m' e.
Proof.
  intros [Hm He] Hle. split; [lia|].
  pose proof (Zdigits2_pos_bounds m Hm) as [Hl _].
  pose proof (Zdigits2_positive m Hm).
  pose proof (Zdigits2_lower m' (Zdigits2 m - 1) ltac:(lia) ltac:(lia)). lia.
Qed.

Lemma fexp_lt x : emin < x -> fexp prec emax x < x.
Proof. unfold fexp. fold emin. lia. Qed.

Lemma shr_record_of_loc_m m l : shr_m (shr_record_of_loc m l) = m.
Proof. destruct l as [|[]]; reflexivity. Qed.

Lemma shr_fexp_above_emin m e l :
  above_emin m e ->
  above_emin (shr_m (fst (shr_fexp prec emax m e l))) (snd (shr_fexp prec emax m e l)).
Proof.
  intros [Hm He]. unfold shr_fexp, shr.
  pose proof (fexp_lt _ He) as Hf.
  destruct (fexp prec emax (Zdigits2 m + e) - e) as [|k|k] eqn:Ek; cbn [fst snd];
    rewrite ?shr_record_of_loc_m; try (split; assumption).
  destruct (iter_pos_shr_m k (shr_record_of_loc m l)) as [_ E];
    [rewrite shr_record_of_loc_m; lia|].
  rewrite E, shr_record_of_loc_m.
  pose proof (Zdigits2_pos_bounds m Hm) as [Hl _].
  set (d := Zdigits2 m) in *.
  assert (Hk : Zpos k <= d - 1) by lia.
  assert (Hpow : 0 < 2 ^ Zpos k) by (apply Z.pow_pos_nonneg; lia).
  assert (Hlow : 2 ^ (d - 1 - Zpos k) <= m / 2 ^ Zpos k).
  { apply Z.div_le_lower_bound; [exact Hpow|].
    rewrite <- Z.pow_add_r by lia. replace (Zpos k + (d - 1 - Zpos k)) with (d - 1) by lia.
    exact Hl. }
  assert (0 < 2 ^ (d - 1 - Zpos k)) by (apply Z.pow_pos_nonneg; lia).
  split; [lia|].
  pose proof (Zdigits2_lower (m / 2 ^ Zpos k) (d - 1 - Zpos k) ltac:(lia) Hlow). lia.
Qed.

Lemma round_nearest_even_ge m l : m <= round_nearest_even m l.
Proof. destruct l as [|[]]; simpl; try lia. destruct (Z.even m); lia. Qed.

Lemma binary_round_aux_nonzero sx m e l :
  above_emin m e -> is_zero (binary_round_aux prec emax sx m e l) = false.
Proof.
  intros H. unfold binary_round_aux.
  pose proof (shr_fexp_above_emin m e l H) as H1.
  destruct (shr_fexp prec emax m e l) as [mrs' e']. cbn [fst snd] in H1.
  pose proof (above_emin_mono _ _ _ H1
                (round_nearest_even_ge (shr_m mrs') (loc_of_shr_record mrs'))) as H2.
  pose proof (shr_fexp_above_emin _ _ loc_Exact H2) as H3.
  destruct (shr_fexp prec emax _ e' loc_Exact) as [mrs'' e'']. cbn [fst snd] in H3.
  destruct H3 as [H3 _]. destruct (shr_m mrs''); try lia.
  destruct (e'' <=? emax - prec); reflexivity.
Qed.

Lemma fexp_ge x : emin <= fexp prec emax x.
Proof. unfold fexp. fold emin. lia. Qed.

Lemma binary_round_nonzero sx mx ex :
  emin <= ex -> is_zero (binary_round prec emax sx mx ex) = false.
Proof.
  intros He. unfold binary_round, shl_align.
  pose proof (fexp_ge (Zpos (digits2_pos mx) + ex)) as Hf.
  destruct (fexp prec emax (Zpos (digits2_pos mx) + ex) - ex) as [|d|d] eqn:Ed;
    apply binary_round_aux_nonzero; split; cbn [Zdigits2]; lia.
Qed.

Lemma bounded_emin m e : bounded prec emax m e = true -> emin <= e.
Proof.
  unfold bounded, canonical_mantissa. intros H.
  apply andb_prop in H as [H _]. apply Z.eqb_eq in H.
  rewrite <- H. apply fexp_ge.
Qed.

Lemma SFadd_nonneg_nonzero x m e :
  SpecFloat.valid_binary prec emax x = true ->
  bounded prec emax m e = true ->
  is_zero (SFadd prec emax (SFabs x) (S754_finite false m e)) = false.
Proof.
  intros Hx Hy. destruct x as [sx|sx| |sx mx ex]; simpl; try reflexivity.
  apply binary_round_nonzero.
  simpl in Hx. apply bounded_emin in Hx. apply bounded_emin in Hy. lia.
Qed.

End Rounding_keeps_positive.

Local Close Scope Z_scope.

Lemma is_zero_SFeqb f : is_zero f = false -> SFeqb f (S754_zero false) = false.
Proof. destruct f as [s|s| |s m e]; try destruct s; cbv; congruence. Qed.

Lemma abs_plus_08_nonzero c : (abs c + 0.8 =? 0) = false.
Proof.
  rewrite FloatAxioms.eqb_spec, add_spec, abs_spec.
  change (Prim2SF 0) with (S754_zero false).
  assert (E : Prim2SF 0.8 = S754_finite false 7205759403792794 (-53)) by reflexivity.
  rewrite E. apply is_zero_SFeqb.
  apply SFadd_nonneg_nonzero; [reflexivity | apply Prim2SF_valid | reflexivity].
Qed.

(** *** The impact point and the time to impact *)

(** C8.  On a frame of width 1280 and height 720, from position (100, 100)
    with velocity (10, 0), the impact point is (1280, 100) on the right
    edge and the time to impact is 118.0, a positive number. *)
Theorem impact_point_right_edge self :
  frame_bounds self = (1280, 720) ->
  _calculate_impact_point self (100, 100) (10, 0) = (1280, 100) /\
  _calculate_time_to_impact (100, 100) (10, 0)
    (_calculate_impact_point self (100, 100) (10, 0)) = 118 /\
  (0 <? _calculate_time_to_impact (100, 100) (10, 0)
          (_calculate_impact_point self (100, 100) (10, 0))) = true.
Proof.
  intros Hfb. unfold _calculate_impact_point. rewrite Hfb.
  vm_compute. auto.
Qed.

Lemma impact_point_right_edge_witness :
  frame_bounds TrajectoryPredictor_init = (1280, 720) /\
  _calculate_impact_point TrajectoryPredictor_init (100, 100) (10, 0) = (1280, 100) /\
  _calculate_time_to_impact (100, 100) (10, 0)
    (_calculate_impact_point TrajectoryPredictor_init (100, 100) (10, 0)) = 118 /\
  (0 <? _calculate_time_to_impact (100, 100) (10, 0)
          (_calculate_impact_point TrajectoryPredictor_init (100, 100) (10, 0))) = true.
Proof.
  split; [reflexivity|].
  exact (impact_point_right_edge TrajectoryPredictor_init eq_refl).
Defined.

(** C7 as stated fails: with velocity (9e-7, 9e-7) both components are
    below 1e-6 in absolute value and the impact point is the position, but
    the speed exceeds 1e-6 and the time to impact is 0, not infinity. *)
Lemma slow_diagonal_time_to_impact_is_zero :
  let position := (100, 100) in
  let velocity := (9e-7, 9e-7) in
  (abs (fst velocity) <? 1e-6) = true /\
  (abs (snd velocity) <? 1e-6) = true /\
  _calculate_impact_point TrajectoryPredictor_init position velocity = position /\
  _calculate_time_to_impact position velocity
    (_calculate_impact_point TrajectoryPredictor_init position velocity) = 0 /\
  _calculate_time_to_impact position velocity
    (_calculate_impact_point TrajectoryPredictor_init position velocity) <> infinity.
Proof.
  vm_compute. repeat split.
  intros H. apply (f_equal (fun x => x <? 1)) in H. vm_compute in H. discriminate.
Qed.

(** C7, amended.  With |vx| < 1e-6 and |vy| < 1e-6 the impact point is the
    position unchanged; the time to impact is then either infinity, when
    the speed sqrt(vx^2 + vy^2) does not exceed 1e-6, or the distance to the
    impact point divided by the speed; for velocity (0, 0) it is infinity. *)
Theorem zero_velocity_impact self position vx vy :
  (abs vx <? 1e-6) = true ->
  (abs vy <? 1e-6) = true ->
  _calculate_impact_point self position (vx, vy) = position /\
  _calculate_time_to_impact position (vx, vy)
    (_calculate_impact_point self position (vx, vy)) =
    (if 1e-6 <? sqrt (sq vx + sq vy)
     then sqrt (sq (fst position - fst position) + sq (snd position - snd position))
          / sqrt (sq vx + sq vy)
     else infinity) /\
  ((1e-6 <? sqrt (sq vx + sq vy)) = false ->
   _calculate_time_to_impact position (vx, vy)
     (_calculate_impact_point self position (vx, vy)) = infinity) /\
  _calculate_time_to_impact position (0, 0)
    (_calculate_impact_point self position (0, 0)) = infinity.
Proof.
  intros Hx Hy.
  assert (Himp : _calculate_impact_point self position (vx, vy) = position).
  { unfold _calculate_impact_point. destruct position as [x y]. rewrite Hx, Hy. reflexivity. }
  assert (Htti : _calculate_time_to_impact position (vx, vy) position =
                 (if 1e-6 <? sqrt (sq vx + sq vy)
                  then sqrt (sq (fst position - fst position)
                             + sq (snd position - snd position))
                       / sqrt (sq vx + sq vy)
                  else infinity)).
  { unfold _calculate_time_to_impact. cbn [fst snd].
    rewrite (ltb_asym _ _ Hx), (ltb_asym _ _ Hy).
    destruct (abs vy <? abs vx); reflexivity. }
  split; [exact Himp|]. rewrite Himp. split; [exact Htti|]. split.
  - intros Hslow. rewrite Htti, Hslow. reflexivity.
  - destruct position as [x y]. reflexivity.
Qed.

Lemma zero_velocity_impact_witness :
  let position := (100, 100) in
  (abs 5e-7 <? 1e-6) = true /\ (abs (-3e-7) <? 1e-6) = true /\
  _calculate_impact_point TrajectoryPredictor_init position (5e-7, -3e-7) = position /\
  _calculate_time_to_impact position (5e-7, -3e-7)
    (_calculate_impact_point TrajectoryPredictor_init position (5e-7, -3e-7)) = infinity.
Proof.
  intros position.
  assert (Hx : (abs 5e-7 <? 1e-6) = true) by reflexivity.
  assert (Hy : (abs (-3e-7) <? 1e-6) = true) by reflexivity.
  destruct (zero_velocity_impact TrajectoryPredictor_init position 5e-7 (-3e-7) Hx Hy)
    as (Himp & _ & Hslow & _).
  split; [exact Hx|]. split; [exact Hy|]. split; [exact Himp|].
  apply Hslow. reflexivity.
Defined.

(** *** The three forecasts *)

Lemma _linear_prediction_Some linregress self positions timestamps r :
  (3 <= length positions)%nat ->
  _linear_prediction linregress self positions timestamps = Some r ->
  exists l, r = success l /\ p_method l = linear.
Proof.
  intros Hlen. unfold _linear_prediction.
  destruct (Nat.ltb_spec (length positions) 3) as [Hlt|_]; [lia|].
  destruct (linregress _ (fst <$> positions)) as [[[slope_x intercept_x] r_x]|];
    [|discriminate].
  cbn [mbind option_bind].
  destruct (linregress _ (snd <$> positions)) as [[[slope_y intercept_y] r_y]|];
    [|discriminate].
  cbn [mbind option_bind].
  destruct (np_arange _ _ _) as [future_times|]; [|discriminate].
  simpl. intros [= <-]. eexists. split; reflexivity.
Qed.

Lemma _kalman_prediction_Some self track r :
  _kalman_prediction self track = Some r ->
  exists k, r = success k /\ p_method k = kalman_method /\ p_confidence k = 0.8.
Proof.
  unfold _kalman_prediction.
  destruct (np_arange _ _ _) as [times|]; [|discriminate].
  simpl. intros [= <-]. eexists. repeat split.
Qed.

Lemma _combine_predictions_Some l kalman_pred r :
  _combine_predictions (success l) kalman_pred = Some r -> exists f, r = success f.
Proof.
  unfold _combine_predictions. destruct kalman_pred as [|k].
  - intros [= <-]. eauto.
  - destruct (_ =? 0); [intros [= <-]; eauto|].
    destruct (broadcast_add _ _) as [combined_trajectory|]; [|discriminate].
    simpl. destruct (_ <? _); intros [= <-]; eauto.
Qed.

(** C5.  [predict_trajectory] returns [{'status': 'insufficient_data'}]
    exactly when the history has fewer than 5 entries; in that case it
    returns it as a value, whatever the regression routine would compute. *)
Theorem insufficient_data_iff_short_history self track :
  min_history_points self = 5%nat ->
  ((length (s_history track) < 5)%nat ->
   forall linregress, predict_trajectory linregress self track = Some insufficient_data) /\
  (forall linregress,
      predict_trajectory linregress self track = Some insufficient_data ->
      (length (s_history track) < 5)%nat).
Proof.
  intros Hmin. unfold predict_trajectory. rewrite Hmin. split.
  - intros Hlt linregress. apply Nat.ltb_lt in Hlt. rewrite Hlt. reflexivity.
  - intros linregress.
    destruct (Nat.ltb_spec (length (s_history track)) 5) as [Hlt|Hge]; [auto|].
    destruct (_linear_prediction _ _ _ _) as [linear_pred|] eqn:El; [|discriminate].
    apply _linear_prediction_Some in El as (l & -> & _);
      [|rewrite length_fmap; lia].
    simpl. destruct (_kalman_prediction self track) as [kalman_pred|]; [|discriminate].
    simpl. intros H. apply _combine_predictions_Some in H as (f & [=]).
Qed.

Lemma insufficient_data_iff_short_history_witness :
  min_history_points TrajectoryPredictor_init = 5%nat /\
  (length (s_history mock_track) < 5)%nat /\
  predict_trajectory ols_linregress TrajectoryPredictor_init mock_track
    = Some insufficient_data.
Proof.
  assert (Hmin : min_history_points TrajectoryPredictor_init = 5%nat) by reflexivity.
  assert (Hlen : (length (s_history mock_track) < 5)%nat) by (simpl; lia).
  split; [exact Hmin|]. split; [exact Hlen|].
  exact (proj1 (insufficient_data_iff_short_history TrajectoryPredictor_init mock_track Hmin)
               Hlen ols_linregress).
Defined.

(** C6.  When both forecasts succeed, the impact point and the time to
    impact of the result are those of the linear forecast if the weights
    were normalised and the linear one is strictly larger, and those of the
    constant-velocity forecast otherwise (equal weights, or the zero-sum
    fallback); they are copied, never averaged. *)
Theorem impact_taken_from_larger_weight l k r :
  _combine_predictions (success l) (success k) = Some (success r) ->
  let total_weight := p_confidence l + p_confidence k in
  let w_linear := p_confidence l / total_weight in
  let w_kalman := p_confidence k / total_weight in
  ((total_weight =? 0) = false -> p_method r = combined) /\
  ((total_weight =? 0) = false -> (w_kalman <? w_linear) = true ->
   p_impact_point r = p_impact_point l /\ p_time_to_impact r = p_time_to_impact l) /\
  ((total_weight =? 0) = false -> (w_kalman <? w_linear) = false ->
   p_impact_point r = p_impact_point k /\ p_time_to_impact r = p_time_to_impact k) /\
  ((total_weight =? 0) = false -> (w_linear =? w_kalman) = true ->
   p_impact_point r = p_impact_point k /\ p_time_to_impact r = p_time_to_impact k) /\
  ((total_weight =? 0) = true -> r = k).
Proof.
  intros H total_weight w_linear w_kalman. unfold _combine_predictions in H.
  fold total_weight in H. fold w_linear w_kalman in H.
  destruct (total_weight =? 0) eqn:Etotal.
  - injection H as <-. repeat split; intros; discriminate || reflexivity.
  - destruct (broadcast_add _ _) as [combined_trajectory|]; [|discriminate].
    simpl in H.
    assert (Heq : (w_linear =? w_kalman) = true -> (w_kalman <? w_linear) = false)
      by apply eqb_not_ltb.
    destruct (w_kalman <? w_linear) eqn:Elt; injection H as <-; simpl;
      repeat split; intros; try discriminate; try reflexivity;
      match goal with
      | Hw : (w_linear =? w_kalman) = true |- _ => apply Heq in Hw; discriminate
      end.
Qed.

Lemma impact_taken_from_larger_weight_witness :
  let l := {| p_method := linear; p_trajectory := [(1, 1); (2, 2)]; p_velocity := (10, 0);
              p_speed := 10; p_impact_point := (1280, 100); p_time_to_impact := 118;
              p_confidence := 0.9 |} in
  let k := {| p_method := kalman_method; p_trajectory := [(1, 3); (2, 6)];
              p_velocity := (8, 1); p_speed := 8.06; p_impact_point := (1280, 247.5);
              p_time_to_impact := 147.5; p_confidence := 0.8 |} in
  exists r,
    _combine_predictions (success l) (success k) = Some (success r) /\
    (p_confidence l + p_confidence k =? 0) = false /\
    (p_confidence k / (p_confidence l + p_confidence k)
       <? p_confidence l / (p_confidence l + p_confidence k)) = true /\
    p_method r = combined /\
    p_impact_point r = (1280, 100) /\ p_time_to_impact r = 118.
Proof.
  intros l k. eexists. split; [vm_compute; reflexivity|].
  match goal with
  | |- _ /\ _ /\ _ /\ p_impact_point ?r = _ /\ _ =>
      assert (H : _combine_predictions (success l) (success k) = Some (success r))
        by (vm_compute; reflexivity);
      destruct (impact_taken_from_larger_weight l k r H) as (Hm & Hl & _)
  end.
  assert (Ht : (p_confidence l + p_confidence k =? 0) = false) by reflexivity.
  assert (Hw : (p_confidence k / (p_confidence l + p_confidence k)
                  <? p_confidence l / (p_confidence l + p_confidence k)) = true)
    by reflexivity.
  split; [exact Ht|]. split; [exact Hw|]. split; [exact (Hm Ht)|].
  exact (Hl Ht Hw).
Defined.

(** *** Which branch of the fusion is taken *)

Lemma total_weight_nonzero r_x r_y : (fmin (abs r_x) (abs r_y) + 0.8 =? 0) = false.
Proof. unfold fmin. destruct (_ <? _); apply abs_plus_08_nonzero. Qed.

Lemma length_scale w a : length (scale w a) = length a.
Proof. apply length_fmap. Qed.


Lemma broadcast_add_mismatch a b :
  (2 <= length a)%nat -> (2 <= length b)%nat -> length a <> length b ->
  broadcast_add a b = None.
Proof.
  intros Ha Hb Hne. destruct a as [|p [|p' a]], b as [|q [|q' b]]; simpl in Ha, Hb; try lia.
  unfold broadcast_add. apply Nat.eqb_neq in Hne. rewrite Hne. reflexivity.
Qed.

(** The constant-velocity forecast of the 5 s horizon always succeeds, with
    50 samples and confidence 0.8. *)
Lemma _kalman_prediction_succeeds self track :
  prediction_time self = 5.0 ->
  exists k, _kalman_prediction self track = Some (success k) /\
            p_method k = kalman_method /\ p_confidence k = 0.8 /\
            length (p_trajectory k) = 50%nat.
Proof.
  intros Hpt. unfold _kalman_prediction. rewrite Hpt.
  assert (E : exists times, np_arange 0 5.0 0.1 = Some times /\ length times = 50%nat)
    by (eexists; split; vm_compute; reflexivity).
  destruct E as (times & -> & Hlen).
  eexists. split; [reflexivity|]. cbn [p_method p_confidence p_trajectory].
  rewrite length_fmap. auto.
Qed.

(** X14.  With five or more history entries, [predict_trajectory] raises or
    returns a fused forecast: the branches that return one forecast
    unmodified, and the zero-weight fallback, are not taken. *)
Lemma predict_trajectory_combined_or_raises linregress self track :
  min_history_points self = 5%nat ->
  (5 <= length (s_history track))%nat ->
  predict_trajectory linregress self track = None \/
  exists f, predict_trajectory linregress self track = Some (success f) /\
            p_method f = combined.
Proof.
  intros Hmin Hlen. unfold predict_trajectory. rewrite Hmin.
  destruct (Nat.ltb_spec (length (s_history track)) 5) as [Hlt|_]; [lia|].
  unfold _linear_prediction. rewrite length_fmap.
  destruct (Nat.ltb_spec (length (s_history track)) 3) as [Hlt|_]; [lia|].
  destruct (linregress _ (fst <$> _)) as [[[slope_x intercept_x] r_x]|];
    [|left; reflexivity].
  cbn [mbind option_bind].
  destruct (linregress _ (snd <$> _)) as [[[slope_y intercept_y] r_y]|];
    [|left; reflexivity].
  cbn [mbind option_bind].
  destruct (np_arange _ _ 0.1) as [future_times|]; [|left; reflexivity].
  cbn [mbind option_bind].
  destruct (_kalman_prediction self track) as [kalman_pred|] eqn:Ek; [|left; reflexivity].
  apply _kalman_prediction_Some in Ek as (k & -> & _ & Hconf).
  cbn [mbind option_bind]. unfold _combine_predictions. cbn [p_confidence].
  rewrite Hconf, total_weight_nonzero.
  destruct (broadcast_add _ _) as [combined_trajectory|]; [|left; reflexivity].
  right. cbn [mbind option_bind]. destruct (_ <? _); eexists; split; reflexivity.
Qed.


(** C10 fails on this snapshot: five history entries, the last one 3.3 s
    after the first.  [numpy.arange(3.3, 3.3 + 5.0, 0.1)] has 51 elements
    where [numpy.arange(0, 5.0, 0.1)] has 50; whenever the two regressions
    return (as the least-squares regression does here, the five times
    being distinct), both forecasts succeed and adding their trajectories
    raises; and [predict_trajectory] raises whatever the regression does. *)
Theorem predict_trajectory_shape_mismatch :
  let track := sampled_track [0; 0.8; 1.7; 2.5; 3.3] in
  let positions := h_position <$> s_history track in
  let timestamps := h_timestamp <$> s_history track in
  let dt := (fun t => t - hd 0 timestamps) <$> timestamps in
  length (s_history track) = 5%nat /\
  (option_map (@length float) (np_arange 3.3 (3.3 + 5.0) 0.1) = Some 51%nat /\
   option_map (@length float) (np_arange 0 5.0 0.1) = Some 50%nat) /\
  (is_Some (ols_linregress dt (fst <$> positions)) /\
   is_Some (ols_linregress dt (snd <$> positions))) /\
  (forall linregress,
      is_Some (linregress dt (fst <$> positions)) ->
      is_Some (linregress dt (snd <$> positions)) ->
      exists l k,
        _linear_prediction linregress TrajectoryPredictor_init positions timestamps
          = Some (success l) /\
        _kalman_prediction TrajectoryPredictor_init track = Some (success k) /\
        length (p_trajectory l) = 51%nat /\ length (p_trajectory k) = 50%nat /\
        _combine_predictions (success l) (success k) = None) /\
  (forall linregress,
      predict_trajectory linregress TrajectoryPredictor_init track = None).
Proof.
  intros track positions timestamps dt.
  assert (Hparts : forall linregress,
      is_Some (linregress dt (fst <$> positions)) ->
      is_Some (linregress dt (snd <$> positions)) ->
      exists l k,
        _linear_prediction linregress TrajectoryPredictor_init positions timestamps
          = Some (success l) /\
        _kalman_prediction TrajectoryPredictor_init track = Some (success k) /\
        length (p_trajectory l) = 51%nat /\ length (p_trajectory k) = 50%nat /\
        _combine_predictions (success l) (success k) = None).
  { intros linregress [[[slope_x intercept_x] r_x] Hx] [[[slope_y intercept_y] r_y] Hy].
    destruct (_kalman_prediction_succeeds TrajectoryPredictor_init track eq_refl)
      as (k & Ek & _ & Hconf & Hk).
    unfold _linear_prediction.
    change (Nat.ltb (length positions) 3) with false. cbv iota.
    fold dt. rewrite Hx. cbn [mbind option_bind]. rewrite Hy. cbn [mbind option_bind].
    match goal with
    | |- context [np_arange ?a ?b ?c] =>
        assert (E : exists ft, np_arange a b c = Some ft /\ length ft = 51%nat)
          by (eexists; split; vm_compute; reflexivity)
    end.
    destruct E as (ft & -> & Hft). cbn [mbind option_bind].
    eexists _, k. split; [reflexivity|]. split; [exact Ek|].
    cbn [p_trajectory p_confidence]. rewrite length_fmap.
    split; [exact Hft|]. split; [exact Hk|].
    unfold _combine_predictions. cbn [p_confidence p_trajectory].
    rewrite Hconf, total_weight_nonzero.
    rewrite broadcast_add_mismatch;
      [reflexivity | | | ]; rewrite !length_scale, ?length_fmap; lia. }
  split; [reflexivity|]. split; [split; vm_compute; reflexivity|].
  split; [split; vm_compute; eexists; reflexivity|].
  split; [exact Hparts|].
  intros linregress.
  unfold predict_trajectory.
  change (Nat.ltb (length (s_history track)) (min_history_points TrajectoryPredictor_init))
    with false. cbv iota. fold positions timestamps.
  destruct (linregress dt (fst <$> positions)) as [rx|] eqn:Hx.
  2:{ unfold _linear_prediction.
      change (Nat.ltb (length positions) 3) with false. cbv iota.
      fold dt. rewrite Hx. reflexivity. }
  destruct (linregress dt (snd <$> positions)) as [ry|] eqn:Hy.
  2:{ unfold _linear_prediction.
      change (Nat.ltb (length positions) 3) with false. cbv iota.
      fold dt. rewrite Hx. destruct rx as [[? ?] ?]. cbn [mbind option_bind].
      rewrite Hy. reflexivity. }
  destruct (Hparts linregress) as (l & k & El & Ek & _ & _ & Ec);
    [rewrite Hx; eauto | rewrite Hy; eauto |].
  rewrite El, Ek. exact Ec.
Qed.

(** ** Runs of the scenarios of the specification *)

(** Two objects seen in three successive frames are reported from the third
    invocation on, with [hits = 3]. *)
Example two_objects_confirmed_on_third_invocation :
  output_after [] two_objects = ∅ /\
  output_after [two_objects] two_objects = ∅ /\
  s_hits <$> (output_after [two_objects; two_objects] two_objects !! 1%nat) = Some 3%nat /\
  s_hits <$> (output_after [two_objects; two_objects] two_objects !! 2%nat) = Some 3%nat /\
  output_after [two_objects; two_objects] two_objects !! 3%nat = None.
Proof. repeat split; vm_compute; reflexivity. Qed.

(** A track that is missed in 30 successive invocations leaves the active
    set in the 30th. *)
Example track_dropped_after_30_misses :
  ids (after_frames (seen_once_then_lost 29)).1 = [1%nat] /\
  time_since_update <$> tracks (after_frames (seen_once_then_lost 29)).1 = [29%nat] /\
  ids (after_frames (seen_once_then_lost 30)).1 = [].
Proof. repeat split; vm_compute; reflexivity. Qed.

(** The reference assignment maximises the total IoU. *)
Example exhaustive_assignment_examples :
  exhaustive_assignment [[-0.9; -0.1]; [-0.2; -0.8]]%float = ([0; 1], [0; 1])%nat /\
  exhaustive_assignment [[-0.1; -0.9]; [-0.8; -0.2]]%float = ([0; 1], [1; 0])%nat /\
  exhaustive_assignment [[-0; -0.9]]%float = ([0], [1])%nat /\
  exhaustive_assignment [[-0]; [-0.9]]%float = ([1], [0])%nat.
Proof. repeat split; vm_compute; reflexivity. Qed.

(** With history times 0, 1, 2, 3, 4 both horizons have 50 samples and the
    forecasts are fused. *)
Example predict_trajectory_on_whole_seconds :
  exists f,
    predict_trajectory ols_linregress TrajectoryPredictor_init (sampled_track [0; 1; 2; 3; 4])
      = Some (success f) /\
    p_method f = combined /\ length (p_trajectory f) = 50%nat /\
    p_impact_point f = (1280, 690) /\ p_time_to_impact f = 114.
Proof. eexists. split; [vm_compute; reflexivity|]. repeat split. Qed.


(** * Further properties of the code *)

Local Close Scope float_scope.

(** ** The tracks of reachable trackers *)

Section Tracker_more.

Context `{fmt : BoxFormat}.
Context (linalg_inv : matrix -> option matrix).
Context (linear_sum_assignment : list (list float) -> list nat * list nat).
Context (clock : nat -> float).

Local Open Scope nat_scope.

Lemma update_matched_Forall (P : Track -> Prop) detections matched_tracks :
  (forall t detection n t' n',
      P t -> Track_update linalg_inv clock t detection n = Some (t', n') -> P t') ->
  forall trks n trks' n',
    Forall P trks ->
    update_matched linalg_inv clock trks detections matched_tracks n = Some (trks', n') ->
    Forall P trks'.
Proof.
  intros Hupd. induction matched_tracks as [|[track_idx det_idx] rest IH];
    simpl; intros trks n trks' n' HP H.
  - injection H as <- _. exact HP.
  - apply bind_Some in H as (track & n0 & Ht & H). apply lift_Some in Ht as [Ht ->].
    apply bind_Some in H as (detection & n1 & Hd & H). apply lift_Some in Hd as [Hd ->].
    apply bind_Some in H as (track' & n2 & Hu & H).
    eapply IH; [|exact H]. apply Forall_insert; [exact HP|].
    eapply Hupd; [|exact Hu]. eapply Forall_lookup_1; eassumption.
Qed.

Lemma create_tracks_Forall (P : Track -> Prop) detections unmatched_detections :
  (forall detection track_id n t n',
      Track_init clock detection track_id n = Some (t, n') -> P t) ->
  forall trks nid n trks' nid' n',
    Forall P trks ->
    create_tracks clock trks nid detections unmatched_detections n = Some ((trks', nid'), n') ->
    Forall P trks'.
Proof.
  intros Hinit. induction unmatched_detections as [|det_idx rest IH];
    simpl; intros trks nid n trks' nid' n' HP H.
  - injection H as <- _ _. exact HP.
  - apply bind_Some in H as (detection & n0 & Hd & H). apply lift_Some in Hd as [Hd ->].
    apply bind_Some in H as (new_track & n1 & Hn & H).
    eapply IH; [|exact H]. apply Forall_app. split; [exact HP|].
    constructor; [|constructor]. eapply Hinit. exact Hn.
Qed.

Lemma invocation_Forall (P : Track -> Prop) s detections out s' :
  (forall detection track_id n t n',
      Track_init clock detection track_id n = Some (t, n') -> P t) ->
  (forall t, P t -> P (Track_predict t).1) ->
  (forall t detection n t' n',
      P t -> Track_update linalg_inv clock t detection n = Some (t', n') -> P t') ->
  invocation linalg_inv linear_sum_assignment clock s detections out s' ->
  Forall P (tracks s) -> Forall P (tracks s').
Proof.
  intros Hinit Hpred Hupd (n & n' & H) HP. unfold update in H.
  apply bind_Some in H as ([[mt ud] ut] & n0 & Hassoc & H).
  apply bind_Some in H as (tracks1 & n1 & H1 & H).
  apply bind_Some in H as ([tracks2 nid] & n2 & H2 & H).
  simpl in H. injection H as _ <- _. simpl.
  apply Forall_forall. intros t Ht. apply list_elem_of_filter in Ht as [_ Ht].
  revert t Ht. apply Forall_forall.
  eapply create_tracks_Forall; [exact Hinit| |exact H2].
  eapply update_matched_Forall; [exact Hupd| |exact H1].
  rewrite <- list_fmap_compose. apply Forall_fmap.
  eapply Forall_impl; [exact HP|]. intros t Pt. apply Hpred, Pt.
Qed.

(** A property that [Track.__init__] establishes and that [Track.predict]
    and [Track.update] preserve holds of every track of every reachable
    tracker. *)
Lemma reachable_tracks_Forall (P : Track -> Prop) :
  (forall detection track_id n t n',
      Track_init clock detection track_id n = Some (t, n') -> P t) ->
  (forall t, P t -> P (Track_predict t).1) ->
  (forall t detection n t' n',
      P t -> Track_update linalg_inv clock t detection n = Some (t', n') -> P t') ->
  forall s, reachable linalg_inv linear_sum_assignment clock s -> Forall P (tracks s).
Proof.
  intros Hinit Hpred Hupd s Hreach.
  assert (Hlater : forall s0 s1,
             later linalg_inv linear_sum_assignment clock s0 s1 ->
             Forall P (tracks s0) -> Forall P (tracks s1)).
  { induction 1 as [|s0 s1 s' detections out Hstep _ IH]; [auto|].
    intros H0. apply IH. eapply invocation_Forall; eassumption. }
  apply (Hlater _ _ Hreach). constructor.
Qed.

(** [Track.update] appends one entry and drops the oldest one beyond 30. *)
Lemma Track_update_history t detection n t' n' :
  Track_update linalg_inv clock t detection n = Some (t', n') ->
  exists entry,
    h_position entry = det_center detection /\ h_bbox entry = det_bbox detection /\
    history t' = (if Nat.ltb 30 (length (history t ++ [entry]))
                  then tail (history t ++ [entry]) else history t ++ [entry]).
Proof.
  unfold Track_update. intros H.
  apply bind_Some in H as (k & n0 & _ & H).
  apply bind_Some in H as (lu & n1 & _ & H).
  apply bind_Some in H as (ts & n2 & _ & H).
  simpl in H. injection H as <- _.
  exists {| h_position := det_center detection; h_timestamp := ts;
            h_bbox := det_bbox detection |}.
  split; [|split]; reflexivity.
Qed.

Lemma reachable_track_bookkeeping s :
  reachable linalg_inv linear_sum_assignment clock s ->
  Forall track_bookkeeping (tracks s).
Proof.
  apply reachable_tracks_Forall.
  - intros detection track_id n t n' H.
    apply Track_init_Some in H as (_ & Hh & _ & Ht & Hhist & Ha).
    unfold track_bookkeeping. rewrite Hh, Hhist, Ht, Ha. simpl. lia.
  - intros t (Hh & Hl & Ha).
    destruct (Track_predict_fst t) as (_ & Eh & _ & Et & Ea & Ehist & _).
    unfold track_bookkeeping. rewrite Eh, Et, Ea, Ehist. lia.
  - intros t detection n t' n' (Hh & Hl & Ha) H.
    pose proof (Track_update_history _ _ _ _ _ H) as (entry & _ & _ & Ehist).
    apply Track_update_Some in H as (_ & Eh & _ & Et & Ea & _).
    unfold track_bookkeeping. rewrite Eh, Et, Ea, Ehist.
    split; [lia|]. split; [|lia].
    rewrite length_app. cbn [length].
    destruct (Nat.ltb_spec 30 (length (history t) + 1)) as [Hlt|Hge].
    + destruct (history t) as [|e0 h0]; simpl in *; [lia|].
      rewrite length_app. simpl. lia.
    + rewrite length_app. simpl. lia.
Qed.

(** X4.  Every track of a reachable tracker has [hits >= 1], a history of
    exactly [min(hits - 1, 30)] entries (one per call of [Track.update],
    the oldest dropped beyond 30), [time_since_update <= age], and
    [time_since_update < 30]. *)
Theorem reachable_track_bounds s t :
  reachable linalg_inv linear_sum_assignment clock s ->
  t ∈ tracks s ->
  1 <= hits t /\ length (history t) = Nat.min (hits t - 1) 30 /\
  time_since_update t <= age t /\ time_since_update t < 30.
Proof.
  intros Hreach Ht.
  destruct (proj1 (Forall_forall _ _) (reachable_track_bookkeeping s Hreach) t Ht)
    as (Hh & Hl & Ha).
  pose proof (invariant_reachable _ _ _ _ Hreach) as I.
  pose proof (proj1 (Forall_forall _ _) (inv_young s I) t Ht) as Hy. simpl in Hy.
  auto.
Qed.

(** *** Ids in creation order *)

Lemma StronglySorted_lt_app (l k : list nat) :
  StronglySorted lt l -> StronglySorted lt k ->
  (forall x y, x ∈ l -> y ∈ k -> x < y) ->
  StronglySorted lt (l ++ k).
Proof.
  induction 1 as [|x l Hl IH Hx]; intros Hk Hlk; simpl; [exact Hk|].
  constructor.
  - apply IH; [exact Hk|]. intros a b Ha Hb. apply Hlk; [right; exact Ha | exact Hb].
  - apply Forall_app. split; [exact Hx|].
    apply Forall_forall. intros y Hy. apply Hlk; [left | exact Hy].
Qed.

Lemma StronglySorted_lt_seq j n : StronglySorted lt (seq j n).
Proof.
  revert j. induction n as [|n IH]; intros j; simpl; constructor; [apply IH|].
  apply Forall_forall. intros y Hy. apply elem_of_seq in Hy. lia.
Qed.

Lemma StronglySorted_lt_sublist (l k : list nat) :
  l `sublist_of` k -> StronglySorted lt k -> StronglySorted lt l.
Proof.
  induction 1 as [|x l k Hsub IH|x l k Hsub IH]; intros Hk.
  - constructor.
  - apply StronglySorted_inv in Hk as [Hk Hx]. constructor; [apply IH, Hk|].
    apply Forall_forall. intros y Hy.
    apply (proj1 (Forall_forall _ _) Hx). eapply elem_of_sublist; eassumption.
  - apply StronglySorted_inv in Hk as [Hk _]. apply IH, Hk.
Qed.

(** X5.  In every reachable tracker the active tracks are listed in the
    order of their ids, strictly increasing; every id is at least 1 and
    below [next_id], and there are fewer tracks than [next_id]. *)
Theorem ids_increasing s :
  reachable linalg_inv linear_sum_assignment clock s ->
  StronglySorted lt (ids s) /\
  Forall (fun i => 1 <= i < next_id s) (ids s) /\
  length (tracks s) < next_id s.
Proof.
  intros Hreach.
  assert (Hsorted : forall s0 s1,
             later linalg_inv linear_sum_assignment clock s0 s1 ->
             invariant s0 -> StronglySorted lt (ids s0) -> StronglySorted lt (ids s1)).
  { induction 1 as [|s0 s1 s' detections out Hstep _ IH]; [auto|].
    intros I H0. apply IH; [eapply invariant_step; eassumption|].
    destruct (ids_after _ _ _ _ _ _ _ Hstep) as (k & _ & Hsub).
    eapply StronglySorted_lt_sublist; [exact Hsub|].
    apply StronglySorted_lt_app; [exact H0 | apply StronglySorted_lt_seq|].
    intros x y Hx Hy. apply list_elem_of_fmap in Hx as (t & -> & Ht).
    apply elem_of_seq in Hy.
    pose proof (proj1 (Forall_forall _ _) (inv_below s0 I) t Ht) as Hb. simpl in Hb. lia. }
  pose proof (invariant_reachable _ _ _ _ Hreach) as I.
  assert (Hb : Forall (fun i => 1 <= i < next_id s) (ids s)).
  { apply Forall_forall. intros i Hi. apply list_elem_of_fmap in Hi as (t & -> & Ht).
    exact (proj1 (Forall_forall _ _) (inv_below s I) t Ht). }
  split; [|split; [exact Hb|]].
  - apply (Hsorted _ _ Hreach invariant_init). constructor.
  - assert (Hsub : ids s ⊆+ seq 1 (next_id s - 1)).
    { apply NoDup_submseteq; [apply (inv_nodup s I)|].
      intros i Hi. apply (proj1 (Forall_forall _ _) Hb) in Hi. apply elem_of_seq. lia. }
    apply submseteq_length in Hsub. unfold ids in Hsub.
    rewrite length_fmap, length_seq in Hsub. pose proof (inv_next s I). lia.
Qed.

(** *** Frames without detections, and the first frame *)

(** [update([])]: every track is predicted, the old ones are removed. *)
Lemma update_nil s n :
  exists s',
    update linalg_inv linear_sum_assignment clock s [] n
      = Some ((confirmed (min_hits s) (tracks s'), s'), n) /\
    tracks s' = filter (fun t => Nat.ltb (time_since_update t) (max_age s) = true)
                       ((fun t => (Track_predict t).1) <$> tracks s) /\
    next_id s' = next_id s /\ max_age s' = max_age s /\ min_hits s' = min_hits s /\
    iou_threshold s' = iou_threshold s.
Proof.
  assert (Hassoc : exists ut,
    _associate_detections_to_tracks linear_sum_assignment s []
      (Track_predict <$> tracks s) = Some ([], [], ut)).
  { unfold _associate_detections_to_tracks.
    destruct (Nat.eqb (length (Track_predict <$> tracks s)) 0); simpl; eauto. }
  destruct Hassoc as [ut Hassoc].
  exists {| tracks := filter (fun t => Nat.ltb (time_since_update t) (max_age s) = true)
                             (fst <$> (Track_predict <$> tracks s));
            next_id := next_id s; max_age := max_age s; min_hits := min_hits s;
            iou_threshold := iou_threshold s |}.
  split; [|split; [|auto]].
  - unfold update. rewrite Hassoc. unfold bind, lift, ret. simpl. reflexivity.
  - simpl. rewrite <- list_fmap_compose. reflexivity.
Qed.

(** X6.  [update([])] on any tracker returns without reading the clock and
    without calling the inverse or the assignment solver; it creates no
    track and leaves [next_id]; the new active set is the old one after
    [Track.predict], without the tracks that reach [max_age]; a surviving
    track keeps its id, hits, hit streak, history and box, and its
    [time_since_update] and [age] grow by one. *)
Theorem update_without_detections s n :
  exists s',
    update linalg_inv linear_sum_assignment clock s [] n
      = Some ((confirmed (min_hits s) (tracks s'), s'), n) /\
    tracks s' = filter (fun t => Nat.ltb (time_since_update t) (max_age s) = true)
                       ((fun t => (Track_predict t).1) <$> tracks s) /\
    next_id s' = next_id s /\
    (forall t', t' ∈ tracks s' ->
       exists t, t ∈ tracks s /\ id t' = id t /\ hits t' = hits t /\
                 hit_streak t' = hit_streak t /\ history t' = history t /\
                 bbox t' = bbox t /\
                 time_since_update t' = time_since_update t + 1 /\
                 age t' = age t + 1).
Proof.
  destruct (update_nil s n) as (s' & Hupd & Htracks & Hnext & _).
  exists s'. split; [exact Hupd|]. split; [exact Htracks|]. split; [exact Hnext|].
  intros t' Ht'. rewrite Htracks in Ht'. apply list_elem_of_filter in Ht' as [_ Ht'].
  apply list_elem_of_fmap in Ht' as (t & -> & Ht).
  exists t. split; [exact Ht|].
  destruct (Track_predict_fst t) as (H1 & H2 & H3 & H4 & H5 & H6 & H7).
  auto 10.
Qed.

Lemma filter_fmap_iff {A B} (f : A -> B) (P : B -> Prop) (Q : A -> Prop)
      `{!forall y, Decision (P y)} `{!forall x, Decision (Q x)} (l : list A) :
  (forall x, P (f x) <-> Q x) -> filter P (f <$> l) = f <$> filter Q l.
Proof.
  intros Hiff. induction l as [|x l IH]; [reflexivity|].
  rewrite fmap_cons. destruct (decide (Q x)) as [Hq|Hq].
  - rewrite (filter_cons_True Q) by exact Hq.
    rewrite filter_cons_True by (apply Hiff, Hq). now rewrite fmap_cons, IH.
  - rewrite (filter_cons_False Q) by exact Hq.
    rewrite filter_cons_False by (intros Hp; apply Hq, Hiff, Hp). exact IH.
Qed.

(** [k] calls of [Track.predict]. *)
Lemma Track_predict_iter k t :
  let t' := Nat.iter k (fun t => (Track_predict t).1) t in
  id t' = id t /\ hits t' = hits t /\ hit_streak t' = hit_streak t /\
  bbox t' = bbox t /\ history t' = history t /\
  time_since_update t' = time_since_update t + k /\ age t' = age t + k.
Proof.
  induction k as [|k IH]; cbv zeta in *.
  { unfold Nat.iter. cbn [nat_rect]. rewrite !Nat.add_0_r. auto 10. }
  rewrite Nat.iter_succ.
  destruct IH as (I1 & I2 & I3 & I4 & I5 & I6 & I7).
  destruct (Track_predict_fst (Nat.iter k (fun t => (Track_predict t).1) t))
    as (H1 & H2 & H3 & H4 & H5 & H6 & H7).
  rewrite H1, H2, H3, H4, H5, H6, H7, I1, I2, I3, I4, I5, I6, I7.
  repeat split; lia.
Qed.

(** X20.  After [k >= 1] successive invocations of [update([])], on any
    tracker, the active set consists of exactly the tracks that had
    [time_since_update + k < max_age], in their order, each predicted [k]
    times: same id, hits, hit streak, box and history, and
    [time_since_update] and [age] larger by [k]; the clock is not read and
    [next_id] does not change.  So a track that is no longer detected
    leaves the active set in the invocation in which its
    [time_since_update] reaches [max_age]. *)
Theorem undetected_tracks_age_out s n k :
  exists s',
    run linalg_inv linear_sum_assignment clock s n (repeat [] (S k)) = Some (s', n) /\
    tracks s' = Nat.iter (S k) (fun t => (Track_predict t).1)
                  <$> filter (fun t => time_since_update t + S k < max_age s) (tracks s) /\
    next_id s' = next_id s /\ max_age s' = max_age s /\
    forall t,
      let t' := Nat.iter (S k) (fun t => (Track_predict t).1) t in
      id t' = id t /\ hits t' = hits t /\ hit_streak t' = hit_streak t /\
      bbox t' = bbox t /\ history t' = history t /\
      time_since_update t' = time_since_update t + S k /\ age t' = age t + S k.
Proof.
  assert (Hstep : forall s j,
             filter (fun t => time_since_update t + j < max_age s)
                    (filter (fun t => Nat.ltb (time_since_update t) (max_age s) = true)
                            ((fun t => (Track_predict t).1) <$> tracks s))
             = (fun t => (Track_predict t).1)
                 <$> filter (fun t => time_since_update t + S j < max_age s) (tracks s)).
  { intros s0 j. rewrite list_filter_filter_l
      by (intros t Ht; apply Nat.ltb_lt; lia).
    apply filter_fmap_iff. intros t.
    destruct (Track_predict_fst t) as (_ & _ & _ & -> & _). lia. }
  revert s. induction k as [|k IH]; intros s.
  - destruct (update_nil s n) as (s' & Hupd & Htracks & Hnext & Hage & _).
    exists s'. cbn [repeat run]. rewrite Hupd.
    split; [reflexivity|]. split; [|split; [exact Hnext|split; [exact Hage|]]].
    + rewrite Htracks. apply filter_fmap_iff. intros t. rewrite Nat.ltb_lt.
      destruct (Track_predict_fst t) as (_ & _ & _ & -> & _). lia.
    + intros t. apply (Track_predict_iter 1 t).
  - destruct (update_nil s n) as (s1 & Hupd & Htracks & Hnext & Hage & _).
    destruct (IH s1) as (s' & Hrun & Htracks' & Hnext' & Hage' & _).
    exists s'. change (repeat [] (S (S k))) with (([] : list Detection) :: repeat [] (S k)).
    cbn [run]. rewrite Hupd.
    split; [exact Hrun|]. split; [|split; [congruence|split; [congruence|]]].
    + rewrite Htracks', Htracks, Hage, Hstep, <- list_fmap_compose.
      apply list_fmap_ext. intros i t _. cbn [compose].
      symmetry.
      exact (Nat.iter_succ_r (S k) (fun t0 => (Track_predict t0).1) t).
    + intros t. apply (Track_predict_iter (S (S k)) t).
Qed.

(** Creating tracks for the detections [k, ..., k + m - 1]. *)
Lemma create_tracks_seq detections m :
  forall k trks nid n,
    k + m <= length detections ->
    exists news,
      create_tracks clock trks nid detections (seq k m) n
        = Some ((trks ++ news, nid + m), n + m) /\
      id <$> news = seq nid m /\
      bbox <$> news = det_bbox <$> take m (drop k detections) /\
      last_update <$> news = clock <$> seq n m /\
      Forall fresh_track news.
Proof.
  induction m as [|m IH]; intros k trks nid n Hk.
  - exists []. simpl. rewrite app_nil_r, !Nat.add_0_r. auto.
  - destruct (lookup_lt_is_Some_2 detections k) as [d Hd]; [lia|].
    destruct (IH (S k) (trks ++ [ {| id := nid;
         kalman := KalmanFilter_init
                     [fst (det_center d); snd (det_center d); 0; 0]%float;
         age := 0; hits := 1; hit_streak := 1; time_since_update := 0;
         history := []; bbox := det_bbox d; confidence := det_confidence d;
         last_update := clock n |} ]) (nid + 1) (S n))
      as (news & E & Hids & Hbb & Hlu & Hfresh); [lia|].
    eexists (_ :: news). split; [|split; [|split; [|split]]].
    + cbn [seq create_tracks]. unfold bind at 1. rewrite Hd. cbn [lift ret].
      unfold bind at 1. unfold Track_init, bind, time_time. cbn [ret].
      rewrite E. rewrite <- app_assoc.
      replace (nid + 1 + m) with (nid + S m) by lia.
      replace (S n + m) with (n + S m) by lia. reflexivity.
    + cbn [fmap list_fmap seq id]. rewrite Hids.
      replace (nid + 1) with (S nid) by lia. reflexivity.
    + rewrite (drop_S _ _ _ Hd). cbn [take fmap list_fmap bbox]. f_equal. exact Hbb.
    + cbn [fmap list_fmap seq last_update]. f_equal. exact Hlu.
    + constructor; [|exact Hfresh]. unfold fresh_track. simpl. auto.
Qed.

Lemma filter_all {A} (P : A -> Prop) `{!forall x, Decision (P x)} (l : list A) :
  Forall P l -> filter P l = l.
Proof.
  induction 1 as [|x l Hx _ IH]; [reflexivity|].
  rewrite filter_cons_True by exact Hx. now rewrite IH.
Qed.

Lemma confirmed_none mh trks :
  Forall (fun t => hits t < mh) trks -> confirmed mh trks = ∅.
Proof.
  unfold confirmed. generalize (∅ : gmap nat TrackState).
  intros acc H. revert acc. induction H as [|t l Ht _ IH]; intros acc; [reflexivity|].
  simpl. destruct (Nat.leb_spec mh (hits t)); [lia|]. apply IH.
Qed.

(** X7.  On a tracker without tracks, [update(detections)] returns after
    one clock reading per detection, whatever the inverse and the solver
    are (neither is called): it creates one track per detection, in the
    order of the detections, with the ids [next_id, next_id + 1, ...], the
    box of its detection and the clock reading as [last_update]; every
    track is as [Track.__init__] leaves it; with [min_hits >= 2] the
    returned dictionary is empty. *)
Theorem update_on_empty_tracker s detections n :
  tracks s = [] -> 0 < max_age s ->
  exists out s',
    update linalg_inv linear_sum_assignment clock s detections n
      = Some ((out, s'), n + length detections) /\
    ids s' = seq (next_id s) (length detections) /\
    bbox <$> tracks s' = det_bbox <$> detections /\
    last_update <$> tracks s' = clock <$> seq n (length detections) /\
    Forall fresh_track (tracks s') /\
    next_id s' = next_id s + length detections /\
    (2 <= min_hits s -> out = ∅).
Proof.
  intros Htracks Hage.
  destruct (create_tracks_seq detections (length detections) 0 [] (next_id s) n)
    as (news & E & Hids & Hbb & Hlu & Hfresh); [lia|].
  rewrite drop_0, firstn_all in Hbb. simpl in E.
  assert (Hkeep : filter (fun t => Nat.ltb (time_since_update t) (max_age s) = true) news
                  = news).
  { apply filter_all. eapply Forall_impl; [exact Hfresh|].
    intros t (_ & _ & Ht & _). simpl. rewrite Ht. now apply Nat.ltb_lt. }
  exists (confirmed (min_hits s) news),
    {| tracks := news; next_id := next_id s + length detections;
       max_age := max_age s; min_hits := min_hits s; iou_threshold := iou_threshold s |}.
  split; [|split; [|split; [|split; [|split; [|split]]]]].
  - unfold update. rewrite Htracks. cbn [fmap list_fmap].
    unfold _associate_detections_to_tracks. cbn [length Nat.eqb lift ret].
    unfold bind, lift, ret. cbn [update_matched]. unfold ret.
    rewrite E, Hkeep. reflexivity.
  - exact Hids.
  - exact Hbb.
  - exact Hlu.
  - exact Hfresh.
  - reflexivity.
  - intros Hmin. apply confirmed_none. eapply Forall_impl; [exact Hfresh|].
    intros t (Hh & _). simpl. lia.
Qed.

(** *** [get_track_count] *)

Lemma confirmed_size mh trks :
  NoDup (id <$> trks) ->
  size (confirmed mh trks)
  = length (filter (fun t => Nat.leb mh (hits t) = true) trks).
Proof.
  induction trks as [|x l IH] using rev_ind; intros Hnd.
  - reflexivity.
  - rewrite fmap_app in Hnd. apply NoDup_app in Hnd as (Hl & Hx & _).
    unfold confirmed. rewrite foldl_snoc. fold (confirmed mh l).
    rewrite filter_app, length_app, <- (IH Hl).
    destruct (Nat.leb_spec mh (hits x)) as [Hle|Hlt].
    + rewrite filter_cons_True by (simpl; now apply Nat.leb_le).
      rewrite map_size_insert_None; [simpl; lia|].
      destruct (confirmed mh l !! id x) as [st|] eqn:E; [|reflexivity].
      apply confirmed_lookup in E as (t & Ht & Hid & _); [|exact Hl].
      exfalso. apply (Hx (id t)); [apply list_elem_of_fmap; eauto|].
      rewrite Hid. simpl. left.
    + rewrite filter_cons_False by (simpl; intros E; apply Nat.leb_le in E; lia).
      simpl. lia.
Qed.

(** X8.  After an invocation of [update] on a reachable tracker,
    [get_track_count()] is the number of entries of the dictionary that
    the invocation returned, and at most the number of active tracks. *)
Theorem track_count_is_size_of_output s detections out s' :
  reachable linalg_inv linear_sum_assignment clock s ->
  invocation linalg_inv linear_sum_assignment clock s detections out s' ->
  get_track_count s' = size out /\ get_track_count s' <= length (tracks s').
Proof.
  intros Hreach Hstep.
  pose proof (invariant_reachable _ _ _ _ Hreach) as I.
  pose proof (invariant_step _ _ _ _ _ _ _ I Hstep) as I'.
  pose proof (invocation_out _ _ _ _ _ _ _ Hstep) as ->.
  rewrite (inv_min_hits s I), <- (inv_min_hits s' I').
  unfold get_track_count. split.
  - symmetry. apply confirmed_size. exact (inv_nodup s' I').
  - apply length_filter.
Qed.

End Tracker_more.

Lemma diagonal_assignment_in_range : solver_in_range diagonal_assignment.
Proof.
  intros cost. unfold diagonal_assignment. cbn [fst snd].
  assert (H : forall base,
             (fold_right (fun row k => Nat.min (length row) k) base cost <= base)%nat /\
             forall row, row ∈ cost ->
               (fold_right (fun row k => Nat.min (length row) k) base cost <= length row)%nat).
  { intros base. induction cost as [|r c [IH1 IH2]]; simpl.
    - split; [lia|]. intros row Hrow. apply elem_of_nil in Hrow as [].
    - split; [lia|]. intros row Hrow. apply elem_of_cons in Hrow as [->|Hrow]; [lia|].
      specialize (IH2 row Hrow). lia. }
  destruct (H (length cost)) as [H1 H2]. split.
  - apply Forall_forall. intros t Ht. apply elem_of_seq in Ht. lia.
  - apply Forall_forall. intros d Hd row Hrow. apply elem_of_seq in Hd.
    specialize (H2 row Hrow). lia.
Qed.

(** ** The three lists of the association *)

Section Association_more.

Context `{fmt : BoxFormat}.
Context (linear_sum_assignment : list (list float) -> list nat * list nat).

Local Open Scope nat_scope.

Lemma not_in_true x a : not_in x a = true <-> ~ In x a.
Proof.
  unfold not_in. rewrite negb_true_iff, <- not_true_iff_false, existsb_exists.
  split; intros H Hin; apply H.
  - exists x. split; [exact Hin | apply Nat.eqb_refl].
  - destruct Hin as (y & Hy & E). apply Nat.eqb_eq in E. now subst y.
Qed.

(** The pairs that the threshold loop keeps are the assigned pairs whose
    IoU is above the threshold. *)
Lemma keep_matches_iff threshold iou_matrix pairs kept :
  keep_matches threshold iou_matrix pairs = Some kept ->
  forall t d,
    (t, d) ∈ kept <->
    (t, d) ∈ pairs /\
    exists iou, matrix_get iou_matrix t d = Some iou /\ (threshold <? iou)%float = true.
Proof.
  intros H t d. split; [apply (keep_matches_kept _ _ _ _ H)|].
  revert kept H. induction pairs as [|[t0 d0] rest IH]; intros kept H [Hin Hiou].
  - apply elem_of_nil in Hin as [].
  - cbn [keep_matches] in H.
    destruct (matrix_get iou_matrix t0 d0) as [iou0|] eqn:Eget; [|discriminate].
    cbn [mbind option_bind] in H.
    destruct (keep_matches threshold iou_matrix rest) as [kept'|]; [|discriminate].
    cbn [mbind option_bind] in H. apply (inj Some) in H. subst kept.
    apply elem_of_cons in Hin as [[= -> ->]|Hin].
    + destruct Hiou as (iou & Hget & Hlt). rewrite Eget in Hget.
      apply (inj Some) in Hget. subst iou0.
      rewrite Hlt. left.
    + specialize (IH kept' eq_refl (conj Hin Hiou)).
      destruct (threshold <? iou0)%float; [right|]; exact IH.
Qed.

(** X10.  With at least one track and one detection,
    [_associate_detections_to_tracks] returns as matched exactly the pairs
    of the solver's assignment whose entry of the float64 IoU matrix (the
    IoU computed in the format of the boxes) is above the threshold in the
    binary64 comparison, as unmatched detections exactly the detections that the solver did not
    assign, and as unmatched tracks exactly the tracks that it did not
    assign.  A detection or a track of an assigned pair that the threshold
    discards is therefore in none of the three lists. *)
Theorem unmatched_are_the_unassigned s detections predicted_tracks mt ud ut :
  predicted_tracks <> [] -> detections <> [] ->
  _associate_detections_to_tracks linear_sum_assignment s detections predicted_tracks
    = Some (mt, ud, ut) ->
  let iou_matrix :=
    (fun '(track, pred_pos) =>
       (fun detection => to_float64 (_calculate_iou (bbox track) (det_bbox detection)))
         <$> detections)
      <$> predicted_tracks in
  let matched_indices := linear_sum_assignment (map (map PrimFloat.opp) iou_matrix) in
  (forall t d,
      (t, d) ∈ mt <->
      (t, d) ∈ combine matched_indices.1 matched_indices.2 /\
      exists iou, matrix_get iou_matrix t d = Some iou /\
                  (iou_threshold s <? iou)%float = true) /\
  (forall d, d ∈ ud <-> d < length detections /\ ~ In d matched_indices.2) /\
  (forall t, t ∈ ut <-> t < length predicted_tracks /\ ~ In t matched_indices.1).
Proof.
  intros Hp Hd H iou_matrix matched_indices.
  unfold _associate_detections_to_tracks in H.
  destruct predicted_tracks as [|p ps]; [contradiction|].
  destruct detections as [|d0 ds]; [contradiction|].
  cbn [length Nat.eqb Nat.min Nat.ltb Nat.leb] in H. cbv zeta in H.
  fold iou_matrix in H. fold matched_indices in H.
  destruct (keep_matches (iou_threshold s) iou_matrix
              (combine matched_indices.1 matched_indices.2)) as [kept|] eqn:E;
    [|discriminate].
  cbn [mbind option_bind] in H. apply (inj Some) in H.
  apply pair_equal_spec in H as [H <-]. apply pair_equal_spec in H as [<- <-].
  split; [exact (keep_matches_iff _ _ _ _ E)|].
  split; intros i; rewrite list_elem_of_filter, not_in_true, elem_of_seq;
    intuition lia.
Qed.

End Association_more.

(** ** What [update] does to matched and unmatched tracks *)

Section Matched_tracks.

Context `{fmt : BoxFormat}.
Context (linalg_inv : matrix -> option matrix).
Context (linear_sum_assignment : list (list float) -> list nat * list nat).
Context (clock : nat -> float).

Local Open Scope nat_scope.

(** The fields that [Track.update] takes from the detection. *)
Lemma Track_update_detection t detection n t' n' :
  Track_update linalg_inv clock t detection n = Some (t', n') ->
  bbox t' = det_bbox detection /\ confidence t' = det_confidence detection /\
  last_update t' = clock n /\ n' = n + 2.
Proof.
  unfold Track_update. intros H.
  apply bind_Some in H as (k & n0 & Hk & H). apply lift_Some in Hk as [_ ->].
  apply bind_Some in H as (lu & n1 & Hlu & H). apply time_time_Some in Hlu as [-> ->].
  apply bind_Some in H as (ts & n2 & Hts & H). apply time_time_Some in Hts as [-> ->].
  simpl in H. injection H as <- <-. simpl. repeat split. lia.
Qed.

(** With distinct track indices, the loop over the matched pairs updates
    the track of every pair once, with the detection of the pair, and
    leaves the other tracks. *)
Lemma update_matched_lookup detections matched_tracks :
  forall trks n trks' n',
    update_matched linalg_inv clock trks detections matched_tracks n = Some (trks', n') ->
    NoDup matched_tracks.*1 ->
    (forall t d, (t, d) ∈ matched_tracks ->
       exists old det new n0 n1,
         trks !! t = Some old /\ detections !! d = Some det /\
         Track_update linalg_inv clock old det n0 = Some (new, n1) /\
         trks' !! t = Some new) /\
    (forall t, t ∉ matched_tracks.*1 -> trks' !! t = trks !! t).
Proof.
  induction matched_tracks as [|[t0 d0] rest IH]; intros trks n trks' n' H Hnd.
  - simpl in H. injection H as <- _. split; [|auto].
    intros t d Hin. apply elem_of_nil in Hin as [].
  - cbn [update_matched] in H.
    apply bind_Some in H as (track & n0 & Ht & H). apply lift_Some in Ht as [Ht ->].
    apply bind_Some in H as (det & n1 & Hd & H). apply lift_Some in Hd as [Hd ->].
    apply bind_Some in H as (track' & n2 & Hu & H).
    rewrite fmap_cons in Hnd. apply NoDup_cons in Hnd as [Ht0 Hnd]. cbn [fst] in Ht0.
    destruct (IH _ _ _ _ H Hnd) as [IH1 IH2].
    assert (Hnew : trks' !! t0 = Some track').
    { rewrite (IH2 t0 Ht0). apply list_lookup_insert_eq. eapply lookup_lt_Some, Ht. }
    split.
    + intros t d Hin. apply elem_of_cons in Hin as [[= -> ->]|Hin].
      * exists track, det, track', n, n2. auto.
      * destruct (IH1 t d Hin) as (old & det' & new & m0 & m1 & Hold & Hdet & Hupd & Hlook).
        assert (Hne : t0 <> t).
        { intros ->. apply Ht0. apply list_elem_of_fmap. exists (t, d). auto. }
        rewrite list_lookup_insert_ne in Hold by exact Hne.
        exists old, det', new, m0, m1. auto.
    + intros t Hnot. rewrite fmap_cons, not_elem_of_cons in Hnot. destruct Hnot as [Hne Hnot].
      rewrite (IH2 t Hnot). apply list_lookup_insert_ne. cbn [fst] in Hne. congruence.
Qed.

(** X12.  When the solver assigns every track at most once, an invocation
    of [update] that keeps the pairs [matched_tracks] gives the track of
    each pair the box and the confidence of its detection, one more hit,
    [time_since_update = 0] and one more frame of age, under the same id,
    and keeps it active.  A track that is in no kept pair is only
    predicted: it stays active, with the same box and hits, exactly when
    its new [time_since_update] is below [max_age]. *)
Theorem matched_track_takes_detection s detections n out s' n' mt ud ut :
  update linalg_inv linear_sum_assignment clock s detections n = Some ((out, s'), n') ->
  _associate_detections_to_tracks linear_sum_assignment s detections
    (Track_predict <$> tracks s) = Some (mt, ud, ut) ->
  NoDup mt.*1 ->
  0 < max_age s ->
  (forall t d, (t, d) ∈ mt ->
     exists old det new,
       tracks s !! t = Some old /\ detections !! d = Some det /\ new ∈ tracks s' /\
       id new = id old /\ bbox new = det_bbox det /\
       confidence new = det_confidence det /\
       hits new = hits old + 1 /\ hit_streak new = hit_streak old + 1 /\
       time_since_update new = 0 /\ age new = age old + 1) /\
  (forall t old, tracks s !! t = Some old -> t ∉ mt.*1 ->
     ((Track_predict old).1 ∈ tracks s' <-> time_since_update old + 1 < max_age s) /\
     bbox (Track_predict old).1 = bbox old /\ hits (Track_predict old).1 = hits old).
Proof.
  intros H Hassoc Hnd Hage. unfold update in H. rewrite Hassoc in H.
  apply bind_Some in H as (a & n0 & Ha & H). simpl in Ha. injection Ha as <- <-.
  apply bind_Some in H as (tracks1 & n1 & H1 & H).
  apply bind_Some in H as ([tracks2 nid] & n2 & H2 & H).
  simpl in H. injection H as _ <- _. cbn [tracks].
  apply create_tracks_Some in H2 as (news & -> & _).
  destruct (update_matched_lookup _ _ _ _ _ _ H1 Hnd) as [Hm Hu].
  assert (Hpred : forall t, (fst <$> (Track_predict <$> tracks s)) !! t
                            = (fun old => (Track_predict old).1) <$> tracks s !! t).
  { intros t. rewrite !list_lookup_fmap. now destruct (tracks s !! t). }
  split.
  - intros t d Hin.
    destruct (Hm t d Hin) as (old0 & det & new & m0 & m1 & Hold & Hdet & Hupd & Hnew).
    rewrite Hpred in Hold. destruct (tracks s !! t) as [old|] eqn:Eold; [|discriminate].
    cbn [fmap option_fmap option_map] in Hold. apply (inj Some) in Hold. subst old0.
    destruct (Track_predict_fst old) as (Pid & Ph & Ps & _ & Pa & _).
    destruct (Track_update_Some _ _ _ _ _ _ _ Hupd) as (Uid & Uh & Us & Ut & Ua & _).
    destruct (Track_update_detection _ _ _ _ _ Hupd) as (Ub & Uc & _).
    exists old, det, new. split; [reflexivity|]. split; [exact Hdet|].
    split.
    { apply list_elem_of_filter. split; [rewrite Ut; now apply Nat.ltb_lt|].
      apply elem_of_app. left. eapply list_elem_of_lookup_2, Hnew. }
    rewrite Uid, Uh, Us, Ua, Pid, Ph, Ps, Pa. auto 10.
  - intros t old Hold Hnot.
    destruct (Track_predict_fst old) as (Pid & Ph & _ & Pt & _ & _ & Pb).
    split; [|auto]. rewrite list_elem_of_filter, Pt, Nat.ltb_lt. split; [tauto|].
    intros Hlt. split; [exact Hlt|]. apply elem_of_app. left.
    apply (list_elem_of_lookup_2 _ t). rewrite (Hu t Hnot), Hpred, Hold. reflexivity.
Qed.

End Matched_tracks.

Lemma matched_track_takes_detection_witness :
  let s := (after_frames [two_objects]).1 in
  let n := (after_frames [two_objects]).2 in
  let out := output_after [two_objects] two_objects in
  let s' := (after_frames [two_objects; two_objects]).1 in
  let n' := (after_frames [two_objects; two_objects]).2 in
  let mt := [(0, 0); (1, 1)]%nat in
  update inv_2x2 exhaustive_assignment ticking_clock s two_objects n = Some ((out, s'), n') /\
  _associate_detections_to_tracks exhaustive_assignment s two_objects
    (Track_predict <$> tracks s) = Some (mt, [], []) /\
  NoDup mt.*1 /\
  (0 < max_age s)%nat /\
  ((forall t d, (t, d) ∈ mt ->
      exists old det new,
        tracks s !! t = Some old /\ two_objects !! d = Some det /\ new ∈ tracks s' /\
        id new = id old /\ bbox new = det_bbox det /\
        confidence new = det_confidence det /\
        hits new = (hits old + 1)%nat /\ hit_streak new = (hit_streak old + 1)%nat /\
        time_since_update new = 0%nat /\ age new = (age old + 1)%nat) /\
   (forall t old, tracks s !! t = Some old -> t ∉ mt.*1 ->
      ((Track_predict old).1 ∈ tracks s' <-> (time_since_update old + 1 < max_age s)%nat) /\
      bbox (Track_predict old).1 = bbox old /\ hits (Track_predict old).1 = hits old)).
Proof.
  intros s n out s' n' mt.
  assert (Hupd : update inv_2x2 exhaustive_assignment ticking_clock s two_objects n
                 = Some ((out, s'), n')) by (vm_compute; reflexivity).
  assert (Hassoc : _associate_detections_to_tracks exhaustive_assignment s two_objects
                     (Track_predict <$> tracks s) = Some (mt, [], []))
    by (vm_compute; reflexivity).
  assert (Hnd : NoDup mt.*1).
  { simpl. apply NoDup_cons. split; [|apply NoDup_singleton].
    intros Hin. apply list_elem_of_singleton in Hin. discriminate. }
  assert (Hage : (0 < max_age s)%nat) by (vm_compute; lia).
  split; [exact Hupd|]. split; [exact Hassoc|]. split; [exact Hnd|]. split; [exact Hage|].
  exact (matched_track_takes_detection inv_2x2 exhaustive_assignment ticking_clock
           s two_objects n out s' n' mt [] [] Hupd Hassoc Hnd Hage).
Defined.

Lemma unmatched_are_the_unassigned_witness :
  let s := (after_frames [[create_mock_detection 100 100]]).1 in
  let detections := [create_mock_detection 500 500] in
  let predicted_tracks := Track_predict <$> tracks s in
  let iou_matrix :=
    (fun '(track, pred_pos) =>
       (fun detection => to_float64 (_calculate_iou (bbox track) (det_bbox detection)))
         <$> detections)
      <$> predicted_tracks in
  let matched_indices := exhaustive_assignment (map (map PrimFloat.opp) iou_matrix) in
  predicted_tracks <> [] /\ detections <> [] /\
  _associate_detections_to_tracks exhaustive_assignment s detections predicted_tracks
    = Some ([], [], []) /\
  matched_indices = ([0], [0])%nat /\
  ((forall t d,
       (t, d) ∈ ([] : list (nat * nat)) <->
       (t, d) ∈ combine matched_indices.1 matched_indices.2 /\
       exists iou, matrix_get iou_matrix t d = Some iou /\
                   (iou_threshold s <? iou)%float = true) /\
   (forall d, d ∈ ([] : list nat) <->
              (d < length detections)%nat /\ ~ In d matched_indices.2) /\
   (forall t, t ∈ ([] : list nat) <->
              (t < length predicted_tracks)%nat /\ ~ In t matched_indices.1)).
Proof.
  intros s detections predicted_tracks iou_matrix matched_indices.
  assert (Hp : predicted_tracks <> []) by (vm_compute; discriminate).
  assert (Hd : detections <> []) by discriminate.
  assert (Hassoc :
    _associate_detections_to_tracks exhaustive_assignment s detections predicted_tracks
      = Some ([], [], [])) by (vm_compute; reflexivity).
  split; [exact Hp|]. split; [exact Hd|]. split; [exact Hassoc|].
  split; [vm_compute; reflexivity|].
  exact (unmatched_are_the_unassigned exhaustive_assignment s detections predicted_tracks
           _ _ _ Hp Hd Hassoc).
Defined.

(** ** The arrays of the Kalman filter keep their shapes *)

Section Shapes.

Local Open Scope nat_scope.

Lemma has_shape_map {A} r c (f : A -> vec) (l : list A) :
  length l = r -> (forall x, x ∈ l -> length (f x) = c) -> has_shape r c (map f l).
Proof.
  intros Hl Hf. split; [now rewrite length_map|].
  apply Forall_forall. intros row Hrow.
  apply list_elem_of_In, in_map_iff in Hrow as (x & <- & Hx).
  apply Hf, list_elem_of_In, Hx.
Qed.

Lemma mat_vec_length A v : length (mat_vec A v) = length A.
Proof. apply length_map. Qed.

Lemma transpose_shape r c A : 0 < r -> has_shape r c A -> has_shape c r (transpose A).
Proof.
  intros Hr [Hlen Hrows]. destruct A as [|row A]; [simpl in Hlen; lia|].
  unfold transpose. apply has_shape_map.
  - rewrite length_seq. exact (Forall_inv Hrows).
  - intros j _. now rewrite length_map.
Qed.

Lemma mat_mul_shape r k c A B :
  0 < k -> has_shape r k A -> has_shape k c B -> has_shape r c (mat_mul A B).
Proof.
  intros Hk [HA _] HB. unfold mat_mul. apply has_shape_map; [exact HA|].
  intros row _. rewrite length_map. exact (proj1 (transpose_shape k c B Hk HB)).
Qed.

Lemma zip_with_shape (f : vec -> vec -> vec) r c A B :
  (forall u v, length u = c -> length v = c -> length (f u v) = c) ->
  has_shape r c A -> has_shape r c B -> has_shape r c (zip_with f A B).
Proof.
  intros Hf [HA HrA] [HB HrB]. split; [rewrite length_zip_with; lia|].
  clear HA HB. revert B HrB. induction HrA as [|u A Hu _ IH]; intros B HrB; [constructor|].
  destruct HrB as [|v B Hv HrB]; [constructor|].
  simpl. constructor; [apply Hf; assumption | apply IH, HrB].
Qed.

Lemma mat_add_shape r c A B :
  has_shape r c A -> has_shape r c B -> has_shape r c (mat_add A B).
Proof.
  apply zip_with_shape. intros u v Hu Hv. unfold vec_add. rewrite length_zip_with. lia.
Qed.

Lemma mat_sub_shape r c A B :
  has_shape r c A -> has_shape r c B -> has_shape r c (mat_sub A B).
Proof.
  apply zip_with_shape. intros u v Hu Hv. unfold vec_sub. rewrite length_zip_with. lia.
Qed.

Lemma eye_shape n : has_shape n n (eye n).
Proof.
  unfold eye. apply has_shape_map; [apply length_seq|].
  intros i _. now rewrite length_map, length_seq.
Qed.

Lemma mat_scale_shape r c A x : has_shape r c A -> has_shape r c (mat_scale A x).
Proof.
  intros [HA Hrows]. unfold mat_scale. apply has_shape_map; [exact HA|].
  intros row Hrow. rewrite length_map. exact (proj1 (Forall_forall _ _) Hrows row Hrow).
Qed.

Lemma KalmanFilter_init_shape x y vx vy : well_shaped (KalmanFilter_init [x; y; vx; vy]).
Proof.
  unfold well_shaped, KalmanFilter_init. cbn [state covariance kF kH kQ kR].
  split; [reflexivity|]. split; [apply mat_scale_shape, eye_shape|].
  split; [split; [reflexivity | repeat constructor]|].
  split; [split; [reflexivity | repeat constructor]|].
  split; apply mat_scale_shape, eye_shape.
Qed.

Lemma KalmanFilter_predict_shape k :
  well_shaped k -> well_shaped (KalmanFilter_predict k).1.
Proof.
  intros (Hs & HP & HF & HH & HQ & HR).
  unfold well_shaped, KalmanFilter_predict. cbn [fst state covariance kF kH kQ kR].
  split; [rewrite mat_vec_length; exact (proj1 HF)|].
  split; [|auto].
  apply mat_add_shape; [|exact HQ].
  apply (mat_mul_shape 4 4 4); [lia| |apply (transpose_shape 4 4); [lia|exact HF]].
  apply (mat_mul_shape 4 4 4); [lia|exact HF|exact HP].
Qed.

Lemma KalmanFilter_update_shape linalg_inv k measurement k' :
  (forall m m', has_shape 2 2 m -> linalg_inv m = Some m' -> has_shape 2 2 m') ->
  well_shaped k -> length measurement = 2 ->
  KalmanFilter_update linalg_inv k measurement = Some k' ->
  well_shaped k'.
Proof.
  intros Hinv (Hs & HP & HF & HH & HQ & HR) Hm. unfold KalmanFilter_update.
  set (S := mat_add (mat_mul (mat_mul (kH k) (covariance k)) (transpose (kH k))) (kR k)).
  assert (HS : has_shape 2 2 S).
  { apply mat_add_shape; [|exact HR].
    apply (mat_mul_shape 2 4 2); [lia| |apply (transpose_shape 2 4); [lia|exact HH]].
    apply (mat_mul_shape 2 4 4); [lia|exact HH|exact HP]. }
  destruct (linalg_inv S) as [Sinv|] eqn:E; [|discriminate].
  specialize (Hinv S Sinv HS E). cbn [mbind option_bind].
  intros H. apply (inj Some) in H. subst k'.
  assert (HK : has_shape 4 2
                 (mat_mul (mat_mul (covariance k) (transpose (kH k))) Sinv)).
  { apply (mat_mul_shape 4 2 2); [lia| |exact Hinv].
    apply (mat_mul_shape 4 4 2); [lia|exact HP|].
    apply (transpose_shape 2 4); [lia|exact HH]. }
  unfold well_shaped. cbn [state covariance kF kH kQ kR].
  split.
  - unfold vec_add. rewrite length_zip_with, mat_vec_length, (proj1 HK). lia.
  - split; [|auto].
    apply (mat_mul_shape 4 4 4); [lia| |exact HP].
    apply mat_sub_shape; [apply eye_shape|].
    apply (mat_mul_shape 4 2 4); [lia|exact HK|exact HH].
Qed.

End Shapes.

Section Shapes_of_tracks.

Context `{fmt : BoxFormat}.
Context (linalg_inv : matrix -> option matrix).
Context (linear_sum_assignment : list (list float) -> list nat * list nat).
Context (clock : nat -> float).

(** X13.  If the inverse of a 2 x 2 matrix is a 2 x 2 matrix, the filter
    of every track of a reachable tracker holds a state of 4 entries, a
    4 x 4 covariance and the matrices of [__init__] (4 x 4, 2 x 4, 4 x 4
    and 2 x 2), and the [center] and [velocity] of [get_state] are the
    four entries of the state. *)
Theorem kalman_shapes_preserved s t :
  (forall m m', has_shape 2 2 m -> linalg_inv m = Some m' -> has_shape 2 2 m') ->
  reachable linalg_inv linear_sum_assignment clock s ->
  t ∈ tracks s ->
  well_shaped (kalman t) /\
  exists x y vx vy,
    state (kalman t) = [x; y; vx; vy] /\
    s_center (get_state t) = (x, y) /\ s_velocity (get_state t) = (vx, vy).
Proof.
  intros Hinv Hreach Ht.
  assert (H : Forall (fun t => well_shaped (kalman t)) (tracks s)).
  { apply (reachable_tracks_Forall linalg_inv linear_sum_assignment clock);
      [| | |exact Hreach].
    - intros detection track_id n t0 n' H. unfold Track_init in H.
      apply bind_Some in H as (now & n1 & _ & H). simpl in H. injection H as <- _.
      apply KalmanFilter_init_shape.
    - intros t0 H0. unfold Track_predict.
      pose proof (KalmanFilter_predict_shape _ H0) as H1.
      destruct (KalmanFilter_predict (kalman t0)) as [k' pos]. exact H1.
    - intros t0 detection n t' n' H0 H. unfold Track_update in H.
      apply bind_Some in H as (k' & n1 & Hk & H). apply lift_Some in Hk as [Hk ->].
      apply bind_Some in H as (lu & n2 & _ & H).
      apply bind_Some in H as (ts & n3 & _ & H).
      simpl in H. injection H as <- _. cbn [kalman].
      eapply KalmanFilter_update_shape; [exact Hinv|exact H0| |exact Hk]. reflexivity. }
  pose proof (proj1 (Forall_forall _ _) H t Ht) as Hw. split; [exact Hw|].
  destruct Hw as (Hs & _). unfold get_state. cbn [s_center s_velocity].
  destruct (state (kalman t)) as [|x [|y [|vx [|vy [|]]]]]; try discriminate.
  exists x, y, vx, vy. auto.
Qed.

End Shapes_of_tracks.

Lemma inv_2x2_shape m m' : has_shape 2 2 m -> inv_2x2 m = Some m' -> has_shape 2 2 m'.
Proof.
  intros _ H. unfold inv_2x2 in H.
  destruct m as [|[|a [|b [|]]] [|[|c [|d [|]]] [|]]]; try discriminate.
  destruct (_ =? _)%float; [discriminate|]. injection H as <-.
  split; [reflexivity | repeat constructor].
Qed.

Lemma kalman_shapes_preserved_witness :
  let s := (after_frames [two_objects; two_objects]).1 in
  exists t,
    (forall m m', has_shape 2 2 m -> inv_2x2 m = Some m' -> has_shape 2 2 m') /\
    reachable inv_2x2 exhaustive_assignment ticking_clock s /\
    t ∈ tracks s /\
    (well_shaped (kalman t) /\
     exists x y vx vy,
       state (kalman t) = [x; y; vx; vy] /\
       s_center (get_state t) = (x, y) /\ s_velocity (get_state t) = (vx, vy)).
Proof.
  intros s.
  assert (Hreach : reachable inv_2x2 exhaustive_assignment ticking_clock s).
  { apply after_frames_reachable. vm_compute. reflexivity. }
  assert (Ht : exists t, tracks s !! 0%nat = Some t).
  { vm_compute. eexists. reflexivity. }
  destruct Ht as (t & Ht). exists t.
  assert (Hin : t ∈ tracks s) by (eapply list_elem_of_lookup_2; exact Ht).
  split; [exact inv_2x2_shape|]. split; [exact Hreach|]. split; [exact Hin|].
  exact (kalman_shapes_preserved inv_2x2 exhaustive_assignment ticking_clock s t
           inv_2x2_shape Hreach Hin).
Defined.

(** *** The further properties on the frames of test_system.py *)

Lemma reachable_track_bounds_witness :
  let s := (after_frames [two_objects; two_objects]).1 in
  exists t,
    reachable inv_2x2 exhaustive_assignment ticking_clock s /\
    t ∈ tracks s /\ hits t = 2%nat /\
    (1 <= hits t /\ length (history t) = Nat.min (hits t - 1) 30 /\
     time_since_update t <= age t /\ time_since_update t < 30)%nat.
Proof.
  intros s.
  assert (Hreach : reachable inv_2x2 exhaustive_assignment ticking_clock s).
  { apply after_frames_reachable. vm_compute. reflexivity. }
  assert (Ht : exists t, tracks s !! 0%nat = Some t /\ hits t = 2%nat).
  { vm_compute. eexists. split; reflexivity. }
  destruct Ht as (t & Ht & Hhits). exists t.
  assert (Hin : t ∈ tracks s) by (eapply list_elem_of_lookup_2; exact Ht).
  split; [exact Hreach|]. split; [exact Hin|]. split; [exact Hhits|].
  exact (reachable_track_bounds _ _ _ s t Hreach Hin).
Defined.

Lemma ids_increasing_witness :
  let s := (after_frames [two_objects; two_objects]).1 in
  reachable inv_2x2 exhaustive_assignment ticking_clock s /\
  ids s = [1; 2]%nat /\ next_id s = 3%nat /\
  (StronglySorted lt (ids s) /\
   Forall (fun i => 1 <= i < next_id s)%nat (ids s) /\
   (length (tracks s) < next_id s)%nat).
Proof.
  intros s.
  assert (Hreach : reachable inv_2x2 exhaustive_assignment ticking_clock s).
  { apply after_frames_reachable. vm_compute. reflexivity. }
  split; [exact Hreach|]. split; [vm_compute; reflexivity|].
  split; [vm_compute; reflexivity|].
  exact (ids_increasing _ _ _ s Hreach).
Defined.

Lemma update_on_empty_tracker_witness :
  let s := ObjectTracker_init in
  tracks s = [] /\ (0 < max_age s)%nat /\
  exists out s',
    update inv_2x2 exhaustive_assignment ticking_clock s two_objects 0%nat
      = Some ((out, s'), (0 + length two_objects)%nat) /\
    ids s' = seq (next_id s) (length two_objects) /\
    bbox <$> tracks s' = det_bbox <$> two_objects /\
    last_update <$> tracks s' = ticking_clock <$> seq 0%nat (length two_objects) /\
    Forall fresh_track (tracks s') /\
    next_id s' = (next_id s + length two_objects)%nat /\
    ((2 <= min_hits s)%nat -> out = ∅).
Proof.
  intros s.
  assert (Htracks : tracks s = []) by reflexivity.
  assert (Hage : (0 < max_age s)%nat) by (simpl; lia).
  split; [exact Htracks|]. split; [exact Hage|].
  exact (update_on_empty_tracker inv_2x2 exhaustive_assignment ticking_clock
           s two_objects 0%nat Htracks Hage).
Defined.

Lemma track_count_is_size_of_output_witness :
  let s := (after_frames [two_objects; two_objects]).1 in
  let out := output_after [two_objects; two_objects] two_objects in
  let s' := (after_frames [two_objects; two_objects; two_objects]).1 in
  reachable inv_2x2 exhaustive_assignment ticking_clock s /\
  invocation inv_2x2 exhaustive_assignment ticking_clock s two_objects out s' /\
  get_track_count s' = 2%nat /\
  (get_track_count s' = size out /\ (get_track_count s' <= length (tracks s'))%nat).
Proof.
  intros s out s'.
  assert (Hreach : reachable inv_2x2 exhaustive_assignment ticking_clock s).
  { apply after_frames_reachable. vm_compute. reflexivity. }
  assert (Hstep : invocation inv_2x2 exhaustive_assignment ticking_clock s two_objects out s').
  { exists (after_frames [two_objects; two_objects]).2,
           (after_frames [two_objects; two_objects; two_objects]).2.
    vm_compute. reflexivity. }
  split; [exact Hreach|]. split; [exact Hstep|]. split; [vm_compute; reflexivity|].
  exact (track_count_is_size_of_output _ _ _ s two_objects out s' Hreach Hstep).
Defined.

Lemma matched_pairs_above_threshold_witness :
  let s := (after_frames [two_objects]).1 in
  let predicted_tracks := Track_predict <$> tracks s in
  _associate_detections_to_tracks exhaustive_assignment s two_objects predicted_tracks
    = Some ([(0, 0); (1, 1)]%nat, [], []) /\
  (1, 1)%nat ∈ [(0, 0); (1, 1)]%nat /\
  exists track pred_pos detection,
    predicted_tracks !! 1%nat = Some (track, pred_pos) /\
    two_objects !! 1%nat = Some detection /\
    (iou_threshold s
       <? to_float64 (_calculate_iou (bbox track) (det_bbox detection)))%float = true.
Proof.
  intros s predicted_tracks.
  assert (Hassoc :
    _associate_detections_to_tracks exhaustive_assignment s two_objects predicted_tracks
      = Some ([(0, 0); (1, 1)]%nat, [], [])) by (vm_compute; reflexivity).
  assert (Hin : (1, 1)%nat ∈ [(0, 0); (1, 1)]%nat) by (right; left).
  split; [exact Hassoc|]. split; [exact Hin|].
  exact (matched_pairs_above_threshold exhaustive_assignment s two_objects predicted_tracks
           _ _ _ Hassoc 1%nat 1%nat Hin).
Defined.

Lemma update_returns_witness :
  (forall m, is_Some (inv_or_same m)) /\
  solver_in_range diagonal_assignment /\
  exists out s' n',
    update inv_or_same diagonal_assignment ticking_clock
           (after_frames [two_objects]).1 two_objects 2%nat
      = Some ((out, s'), n').
Proof.
  assert (Hinv : forall m, is_Some (inv_or_same m)) by (intros m; eexists; reflexivity).
  split; [exact Hinv|]. split; [exact diagonal_assignment_in_range|].
  exact (update_returns inv_or_same diagonal_assignment ticking_clock
           (after_frames [two_objects]).1 two_objects 2%nat Hinv diagonal_assignment_in_range).
Defined.
(** ** The predictor *)

Local Open Scope float_scope.

Lemma ltb_irrefl x : (x <? x) = false.
Proof. destruct (x <? x) eqn:E; [|reflexivity]. rewrite <- E. now apply ltb_asym. Qed.

Lemma first_positive_sort_two (l : list (float * float * float)) :
  (length l <= 2)%nat ->
  match first_positive (sort_by_t l) with
  | Some p =>
      exists t, In (p, t) l /\ (0 <? t) = true /\
                forall p' t', In (p', t') l -> (0 <? t') = true -> (t' <? t) = false
  | None => forall p' t', In (p', t') l -> (0 <? t') = false
  end.
Proof.
  unfold sort_by_t.
  destruct l as [|[[xa ya] ta] [|[[xb yb] tb] [|c l]]]; simpl; intros Hlen; [|clear Hlen..|lia].
  - intros p' t' [].
  - destruct (0 <? ta) eqn:Ea.
    + exists ta. split; [auto|]. split; [exact Ea|].
      intros p' t' [[= <- <-]|[]] _. apply ltb_irrefl.
    + intros p' t' [[= <- <-]|[]]. exact Ea.
  - destruct (tb <? ta) eqn:Eba; simpl.
    + destruct (0 <? tb) eqn:Eb.
      * exists tb. split; [auto|]. split; [exact Eb|].
        intros p' t' [[= <- <-]|[[= <- <-]|[]]] _;
          [now apply ltb_asym | apply ltb_irrefl].
      * destruct (0 <? ta) eqn:Ea.
        -- exists ta. split; [auto|]. split; [exact Ea|].
           intros p' t' [[= <- <-]|[[= <- <-]|[]]] Hpos;
             [apply ltb_irrefl | congruence].
        -- intros p' t' [[= <- <-]|[[= <- <-]|[]]]; assumption.
    + destruct (0 <? ta) eqn:Ea.
      * exists ta. split; [auto|]. split; [exact Ea|].
        intros p' t' [[= <- <-]|[[= <- <-]|[]]] _;
          [apply ltb_irrefl | exact Eba].
      * destruct (0 <? tb) eqn:Eb.
        -- exists tb. split; [auto|]. split; [exact Eb|].
           intros p' t' [[= <- <-]|[[= <- <-]|[]]] Hpos;
             [congruence | apply ltb_irrefl].
        -- intros p' t' [[= <- <-]|[[= <- <-]|[]]]; assumption.
Qed.

(** [_calculate_impact_point] with its candidate list written at once. *)
Lemma impact_point_unfold self x y vx vy :
  _calculate_impact_point self (x, y) (vx, vy) =
  if (abs vx <? 1e-6) && (abs vy <? 1e-6) then (x, y)
  else
    let w := fst (frame_bounds self) in
    let h := snd (frame_bounds self) in
    let tl := - x / vx in
    let tr := (w - x) / vx in
    let tt := - y / vy in
    let tb := (h - y) / vy in
    match first_positive (sort_by_t (
      candidate ((vx <? 0) && ((0 <=? y + vy * tl) && (y + vy * tl <=? h))) (0, y + vy * tl, tl) ++
      candidate ((0 <? vx) && ((0 <=? y + vy * tr) && (y + vy * tr <=? h))) (w, y + vy * tr, tr) ++
      candidate ((vy <? 0) && ((0 <=? x + vx * tt) && (x + vx * tt <=? w))) (x + vx * tt, 0, tt) ++
      candidate ((0 <? vy) && ((0 <=? x + vx * tb) && (x + vx * tb <=? w))) (x + vx * tb, h, tb)))
    with
    | Some p => p
    | None => (x + vx * 2.0, y + vy * 2.0)
    end.
Proof.
  unfold _calculate_impact_point, candidate. cbv zeta.
  destruct ((abs vx <? 1e-6) && (abs vy <? 1e-6)); [reflexivity|].
  destruct (vx <? 0), (0 <? vx), (vy <? 0), (0 <? vy); cbn [andb];
    repeat match goal with
      | |- context [(0 <=? ?a) && (?a <=? ?b)] => destruct ((0 <=? a) && (a <=? b))
      end; reflexivity.
Qed.

Lemma In_candidate cond c c' : In c' (candidate cond c) <-> cond = true /\ c' = c.
Proof.
  unfold candidate. destruct cond; simpl; split.
  - intros [<-|[]]. auto.
  - intros [_ ->]. auto.
  - intros [].
  - intros [[=] _].
Qed.

(** The case of a velocity that is not negligible. *)
Lemma impact_point_moving self position velocity :
  (abs (fst velocity) <? 1e-6) && (abs (snd velocity) <? 1e-6) = false ->
  let p := _calculate_impact_point self position velocity in
  (exists t, crossing self position velocity p t /\ (0 <? t) = true /\
             forall p' t', crossing self position velocity p' t' ->
                           (0 <? t') = true -> (t' <? t) = false) \/
  (p = (fst position + fst velocity * 2.0, snd position + snd velocity * 2.0) /\
   forall p' t', crossing self position velocity p' t' -> (0 <? t') = false).
Proof.
  destruct position as [x y], velocity as [vx vy]. cbn [fst snd]. intros Hmove. cbv zeta.
  rewrite impact_point_unfold, Hmove. cbv zeta.
  set (w := fst (frame_bounds self)). set (h := snd (frame_bounds self)).
  match goal with
  | |- context [sort_by_t ?l] => set (cands := l)
  end.
  assert (Hcross : forall p' t', crossing self (x, y) (vx, vy) p' t' <-> In (p', t') cands).
  { intros [px py] t'. unfold crossing, cands. fold w h. cbn [fst snd].
    rewrite !in_app_iff, !In_candidate, !andb_true_iff. split.
    - intros [(H1 & -> & [= -> ->] & H2)|[(H1 & -> & [= -> ->] & H2)
             |[(H1 & -> & [= -> ->] & H2)|(H1 & -> & [= -> ->] & H2)]]];
        auto 10.
    - intros [([H1 H2] & [= -> -> ->])|[([H1 H2] & [= -> -> ->])
             |[([H1 H2] & [= -> -> ->])|([H1 H2] & [= -> -> ->])]]];
        [left | right; left | right; right; left | right; right; right];
        (split; [exact H1|]); (split; [reflexivity|]); (split; [reflexivity|]);
        exact H2. }
  assert (Hlen : (length cands <= 2)%nat).
  { unfold cands, candidate. rewrite !length_app.
    destruct (vx <? 0) eqn:E1; [rewrite (ltb_asym _ _ E1)|];
      (destruct (vy <? 0) eqn:E2; [rewrite (ltb_asym _ _ E2)|]);
      cbn [andb];
      repeat match goal with
        | |- context [if ?b then _ else _] => destruct b
        end; simpl; lia. }
  pose proof (first_positive_sort_two cands Hlen) as H.
  destruct (first_positive (sort_by_t cands)) as [p|].
  - left. destruct H as (t & Hin & Hpos & Hmin). exists t.
    split; [apply Hcross, Hin|]. split; [exact Hpos|].
    intros p' t' Hc. apply (Hmin p'), Hcross, Hc.
  - right. split; [reflexivity|]. intros p' t' Hc. apply (H p'), Hcross, Hc.
Qed.

(** X16.  [_calculate_impact_point] returns the position itself when both
    velocity components are below 1e-6 in absolute value.  Otherwise it
    returns the earliest crossing of a frame edge that lies ahead: a point
    on the line of an edge towards which the object moves, within the
    extent of that edge, reached at a time [t > 0], and no other such
    crossing has a smaller positive time; when no crossing has a positive
    time it returns the position extrapolated by 2 s. *)
Theorem impact_point_is_earliest_crossing self position velocity :
  let p := _calculate_impact_point self position velocity in
  if (abs (fst velocity) <? 1e-6) && (abs (snd velocity) <? 1e-6) then p = position
  else
    (exists t, crossing self position velocity p t /\ (0 <? t) = true /\
               forall p' t', crossing self position velocity p' t' ->
                             (0 <? t') = true -> (t' <? t) = false) \/
    (p = (fst position + fst velocity * 2.0, snd position + snd velocity * 2.0) /\
     forall p' t', crossing self position velocity p' t' -> (0 <? t') = false).
Proof.
  cbv zeta.
  destruct ((abs (fst velocity) <? 1e-6) && (abs (snd velocity) <? 1e-6)) eqn:Hmove.
  - destruct position as [x y], velocity as [vx vy]. cbn [fst snd] in Hmove.
    rewrite impact_point_unfold, Hmove. reflexivity.
  - apply impact_point_moving, Hmove.
Qed.

Lemma impact_point_is_earliest_crossing_witness :
  let self := TrajectoryPredictor_init in
  let position := (640, 360) in
  let velocity := (10, 0) in
  (abs (fst velocity) <? 1e-6) && (abs (snd velocity) <? 1e-6) = false /\
  _calculate_impact_point self position velocity = (1280, 360) /\
  ((exists t, crossing self position velocity
                (_calculate_impact_point self position velocity) t /\
              (0 <? t) = true /\
              forall p' t', crossing self position velocity p' t' ->
                            (0 <? t') = true -> (t' <? t) = false) \/
   (_calculate_impact_point self position velocity
      = (fst position + fst velocity * 2.0, snd position + snd velocity * 2.0) /\
    forall p' t', crossing self position velocity p' t' -> (0 <? t') = false)).
Proof.
  intros self position velocity.
  assert (Hmove : (abs (fst velocity) <? 1e-6) && (abs (snd velocity) <? 1e-6) = false)
    by reflexivity.
  split; [exact Hmove|]. split; [vm_compute; reflexivity|].
  exact (impact_point_is_earliest_crossing self position velocity).
Defined.

Lemma predict_trajectory_combined_or_raises_witness :
  let track := sampled_track [0; 1; 2; 3; 4] in
  min_history_points TrajectoryPredictor_init = 5%nat /\
  (5 <= length (s_history track))%nat /\
  (predict_trajectory ols_linregress TrajectoryPredictor_init track = None \/
   exists f, predict_trajectory ols_linregress TrajectoryPredictor_init track
               = Some (success f) /\
             p_method f = combined).
Proof.
  intros track.
  assert (Hmin : min_history_points TrajectoryPredictor_init = 5%nat) by reflexivity.
  assert (Hlen : (5 <= length (s_history track))%nat) by (simpl; lia).
  split; [exact Hmin|]. split; [exact Hlen|].
  exact (predict_trajectory_combined_or_raises ols_linregress TrajectoryPredictor_init
           track Hmin Hlen).
Defined.


(** *** What [predict_trajectory] can return *)

Lemma broadcast_add_length a b c :
  broadcast_add a b = Some c -> (2 <= length b)%nat -> length c = length b.
Proof.
  unfold broadcast_add.
  destruct a as [|p [|p' a]], b as [|q [|q' b]]; intros H Hb;
    try discriminate; try (simpl in Hb; lia).
  - injection H as <-. exact (length_fmap (padd p) (q :: q' :: b)).
  - destruct (Nat.eqb_spec (length (p :: p' :: a)) (length (q :: q' :: b))) as [E|];
      [|discriminate].
    injection H as <-.
    change (length (zip_with padd (p :: p' :: a) (q :: q' :: b)) = length (q :: q' :: b)).
    rewrite length_zip_with. lia.
Qed.

(** With the defaults of the predictor, a returned prediction is
    [insufficient_data] (fewer than five history entries) or a fused
    forecast of 50 points. *)
Lemma predict_trajectory_Some linregress self track p :
  min_history_points self = 5%nat ->
  prediction_time self = 5.0 ->
  predict_trajectory linregress self track = Some p ->
  ((length (s_history track) < 5)%nat /\ p = insufficient_data) \/
  ((5 <= length (s_history track))%nat /\
   exists f, p = success f /\ p_method f = combined /\ length (p_trajectory f) = 50%nat).
Proof.
  intros Hmin Hpt. unfold predict_trajectory. rewrite Hmin.
  destruct (Nat.ltb_spec (length (s_history track)) 5) as [Hlt|Hge].
  { intros [= <-]. left. auto. }
  intros H. right. split; [exact Hge|]. revert H.
  unfold _linear_prediction. rewrite length_fmap.
  destruct (Nat.ltb_spec (length (s_history track)) 3) as [Hlt|_]; [lia|].
  destruct (linregress _ (fst <$> _)) as [[[slope_x intercept_x] r_x]|]; [|discriminate].
  cbn [mbind option_bind].
  destruct (linregress _ (snd <$> _)) as [[[slope_y intercept_y] r_y]|]; [|discriminate].
  cbn [mbind option_bind].
  destruct (np_arange _ _ 0.1) as [future_times|]; [|discriminate].
  cbn [mbind option_bind].
  destruct (_kalman_prediction_succeeds self track Hpt) as (k & -> & _ & Hconf & Hk).
  cbn [mbind option_bind]. unfold _combine_predictions. cbn [p_confidence p_trajectory].
  rewrite Hconf, total_weight_nonzero.
  destruct (broadcast_add _ _) as [combined_trajectory|] eqn:Eadd; [|discriminate].
  apply broadcast_add_length in Eadd; [|rewrite length_scale, Hk; lia].
  rewrite length_scale, Hk in Eadd.
  cbn [mbind option_bind]. destruct (_ <? _); intros [= <-]; eexists; repeat split;
    exact Eadd.
Qed.

Local Close Scope float_scope.

(** ** main.py: [process_frame] *)

Section Pipeline_facts.

Context `{fmt : BoxFormat}.
Context (linalg_inv : matrix -> option matrix).
Context (linear_sum_assignment : list (list float) -> list nat * list nat).
Context (clock : nat -> float).
Context (linregress : list float -> list float -> option (float * float * float)).

Local Open Scope nat_scope.

(** When no forecast raises, [predict_all] holds the forecast of every
    tracked object under its id, and nothing else. *)
Lemma predict_all_Some predictor tracked_objects predictions :
  predict_all linregress predictor tracked_objects = Some predictions ->
  forall i,
    match tracked_objects !! i with
    | Some track =>
        exists p, predict_trajectory linregress predictor track = Some p /\
                  predictions !! i = Some p
    | None => predictions !! i = None
    end.
Proof.
  unfold predict_all. revert predictions.
  apply (map_fold_weak_ind
           (fun (r : option (gmap nat Prediction)) (m : gmap nat TrackState) =>
              forall predictions, r = Some predictions ->
              forall i, match m !! i with
                        | Some track =>
                            exists p, predict_trajectory linregress predictor track = Some p /\
                                      predictions !! i = Some p
                        | None => predictions !! i = None
                        end)).
  - intros predictions [= <-] i. rewrite !lookup_empty. reflexivity.
  - intros j track m r Hj IH predictions H i.
    destruct r as [preds|]; [|discriminate]. simpl in H.
    destruct (predict_trajectory linregress predictor track) as [p|] eqn:Ep; [|discriminate].
    simpl in H. injection H as <-.
    destruct (decide (j = i)) as [->|Hne].
    + rewrite !lookup_insert_eq. eauto.
    + rewrite !lookup_insert_ne by exact Hne. apply (IH preds eq_refl i).
Qed.

(** The snapshot of a reported track of a reachable tracker. *)
Lemma reported_snapshot s detections out s' i st :
  reachable linalg_inv linear_sum_assignment clock s ->
  invocation linalg_inv linear_sum_assignment clock s detections out s' ->
  out !! i = Some st ->
  s_id st = i /\ 3 <= s_hits st /\
  length (s_history st) = Nat.min (s_hits st - 1) 30.
Proof.
  intros Hreach Hstep Hout.
  pose proof (invariant_reachable _ _ _ _ Hreach) as I.
  pose proof (invariant_step _ _ _ _ _ _ _ I Hstep) as I'.
  assert (Hreach' : reachable linalg_inv linear_sum_assignment clock s').
  { eapply later_trans; [exact Hreach|]. eapply later_step; [exact Hstep|constructor]. }
  rewrite (invocation_out _ _ _ _ _ _ _ Hstep), (inv_min_hits s I) in Hout.
  apply confirmed_lookup in Hout as (t & Ht & Hid & Hhits & ->); [|exact (inv_nodup s' I')].
  destruct (proj1 (Forall_forall _ _) (reachable_track_bookkeeping _ _ _ s' Hreach') t Ht)
    as (_ & Hl & _).
  simpl. auto.
Qed.

(** X17.  When [process_frame] returns on a reachable tracker, with the
    default predictor, it returns the dictionary of [update] and one
    prediction per tracked object, under the same ids.  A tracked object
    has at least 3 hits; its prediction is [insufficient_data] while it
    has fewer than 6 hits and a fused forecast of 50 trajectory points from
    the 6th hit on: a forecast of the linear or of the constant-velocity
    method alone is never returned. *)
Theorem process_frame_predictions s detections n tracked_objects predictions s' n' :
  reachable linalg_inv linear_sum_assignment clock s ->
  process_frame linalg_inv linear_sum_assignment clock linregress
                s TrajectoryPredictor_init detections n
    = Some ((tracked_objects, predictions, s'), n') ->
  invocation linalg_inv linear_sum_assignment clock s detections tracked_objects s' /\
  (forall i, is_Some (predictions !! i) <-> is_Some (tracked_objects !! i)) /\
  (forall i track p,
      tracked_objects !! i = Some track -> predictions !! i = Some p ->
      3 <= s_hits track /\
      (s_hits track < 6 -> p = insufficient_data) /\
      (6 <= s_hits track ->
       exists f, p = success f /\ p_method f = combined /\
                 length (p_trajectory f) = 50)).
Proof.
  intros Hreach H. unfold process_frame in H.
  apply bind_Some in H as ([tracked tracker'] & n1 & Hupd & H).
  apply bind_Some in H as (preds & n2 & Hall & H).
  apply lift_Some in Hall as [Hall ->].
  simpl in H. injection H as <- <- <- <-.
  assert (Hstep : invocation linalg_inv linear_sum_assignment clock s detections tracked
                             tracker') by (exists n, n1; exact Hupd).
  pose proof (predict_all_Some _ _ _ Hall) as Hpreds.
  split; [exact Hstep|]. split.
  - intros i. specialize (Hpreds i). destruct (tracked !! i) as [track|].
    + destruct Hpreds as (p & _ & ->). split; eauto.
    + rewrite Hpreds. split; intros [x Hx]; discriminate.
  - intros i track p Ht Hp. specialize (Hpreds i). rewrite Ht in Hpreds.
    destruct Hpreds as (p' & Hpred & Hp'). rewrite Hp in Hp'. injection Hp' as <-.
    destruct (reported_snapshot _ _ _ _ _ _ Hreach Hstep Ht) as (_ & Hhits & Hlen).
    split; [exact Hhits|].
    apply predict_trajectory_Some in Hpred as [[Hlt ->]|[Hge Hf]];
      [| |reflexivity|reflexivity].
    + split; [reflexivity|]. lia.
    + split; [lia|]. intros _. exact Hf.
Qed.

(** X18.  A tracked object that the locking terminal shows as LOCKED has
    at least 6 hits and a history of at least 5 entries, so that
    [predict_trajectory] does not answer [insufficient_data] for it. *)
Theorem locked_track_has_forecast s detections out s' i track :
  reachable linalg_inv linear_sum_assignment clock s ->
  invocation linalg_inv linear_sum_assignment clock s detections out s' ->
  out !! i = Some track ->
  lock_status track = LOCKED ->
  6 <= s_hits track /\ 5 <= length (s_history track) /\
  predict_trajectory linregress TrajectoryPredictor_init track <> Some insufficient_data.
Proof.
  intros Hreach Hstep Hout Hlock.
  destruct (reported_snapshot _ _ _ _ _ _ Hreach Hstep Hout) as (_ & _ & Hlen).
  assert (Hhits : 6 <= s_hits track).
  { unfold lock_status in Hlock.
    destruct (Nat.ltb_spec 5 (s_hits track)) as [Hlt|_]; [lia|].
    rewrite andb_false_r in Hlock. destruct (_ <? _)%float; discriminate. }
  split; [exact Hhits|]. split; [lia|].
  intros Hpred.
  apply predict_trajectory_Some in Hpred as [[Hlt _]|[_ (f & [=] & _)]];
    [lia|reflexivity|reflexivity].
Qed.

End Pipeline_facts.

(** ** terminal_ui.py: the success statistics *)

Lemma count_prediction_spec pred counts :
  count_prediction pred counts
  = ((counts.1 + (count_prediction pred (0, 0)%nat).1)%nat,
     (counts.2 + (if is_success pred then 1 else 0))%nat) /\
  ((count_prediction pred (0, 0)%nat).1 <= (if is_success pred then 1 else 0))%nat.
Proof.
  destruct counts as [sc tp], pred as [|f]; simpl.
  - rewrite !Nat.add_0_r. auto.
  - destruct (_ <? _)%float; simpl; split; try lia; f_equal; lia.
Qed.

Lemma update_data_counts self tracked_objects predictions :
  let self' := update_data self tracked_objects predictions in
  (total_predictions self'
   = total_predictions self + size (filter (fun kv => is_success kv.2 = true) predictions) /\
   success_count self <= success_count self' /\
   success_count self' - success_count self
   <= total_predictions self' - total_predictions self)%nat.
Proof.
  unfold update_data. cbn [success_count total_predictions].
  apply (map_fold_weak_ind
           (fun (r : nat * nat) (m : gmap nat Prediction) =>
              (r.2 = total_predictions self + size (filter (fun kv => is_success kv.2 = true) m) /\
               success_count self <= r.1 /\
               r.1 - success_count self <= r.2 - total_predictions self)%nat)).
  - rewrite map_filter_empty, map_size_empty. simpl. lia.
  - intros i pred m r Hi (Ht & Hs & Hd).
    destruct (count_prediction_spec pred r) as [-> Hle]. cbn [fst snd].
    destruct (is_success pred) eqn:E.
    + rewrite map_filter_insert_True by exact E.
      rewrite map_size_insert_None by (apply map_lookup_filter_None; auto). lia.
    + rewrite map_filter_insert_not'; [lia|simpl; congruence|].
      intros y Hy. rewrite Hi in Hy. discriminate.
Qed.

(** X19.  [update_data] adds to [total_predictions] the number of
    predictions with status success and never decreases [success_count];
    after any number of calls [success_count <= total_predictions], so the
    displayed success rate is at most 100%. *)
Theorem success_count_at_most_total self :
  displayed self ->
  (success_count self <= total_predictions self)%nat /\
  forall tracked_objects predictions,
    let self' := update_data self tracked_objects predictions in
    (total_predictions self'
     = total_predictions self + size (filter (fun kv => is_success kv.2 = true) predictions) /\
     success_count self <= success_count self' <= total_predictions self')%nat.
Proof.
  intros H.
  assert (Hle : (success_count self <= total_predictions self)%nat).
  { induction H as [|self tracked_objects predictions _ IH]; [simpl; lia|].
    destruct (update_data_counts self tracked_objects predictions) as (Ht & Hs & Hd). lia. }
  split; [exact Hle|]. intros tracked_objects predictions self'.
  destruct (update_data_counts self tracked_objects predictions) as (Ht & Hs & Hd).
  fold self' in Ht, Hs, Hd. lia.
Qed.

(** *** The pipeline on the frames of test_system.py *)

Lemma process_frame_predictions_witness :
  let frames := repeat two_objects 5 in
  let s := (after_frames frames).1 in
  let n := (after_frames frames).2 in
  exists tracked_objects predictions s' n',
    reachable inv_2x2 exhaustive_assignment ticking_clock s /\
    process_frame inv_2x2 exhaustive_assignment ticking_clock ols_linregress
                  s TrajectoryPredictor_init two_objects n
      = Some ((tracked_objects, predictions, s'), n') /\
    s_hits <$> tracked_objects !! 1%nat = Some 6%nat /\
    (invocation inv_2x2 exhaustive_assignment ticking_clock s two_objects tracked_objects s' /\
     (forall i, is_Some (predictions !! i) <-> is_Some (tracked_objects !! i)) /\
     (forall i track p,
         tracked_objects !! i = Some track -> predictions !! i = Some p ->
         (3 <= s_hits track)%nat /\
         ((s_hits track < 6)%nat -> p = insufficient_data) /\
         ((6 <= s_hits track)%nat ->
          exists f, p = success f /\ p_method f = combined /\
                    length (p_trajectory f) = 50%nat))).
Proof.
  intros frames s n.
  assert (Hreach : reachable inv_2x2 exhaustive_assignment ticking_clock s).
  { apply after_frames_reachable. vm_compute. reflexivity. }
  assert (Hrun : exists tracked_objects predictions s' n',
             process_frame inv_2x2 exhaustive_assignment ticking_clock ols_linregress
                           s TrajectoryPredictor_init two_objects n
               = Some ((tracked_objects, predictions, s'), n') /\
             s_hits <$> tracked_objects !! 1%nat = Some 6%nat).
  { eexists _, _, _, _. split; vm_compute; reflexivity. }
  destruct Hrun as (tracked_objects & predictions & s' & n' & Hrun & Hhits).
  exists tracked_objects, predictions, s', n'.
  split; [exact Hreach|]. split; [exact Hrun|]. split; [exact Hhits|].
  exact (process_frame_predictions inv_2x2 exhaustive_assignment ticking_clock ols_linregress
           s two_objects n tracked_objects predictions s' n' Hreach Hrun).
Defined.

Lemma locked_track_has_forecast_witness :
  let frames := repeat [confident_detection] 5 in
  let s := (after_frames frames).1 in
  let out := output_after frames [confident_detection] in
  let s' := (after_frames (frames ++ [[confident_detection]])).1 in
  exists track,
    reachable inv_2x2 exhaustive_assignment ticking_clock s /\
    invocation inv_2x2 exhaustive_assignment ticking_clock s [confident_detection] out s' /\
    out !! 1%nat = Some track /\
    lock_status track = LOCKED /\
    ((6 <= s_hits track)%nat /\ (5 <= length (s_history track))%nat /\
     predict_trajectory ols_linregress TrajectoryPredictor_init track
     <> Some insufficient_data).
Proof.
  intros frames s out s'.
  assert (Hreach : reachable inv_2x2 exhaustive_assignment ticking_clock s).
  { apply after_frames_reachable. vm_compute. reflexivity. }
  assert (Hstep : invocation inv_2x2 exhaustive_assignment ticking_clock s
                             [confident_detection] out s').
  { exists (after_frames frames).2, (after_frames (frames ++ [[confident_detection]])).2.
    vm_compute. reflexivity. }
  assert (Hout : exists track, out !! 1%nat = Some track /\ lock_status track = LOCKED).
  { eexists. split; vm_compute; reflexivity. }
  destruct Hout as (track & Hout & Hlock). exists track.
  split; [exact Hreach|]. split; [exact Hstep|]. split; [exact Hout|].
  split; [exact Hlock|].
  exact (locked_track_has_forecast inv_2x2 exhaustive_assignment ticking_clock ols_linregress
           s [confident_detection] out s' 1%nat track Hreach Hstep Hout Hlock).
Defined.

Lemma success_count_at_most_total_witness :
  let self := update_data TerminalUI_init ∅ {[ 1%nat := insufficient_data ]} in
  displayed self /\
  ((success_count self <= total_predictions self)%nat /\
   forall tracked_objects predictions,
     let self' := update_data self tracked_objects predictions in
     (total_predictions self'
      = total_predictions self
        + size (filter (fun kv => is_success kv.2 = true) predictions) /\
      success_count self <= success_count self' <= total_predictions self')%nat).
Proof.
  intros self.
  assert (H : displayed self) by (apply displayed_update, displayed_init).
  split; [exact H|].
  exact (success_count_at_most_total self H).
Defined.
